(** * Quantum-Mechanics: basis transforms, ladder operators, two-level system

    A shallow embedding of the numerical core of the scripts of the
    repository:

    - [src/code/change of basis.py]         (class [ParticleInBox] and the
      arrays its examples build),
    - [src/code/ladder_operators_visual.py] (class [QuantumHarmonicOscillator]
      and the button callbacks that renormalise the state),
    - [src/code/two-level quantum system.py] (the top-level script),
    - [src/code/asymmetry_explanation.py], [src/code/superposition_frames.py]
      and [src/code/superposition_animation.py] (the sampled superpositions).

    Conventions of the embedding.

    - A [float64] is a real number of [R] and its arithmetic is exact; a
      [complex128] is a pair of reals.  Rounding is therefore not part of
      the model: every statement below is a statement about the algorithm
      in exact arithmetic.  The one float value that has no real
      counterpart and that the code can produce, the [nan] that [np.sqrt]
      returns on a negative argument, is modelled explicitly ([np.sqrt]
      returns an [option]).
    - A numpy array of one dimension is a [list]; a matrix is a list of rows.
      A function that takes arrays of floats as well as of complex numbers
      is embedded on lists of complex numbers, and a float array is passed
      to it as [map RtoC]; what a [float64] array keeps of a complex value
      stored in it is [np.float64].
    - A Python statement that may raise evaluates to a [result]: [Ok v] or
      [Raise name], where [name] is the name of the exception class.
    - Plotting and printing are left out, except that a printed value that a
      statement of the specification talks about is the value the modelled
      statement returns. *)

From Stdlib Require Import String.
From Stdlib Require Import Reals Lra Lia ZArith Bool List.
Import ListNotations.
Open Scope string_scope.
Open Scope list_scope.
Open Scope R_scope.

(** ** Outcomes of Python statements *)

Inductive result (A : Type) : Type :=
| Ok (a : A)
| Raise (exc : string).
Arguments Ok {A} a.
Arguments Raise {A} exc.

Definition bind {A B : Type} (c : result A) (k : A -> result B) : result B :=
  match c with
  | Ok a => k a
  | Raise e => Raise e
  end.

Notation "v <- c ;; k" := (bind c (fun v => k))
  (at level 61, c at next level, right associativity).

(** [for n in ns: state = body n state], stopping at the first exception. *)
Fixpoint for_each {S : Type} (ns : list nat) (body : nat -> S -> result S)
  (s : S) : result S :=
  match ns with
  | [] => Ok s
  | n :: ns' => s' <- body n s ;; for_each ns' body s'
  end.

(** [a[i]] and [a[i] = v] on a one-dimensional array, for [i >= 0]: an index
    past the end raises [IndexError]. *)
Definition getitem {A : Type} (a : list A) (i : nat) : result A :=
  match nth_error a i with
  | Some v => Ok v
  | None => Raise "IndexError"
  end.

Fixpoint update {A : Type} (a : list A) (i : nat) (v : A) : list A :=
  match a, i with
  | [], _ => []
  | _ :: a', O => v :: a'
  | u :: a', S i' => u :: update a' i' v
  end.

Definition setitem {A : Type} (a : list A) (i : nat) (v : A) : result (list A) :=
  if (i <? length a)%nat then Ok (update a i v) else Raise "IndexError".

(** ** Complex numbers ([complex128] in exact arithmetic) *)

Module Cx.

Definition C : Type := (R * R)%type.

Definition RtoC (r : R) : C := (r, 0).
Definition C0 : C := RtoC 0.
Definition Ci : C := (0, 1).
Definition Re (z : C) : R := fst z.
Definition Im (z : C) : R := snd z.

Definition Cplus (z w : C) : C := (Re z + Re w, Im z + Im w).
Definition Copp (z : C) : C := (- Re z, - Im z).
Definition Cminus (z w : C) : C := Cplus z (Copp w).
Definition Cmult (z w : C) : C :=
  (Re z * Re w - Im z * Im w, Re z * Im w + Im z * Re w).
Definition Cdiv (z w : C) : C :=
  ((Re z * Re w + Im z * Im w) / (Re w * Re w + Im w * Im w),
   (Im z * Re w - Re z * Im w) / (Re w * Re w + Im w * Im w)).
Definition Cconj (z : C) : C := (Re z, - Im z).
(** [abs(z)] *)
Definition Cmod (z : C) : R := sqrt (Re z * Re z + Im z * Im z).
(** [exp(z)] *)
Definition Cexp (z : C) : C := (exp (Re z) * cos (Im z), exp (Re z) * sin (Im z)).

Definition Csum (zs : list C) : C := fold_right Cplus C0 zs.

End Cx.
Import Cx.

Definition Rsum (rs : list R) : R := fold_right Rplus 0 rs.

(** ** The numpy and scipy functions the scripts call

    These are library functions, not code of the repository; each is
    written after its documented meaning (and, where the order of the
    operations is visible in the result's shape, after numpy's own
    implementation). *)

Module np.

(** [np.zeros(n)] *)
Definition zeros (n : nat) : list R := repeat 0 n.

(** [np.zeros(n, dtype=complex)] and [np.zeros_like(x, dtype=complex)] *)
Definition czeros (n : nat) : list C := repeat C0 n.
Definition czeros_like {A : Type} (x : list A) : list C := czeros (length x).

(** [np.linspace(start, stop, num)]: [num] samples [start + j * step] with
    [step = (stop - start) / (num - 1)]; a negative [num] raises
    [ValueError]; [num = 1] gives [[start]] and [num = 0] the empty array.
    (numpy overwrites the last sample by [stop], which is its value in exact
    arithmetic.) *)
Definition linspace (start stop : R) (num : Z) : result (list R) :=
  if (num <? 0)%Z then Raise "ValueError"
  else
    let step := (stop - start) / (IZR num - 1) in
    Ok (map (fun j => INR j * step + start) (seq 0 (Z.to_nat num))).

(** Elementwise operations on arrays of equal shape. *)
Definition add (a b : list C) : list C :=
  map (fun p => Cplus (fst p) (snd p)) (combine a b).
Definition multiply (a b : list C) : list C :=
  map (fun p => Cmult (fst p) (snd p)) (combine a b).

(** [np.diff(x)]: [x[1:] - x[:-1]] *)
Definition diff (x : list R) : list R :=
  map (fun p => fst p - snd p) (combine (tl x) (removelast x)).

(** [np.trapz(y, x)]: [(d * (y[1:] + y[:-1]) / 2.0).sum()] with
    [d = diff(x)]. *)
Definition trapz (y : list C) (x : list R) : C :=
  Csum (map (fun p => Cdiv (Cmult (RtoC (fst p)) (snd p)) (RtoC 2))
          (combine (diff x) (add (tl y) (removelast y)))).

(** [np.sqrt] on a float: [nan] (here [None]) on a negative argument. *)
Definition sqrt (v : R) : option R :=
  if Rlt_dec v 0 then None else Some (R_sqrt.sqrt v).


(** Elementwise sum of real arrays of equal shape, and [np.dot] of two real
    vectors. *)
Definition add_real (a b : list R) : list R :=
  map (fun p => fst p + snd p) (combine a b).
Definition dot (a b : list R) : R :=
  Rsum (map (fun p => fst p * snd p) (combine a b)).

(** What a [float64] array keeps of a number stored in it: of a complex
    value the real part (numpy warns with [ComplexWarning] and goes on); a
    float, held here as a complex number without imaginary part, is stored
    as it is. *)
Definition float64 (z : C) : R := Re z.

End np.

(** [scipy.special.hermite(n)], the physicists' Hermite polynomial [H_n]
    (by its recurrence [H_(n+1) = 2 x H_n - 2 n H_(n-1)], [H_0 = 1],
    [H_1 = 2 x]), and [scipy.special.factorial(n)] on a non-negative
    integer. *)
Module scipy.

Fixpoint hermite_pair (n : nat) (x : R) : R * R :=
  match n with
  | O => (1, 2 * x)
  | S k =>
      let p := hermite_pair k x in
      (snd p, 2 * x * snd p - 2 * INR (S k) * fst p)
  end.

Definition hermite (n : nat) (x : R) : R := fst (hermite_pair n x).

Definition factorial (n : nat) : R := INR (fact n).

End scipy.

(** ** [class ParticleInBox] ([change of basis.py], lines 15-55) *)

Module ParticleInBox.

Record t : Type := mk {
  L : R;
  n_max : nat;
  x : list R;
  dx : R
}.

(** [__init__(self, L, n_max, n_points)]: [self.x[1]] is read before
    [self.x[0]]. *)
Definition __init__ (L : R) (n_max : nat) (n_points : Z) : result t :=
  x <- np.linspace 0 L n_points ;;
  x1 <- getitem x 1 ;;
  x0 <- getitem x 0 ;;
  Ok (mk L n_max x (x1 - x0)).

(** [position_wavefunction(self, n, x)] at one point [x]; the code calls it
    on the whole grid, numpy applying it to every sample. *)
Definition position_wavefunction (self : t) (n : nat) (x : R) : R :=
  let n_quantum := (n + 1)%nat in
  let normalization := R_sqrt.sqrt (2 / L self) in
  normalization * sin (INR n_quantum * PI * x / L self).

(** [energy_to_position(self, coefficients)] *)
Definition energy_to_position (self : t) (coefficients : list C) : list C :=
  let n_states := length coefficients in
  fold_left
    (fun psi_x n =>
       np.add psi_x
         (map (fun xj => Cmult (nth n coefficients C0)
                           (RtoC (position_wavefunction self n xj)))
            (x self)))
    (seq 0 n_states)
    (np.czeros_like (x self)).

(** [position_to_energy(self, psi_x)], for samples [psi_x] aligned with the
    grid ([len(psi_x) = len(self.x)]). *)
Definition position_to_energy (self : t) (psi_x : list C) : list C :=
  fold_left
    (fun coefficients n =>
       let psi_n := map (fun xj => RtoC (position_wavefunction self n xj)) (x self) in
       update coefficients n (np.trapz (np.multiply psi_n psi_x) (x self)))
    (seq 0 (n_max self))
    (np.czeros (n_max self)).

(** [demonstrate_orthonormality], lines 272-276: the entry [overlap[m, n]]
    of the overlap matrix, [np.trapz(psi_m * psi_n, pib.x)]. *)
Definition overlap_entry (pib : t) (m n : nat) : C :=
  let psi_m := map (fun xj => RtoC (position_wavefunction pib m xj)) (x pib) in
  let psi_n := map (fun xj => RtoC (position_wavefunction pib n xj)) (x pib) in
  np.trapz (np.multiply psi_m psi_n) (x pib).

End ParticleInBox.

(** ** [class QuantumHarmonicOscillator] ([ladder_operators_visual.py]) *)

Module QuantumHarmonicOscillator.

(** [apply_creation(self, coeffs)], lines 63-66.  The coefficients may be
    floats or complex numbers (a float array is the list of its entries
    under [RtoC]); the result array [np.zeros(len(coeffs))] is [float64]. *)
Definition apply_creation (coeffs : list C) : result (list R) :=
  for_each (seq 0 (length coeffs - 1))
    (fun n new_coeffs =>
       c <- getitem coeffs n ;;
       setitem new_coeffs (n + 1)
         (np.float64 (Cmult (RtoC (sqrt (INR (n + 1)))) c)))
    (np.zeros (length coeffs)).

(** [apply_annihilation(self, coeffs)], lines 80-83. *)
Definition apply_annihilation (coeffs : list C) : result (list R) :=
  for_each (seq 1 (length coeffs - 1))
    (fun n new_coeffs =>
       c <- getitem coeffs n ;;
       setitem new_coeffs (n - 1)
         (np.float64 (Cmult (RtoC (sqrt (INR n))) c)))
    (np.zeros (length coeffs)).

(** [np.sqrt(np.sum(np.abs(coeffs)**2))] *)
Definition norm (coeffs : list R) : R :=
  sqrt (Rsum (map (fun c => Rabs c ^ 2) coeffs)).

(** The "Renormalize" block of both button callbacks (lines 191-193 and
    199-201): [if norm > 1e-10: coeffs /= norm]. *)
Definition renormalize (coeffs : list R) : list R :=
  if Rlt_dec 1e-10 (norm coeffs) then map (fun c => c / norm coeffs) coeffs
  else coeffs.

(** The callbacks [apply_creation_op] and [apply_annihilation_op], as
    functions of [state['coeffs']]; [update_plots()] only draws.  The state
    is a float array: [reset_state] and line 115 build it with [np.zeros],
    and both operators return float arrays. *)
Definition apply_creation_op (state : list R) : result (list R) :=
  coeffs <- apply_creation (map RtoC state) ;;
  Ok (renormalize coeffs).

Definition apply_annihilation_op (state : list R) : result (list R) :=
  coeffs <- apply_annihilation (map RtoC state) ;;
  Ok (renormalize coeffs).

(** [__init__(self, m, omega, hbar)], lines 21-24, for positive [m],
    [omega] and [hbar] (the defaults are all [1.0]). *)
Record t : Type := mk {
  m : R;
  omega : R;
  hbar : R;
  x0 : R
}.

Definition __init__ (m omega hbar : R) : t :=
  mk m omega hbar (sqrt (hbar / (m * omega))).

(** [psi_n(self, x, n)], lines 38-49, at one point [x]. *)
Definition psi_n (self : t) (x : R) (n : nat) : R :=
  let N_n := 1 / sqrt (2 ^ n * scipy.factorial n)
             * Rpower (m self * omega self / (PI * hbar self)) (1 / 4) in
  let xi := x / x0 self in
  let H_n := scipy.hermite n in
  N_n * exp (- xi ^ 2 / 2) * H_n xi.

(** [state_to_wavefunction(self, x, coeffs)], lines 96-100. *)
Definition state_to_wavefunction (self : t) (x : list R) (coeffs : list R)
  : list R :=
  fold_left
    (fun psi nc =>
       let n := fst nc in
       let c_n := snd nc in
       if Rlt_dec 1e-10 (Rabs c_n)
       then np.add_real psi (map (fun xj => c_n * psi_n self xj n) x)
       else psi)
    (combine (seq 0 (length coeffs)) coeffs)
    (np.zeros (length x)).

(** [reset_state], lines 205-206, and the initial state of lines 115-116:
    the basis state [|initial_n>] among [n_max] levels. *)
Definition reset_state (n_max initial_n : nat) : result (list R) :=
  setitem (np.zeros n_max) initial_n 1.

End QuantumHarmonicOscillator.

(** ** The script [two-level quantum system.py]

    Matrices are lists of rows with complex entries (a real array is held
    with zero imaginary parts, as numpy promotes it when it meets a complex
    operand).  The script fixes [E0 = 1.0], [E1 = 0.0], [x0 = 1.0] and
    [x1 = -1.0]; the embedding keeps these four as parameters. *)

Module TwoLevel.

Definition matrix : Type := list (list C).

(** [k * A], [A * k], [A / k], [A + B], [A.conj().T], [A @ B] and
    [A[i, j]]. *)
Definition scale (k : C) (A : matrix) : matrix := map (map (Cmult k)) A.
Definition times (A : matrix) (k : C) : matrix :=
  map (map (fun z => Cmult z k)) A.
Definition divide (A : matrix) (k : C) : matrix :=
  map (map (fun z => Cdiv z k)) A.
Definition plus (A B : matrix) : matrix :=
  map (fun rows => np.add (fst rows) (snd rows)) (combine A B).

Fixpoint transpose (A : matrix) : matrix :=
  match A with
  | [] => []
  | [row] => map (fun z => [z]) row
  | row :: rest => map (fun p => fst p :: snd p) (combine row (transpose rest))
  end.

Definition conjT (A : matrix) : matrix := transpose (map (map Cconj) A).

Definition matmul (A B : matrix) : matrix :=
  map (fun row => map (fun col => Csum (np.multiply row col)) (transpose B)) A.

Definition entry (A : matrix) (i j : nat) : C := nth j (nth i A []) C0.


(** [scipy.linalg.expm] on a diagonal 2x2 matrix: the exponential of
    [diag(a, d)] is [diag(exp a, exp d)].  The script exponentiates only
    [-1j * H_energy * t / hbar], which is diagonal. *)
Definition expm (A : matrix) : matrix :=
  [[Cexp (entry A 0 0); C0]; [C0; Cexp (entry A 1 1)]].

(** The eigenvalues [np.linalg.eigh] returns for a Hermitian 2x2 matrix, in
    ascending order: the roots of its characteristic polynomial.  As numpy
    does by default, it reads the diagonal and the entry below it. *)
Definition eigvalsh (A : matrix) : list R :=
  let a := Re (entry A 0 0) in
  let d := Re (entry A 1 1) in
  let mid := (a + d) / 2 in
  let rad := sqrt (((a - d) / 2) ^ 2 + Cmod (entry A 1 0) ^ 2) in
  [mid - rad; mid + rad].


(** The 2x2 identity matrix. *)
Definition identity : matrix := [[RtoC 1; C0]; [C0; RtoC 1]].

Section Script.

Variables E0 E1 x0 x1 : R.

(** Part (a), lines 28-41. *)
Definition alpha : R := -1.
Definition c0_squared : R := 1 / 2.
Definition c0 : R := sqrt c0_squared.
Definition c1_squared : R := 1 / (1 + Rabs alpha ^ 2).
Definition c1 : R := sqrt c1_squared.

(** Part (b), lines 58-75. *)
Definition H_energy : matrix :=
  [[RtoC E0; RtoC 0]; [RtoC 0; RtoC E1]].

Definition ket_x0 : matrix := scale (RtoC c0) [[RtoC 1]; [RtoC 1]].
Definition ket_x1 : matrix := scale (RtoC c1) [[RtoC 1]; [RtoC alpha]].

Definition X_energy : matrix :=
  plus (scale (RtoC x0) (matmul ket_x0 (conjT ket_x0)))
       (scale (RtoC x1) (matmul ket_x1 (conjT ket_x1))).



(** Part (c), lines 99-117. *)
Definition psi_0 : matrix := ket_x0.
Definition hbar : R := 1.
Definition t_max : R := 20.

Definition U_t (t : R) : matrix :=
  expm (divide (times (scale (Copp Ci) H_energy) (RtoC t)) (RtoC hbar)).

Definition psi_t (t : R) : matrix := matmul (U_t t) psi_0.

Definition X_expectation_at (t : R) : R :=
  Re (entry (matmul (matmul (conjT (psi_t t)) X_energy) (psi_t t)) 0 0).

(** Lines 125-131: the closed form the script plots beside the numerical
    curve. *)
Definition omega : R := (E0 - E1) / hbar.

Definition X_analytical_at (t : R) : R :=
  c0 ^ 2 * (x0 + x1) + c0 ^ 2 * (x0 - x1) * cos (omega * t).

(** Part (d), lines 142-158. *)
Definition X_squared : matrix := matmul X_energy X_energy.

Definition X_squared_expectation_at (t : R) : R :=
  Re (entry (matmul (matmul (conjT (psi_t t)) X_squared) (psi_t t)) 0 0).

(** Line 158, [np.sqrt(X_squared_expectation[i] - X_expectation[i]**2)], as
    a function of the two expectation values: it yields a float (possibly
    [nan]) and never raises. *)
Definition standard_deviation (X2 X1 : R) : result (option R) :=
  Ok (np.sqrt (X2 - X1 ^ 2)).

Definition sigma_x_at (t : R) : result (option R) :=
  standard_deviation (X_squared_expectation_at t) (X_expectation_at t).

(** Line 166. *)
Definition X2_analytical_at (t : R) : R :=
  c0 ^ 2 * (x0 ^ 2 + x1 ^ 2) + c0 ^ 2 * (x0 ^ 2 - x1 ^ 2) * cos (omega * t).

End Script.

(** The sampled times, [np.linspace(0, t_max, 500)], and the arrays the two
    loops fill. *)
Definition t_array : list R :=
  match np.linspace 0 t_max 500 with
  | Ok ts => ts
  | Raise _ => []
  end.

Definition X_expectation (E0 E1 x0 x1 : R) : list R :=
  map (X_expectation_at E0 E1 x0 x1) t_array.

Definition sigma_x (E0 E1 x0 x1 : R) : list (result (option R)) :=
  map (sigma_x_at E0 E1 x0 x1) t_array.

End TwoLevel.

(** ** The scripts [asymmetry_explanation.py], [superposition_frames.py] and
    [superposition_animation.py]

    The three scripts sample the first two eigenfunctions of the box of
    width [L = 1.0] on [np.linspace(0, L, 1000)] and superpose them; the two
    frame scripts share their loop body. *)

Module Superposition.

Definition L : R := 1.

Definition x : list R :=
  match np.linspace 0 L 1000 with
  | Ok xs => xs
  | Raise _ => []
  end.

Definition psi_1 : list R := map (fun xj => sqrt 2 * sin (1 * PI * xj / L)) x.
Definition psi_2 : list R := map (fun xj => sqrt 2 * sin (2 * PI * xj / L)) x.

(** [asymmetry_explanation.py], lines 15-20. *)
Definition psi_super : list R :=
  map (fun v => v / sqrt 2) (np.add_real psi_1 psi_2).

Definition prob_1 : list R := map (fun v => v ^ 2) psi_1.
Definition prob_2 : list R := map (fun v => v ^ 2) psi_2.
Definition prob_super : list R := map (fun v => v ^ 2) psi_super.

(** [superposition_frames.py], lines 26-44 and 88, and
    [superposition_animation.py], lines 21-39 and 83: the superposition and
    the density of the frame drawn for one [alpha]. *)
Definition n_frames : Z := 30.

Definition alphas : list R :=
  match np.linspace 0 1 n_frames with
  | Ok a => a
  | Raise _ => []
  end.

Definition frame_psi_super (alpha : R) : list R :=
  if Rlt_dec alpha 0.01 then psi_1
  else
    let weight_1 := 1 / sqrt (1 + alpha ^ 2) in
    let weight_2 := alpha / sqrt (1 + alpha ^ 2) in
    np.add_real (map (Rmult weight_1) psi_1) (map (Rmult weight_2) psi_2).

Definition frame_prob_super (alpha : R) : list R :=
  map (fun v => v ^ 2) (frame_psi_super alpha).

End Superposition.

(** ** [example_localized_packet] ([change of basis.py], lines 144-173)

    The packet the example builds and normalises, with the engine and the
    constants [x0 = 0.3] and [sigma = 0.1] of lines 150-154 as
    parameters. *)

Module LocalizedPacket.

(** [a[cond] = v], the mask [cond] computed from the grid [xs]. *)
Definition assign_where (cond : R -> bool) (xs a : list R) (v : R) : list R :=
  map (fun p => if cond (fst p) then v else snd p) (combine xs a).

(** Lines 155-159. *)
Definition gaussian_packet (pib : ParticleInBox.t) (x0 sigma : R) : list R :=
  let psi_x_gaussian :=
    map (fun xj => exp (- (xj - x0) ^ 2 / (2 * sigma ^ 2)))
      (ParticleInBox.x pib) in
  let psi_x_gaussian :=
    assign_where (fun xj => if Rle_dec xj 0 then true else false)
      (ParticleInBox.x pib) psi_x_gaussian 0 in
  assign_where (fun xj => if Rge_dec xj (ParticleInBox.L pib) then true else false)
    (ParticleInBox.x pib) psi_x_gaussian 0.

(** [np.trapz(np.abs(psi)**2, pib.x)] on a real array. *)
Definition norm_squared (pib : ParticleInBox.t) (psi : list R) : R :=
  Re (np.trapz (map (fun v => RtoC (Rabs v ^ 2)) psi) (ParticleInBox.x pib)).

(** Lines 162-163, [norm = np.sqrt(...)] and [psi /= norm], on a float
    array.  A norm that is [nan] or zero leaves [nan] or [inf] samples (with
    a warning, no exception), here [None].  The norm is zero when every
    sample is zero, which is also what the samples of a narrow packet are
    once [np.exp] has underflowed. *)
Definition normalize (pib : ParticleInBox.t) (psi : list R) : option (list R) :=
  match np.sqrt (norm_squared pib psi) with
  | None => None
  | Some norm =>
      if Req_EM_T norm 0 then None else Some (map (fun v => v / norm) psi)
  end.

(** Line 169, [np.sum(np.abs(c_n)**2)]. *)
Definition sum_of_probabilities (c_n : list C) : R :=
  Rsum (map (fun z => Cmod z ^ 2) c_n).

End LocalizedPacket.

(** ** Notions used to state the properties *)

(** The trapezoidal rule of [np.trapz(f(x), x)] for a real function [f]
    sampled on the grid [xs] (lemma [trapz_of_real_samples] relates it to
    [np.trapz]). *)
Definition quadrature (xs : list R) (f : R -> R) : R :=
  Rsum (map (fun j => (nth (S j) xs 0 - nth j xs 0)
                      * (f (nth (S j) xs 0) + f (nth j xs 0)) / 2)
          (seq 0 (length xs - 1))).

(** The integrand of the overlap integral of two eigenfunctions of the box. *)
Definition overlap (self : ParticleInBox.t) (m n : nat) (x : R) : R :=
  ParticleInBox.position_wavefunction self m x
  * ParticleInBox.position_wavefunction self n x.

(** The norm of the spec, [sqrt(sum |c_n|^2)], written out on its own: the
    statements on the renormalisation measure vectors with it. *)
Definition l2_norm (v : list R) : R :=
  sqrt (Rsum (map (fun c => Rabs c ^ 2) v)).

(** Kronecker's delta. *)
Definition delta (m n : nat) : R := if (m =? n)%nat then 1 else 0.

(** The spatial frequency [k * pi / L] of the [k]-th harmonic of the box. *)
Definition mode_frequency (L : R) (k : Z) : R := IZR k * PI / L.

(** An antiderivative of [cos (a * x)]. *)
Definition cos_primitive (a x : R) : R :=
  if Req_EM_T a 0 then x else sin (a * x) / a.

(** The trapezoidal sum of [cos (j * theta)] over [M] intervals of unit
    length. *)
Definition cos_trapezoid (M : nat) (theta : R) : R :=
  Rsum (map (fun j => cos (INR (S j) * theta) + cos (INR j * theta)) (seq 0 M)).

(** The term level [n] adds to the wavefunction [state_to_wavefunction]
    builds, at the point [xj]: nothing when the coefficient is negligible. *)
Definition contribution (self : QuantumHarmonicOscillator.t) (c_n : R)
  (n : nat) (xj : R) : R :=
  if Rlt_dec 1e-10 (Rabs c_n)
  then c_n * QuantumHarmonicOscillator.psi_n self xj n else 0.

(** The trapezoidal rule on the grid [xs] for samples given by their index,
    the projection of samples [F] on the [n]-th of a family [phi] of sampled
    functions, and what is left of [F] once its first [K] projections are
    taken away. *)
Definition trapezoid (xs : list R) (F : nat -> R) : R :=
  Rsum (map (fun j => (nth (S j) xs 0 - nth j xs 0) * (F (S j) + F j) / 2)
          (seq 0 (length xs - 1))).

Definition projection (xs : list R) (phi : nat -> nat -> R) (F : nat -> R)
  (n : nat) : R :=
  trapezoid xs (fun j => phi n j * F j).

Fixpoint residual (xs : list R) (phi : nat -> nat -> R) (F : nat -> R)
  (K : nat) (j : nat) : R :=
  match K with
  | O => F j
  | S k => residual xs phi F k j - projection xs phi F k * phi k j
  end.

(** ** Proof automation *)

(** Complex equalities are proved componentwise. *)
Ltac cx_unfold :=
  unfold Cminus, C0, Ci in *;
  unfold Cplus, Copp, Cmult, Cdiv, Cconj, RtoC in *;
  unfold Re, Im in *;
  simpl fst in *; simpl snd in *.

Ltac cx_destruct :=
  repeat match goal with
         | z : ?T |- _ =>
             let T' := eval hnf in T in
             match T' with (R * R)%type => destruct z end
         end.

Ltac cx_ring := intros; cx_destruct; cx_unfold; f_equal; ring.

(** Matrices of the two-level script are computed entry by entry. *)
Ltac mat_compute :=
  cbv [TwoLevel.X_squared TwoLevel.ket_x0 TwoLevel.ket_x1 TwoLevel.psi_0
       TwoLevel.H_energy TwoLevel.expm
       TwoLevel.scale TwoLevel.times TwoLevel.divide TwoLevel.plus
       TwoLevel.conjT TwoLevel.transpose TwoLevel.matmul TwoLevel.entry
       np.add np.multiply Csum
       map combine fold_right nth fst snd].

Ltac mat_eq :=
  repeat match goal with
         | |- (_ :: _) = (_ :: _) => apply (f_equal2 cons)
         | |- (_, _) = (_, _) => apply (f_equal2 pair)
         | |- [] = [] => reflexivity
         end.

(** * Properties *)

(** ** Arrays and loops *)

Lemma length_update {A : Type} (a : list A) (i : nat) (v : A) :
  length (update a i v) = length a.
Proof.
  revert i; induction a as [|u a IH]; intros [|i]; simpl; auto.
Qed.

Lemma nth_update_eq {A : Type} (a : list A) (i : nat) (v d : A) :
  (i < length a)%nat -> nth i (update a i v) d = v.
Proof.
  revert i; induction a as [|u a IH]; intros [|i] Hi; simpl in *;
    try lia; auto.
  apply IH; lia.
Qed.

Lemma nth_update_neq {A : Type} (a : list A) (i j : nat) (v d : A) :
  i <> j -> nth j (update a i v) d = nth j a d.
Proof.
  revert i j; induction a as [|u a IH]; intros [|i] [|j] Hij; simpl;
    try congruence; auto.
Qed.

Lemma update_app_length {A : Type} (l rest : list A) (u v : A) :
  update (l ++ u :: rest) (length l) v = l ++ v :: rest.
Proof.
  induction l as [|w l IH]; simpl; [reflexivity|].
  rewrite IH. reflexivity.
Qed.

Lemma getitem_nth {A : Type} (a : list A) (i : nat) (d : A) :
  (i < length a)%nat -> getitem a i = Ok (nth i a d).
Proof.
  intros Hi. unfold getitem.
  rewrite (nth_error_nth' a d Hi). reflexivity.
Qed.

Lemma setitem_in_range {A : Type} (a : list A) (i : nat) (v : A) :
  (i < length a)%nat -> setitem a i v = Ok (update a i v).
Proof.
  intros Hi. unfold setitem.
  destruct (Nat.ltb_spec i (length a)); [reflexivity | lia].
Qed.

(** A loop over [range(start, start + len)] that keeps an invariant indexed
    by the loop counter runs to its end without raising. *)
Lemma for_each_seq_invariant {S : Type} (Inv : nat -> S -> Prop)
  (body : nat -> S -> result S) (len start : nat) (s : S) :
  Inv start s ->
  (forall n s0, (start <= n < start + len)%nat -> Inv n s0 ->
     exists s1, body n s0 = Ok s1 /\ Inv (Datatypes.S n) s1) ->
  exists s', for_each (seq start len) body s = Ok s' /\ Inv (start + len)%nat s'.
Proof.
  revert start s. induction len as [|len IH]; intros start s H0 Hstep.
  - exists s. rewrite Nat.add_0_r. split; [reflexivity | assumption].
  - destruct (Hstep start s) as (s1 & Hb & H1); [lia | assumption |].
    destruct (IH (Datatypes.S start) s1 H1) as (s' & Hrun & Hend).
    + intros n s0 Hn Hi. apply Hstep; [lia | assumption].
    + exists s'. simpl. rewrite Hb. simpl. split; [exact Hrun |].
      replace (start + Datatypes.S len)%nat with (Datatypes.S start + len)%nat by lia.
      exact Hend.
Qed.

Lemma nth_zeros (n j : nat) : nth j (np.zeros n) 0 = 0.
Proof.
  unfold np.zeros. destruct (Nat.lt_ge_cases j n) as [Hj|Hj].
  - apply nth_repeat_lt; assumption.
  - apply nth_overflow. rewrite repeat_length. assumption.
Qed.

Lemma length_zeros (n : nat) : length (np.zeros n) = n.
Proof. apply repeat_length. Qed.

(** ** Ladder operators *)

Section Ladder.

Import QuantumHarmonicOscillator.

(** A float array read as an array of complex numbers. *)
Lemma nth_map_RtoC (r : list R) (j : nat) :
  nth j (map RtoC r) C0 = RtoC (nth j r 0).
Proof. change C0 with (RtoC 0). apply (map_nth RtoC). Qed.

Lemma map_RtoC_zeros (k : nat) : map RtoC (np.zeros k) = np.czeros k.
Proof.
  unfold np.zeros, np.czeros. change C0 with (RtoC 0).
  induction k as [|k IH]; [reflexivity|]. cbn [repeat map]. rewrite IH.
  reflexivity.
Qed.

(** What the [float64] result array keeps of [np.sqrt(..) * coeffs[n]]. *)
Lemma stored_product (s : R) (c : C) :
  np.float64 (Cmult (RtoC s) c) = s * Re c.
Proof. destruct c as [a b]. unfold np.float64. cx_unfold. ring. Qed.

(** Every entry of the vector [apply_creation] returns. *)
Lemma apply_creation_entries_complex (coeffs : list C) :
  exists new_coeffs,
    apply_creation coeffs = Ok new_coeffs /\
    length new_coeffs = length coeffs /\
    forall j, nth j new_coeffs 0 =
      if ((0 <? j) && (j <? length coeffs))%nat
      then sqrt (INR j) * Re (nth (j - 1) coeffs C0) else 0.
Proof.
  unfold apply_creation.
  destruct (for_each_seq_invariant
    (fun k new => length new = length coeffs /\
       forall j, nth j new 0 =
         if ((0 <? j) && (j <=? k))%nat
         then sqrt (INR j) * Re (nth (j - 1) coeffs C0) else 0)
    (fun n new_coeffs =>
       c <- getitem coeffs n ;;
       setitem new_coeffs (n + 1)
         (np.float64 (Cmult (RtoC (sqrt (INR (n + 1)))) c)))
    (length coeffs - 1) 0 (np.zeros (length coeffs)))
    as (new & Hrun & Hlen & Hnth).
  - split; [apply length_zeros|].
    intros j. rewrite nth_zeros.
    destruct j; reflexivity.
  - intros n s0 Hn [Hl Hs0].
    rewrite (getitem_nth coeffs n C0) by lia. cbn [bind].
    rewrite setitem_in_range by lia.
    eexists; split; [reflexivity|]. split.
    + rewrite length_update; assumption.
    + intros j. destruct (Nat.eq_dec (n + 1) j) as [<-|Hne].
      * rewrite nth_update_eq by lia. rewrite stored_product.
        replace (n + 1 - 1)%nat with n by lia.
        destruct (Nat.ltb_spec 0 (n + 1)); [|lia].
        destruct (Nat.leb_spec (n + 1) (Datatypes.S n)); [|lia].
        reflexivity.
      * rewrite nth_update_neq by assumption. rewrite Hs0.
        destruct (Nat.ltb_spec 0 j); cbn [andb]; [|reflexivity].
        destruct (Nat.leb_spec j n), (Nat.leb_spec j (Datatypes.S n));
          try reflexivity; lia.
  - exists new. split; [exact Hrun|]. split; [exact Hlen|].
    intros j. rewrite Hnth.
    change (0 + (length coeffs - 1))%nat with (length coeffs - 1)%nat.
    destruct (Nat.ltb_spec 0 j); cbn [andb]; [|reflexivity].
    destruct (Nat.leb_spec j (length coeffs - 1)), (Nat.ltb_spec j (length coeffs));
      try reflexivity; lia.
Qed.

(** Every entry of the vector [apply_annihilation] returns. *)
Lemma apply_annihilation_entries_complex (coeffs : list C) :
  exists new_coeffs,
    apply_annihilation coeffs = Ok new_coeffs /\
    length new_coeffs = length coeffs /\
    forall j, nth j new_coeffs 0 =
      if (j + 1 <? length coeffs)%nat
      then sqrt (INR (j + 1)) * Re (nth (j + 1) coeffs C0) else 0.
Proof.
  unfold apply_annihilation.
  destruct (for_each_seq_invariant
    (fun k new => length new = length coeffs /\
       forall j, nth j new 0 =
         if (j + 1 <? k)%nat
         then sqrt (INR (j + 1)) * Re (nth (j + 1) coeffs C0) else 0)
    (fun n new_coeffs =>
       c <- getitem coeffs n ;;
       setitem new_coeffs (n - 1)
         (np.float64 (Cmult (RtoC (sqrt (INR n))) c)))
    (length coeffs - 1) 1 (np.zeros (length coeffs)))
    as (new & Hrun & Hlen & Hnth).
  - split; [apply length_zeros|].
    intros j. rewrite nth_zeros.
    destruct (Nat.ltb_spec (j + 1) 1); [lia | reflexivity].
  - intros n s0 Hn [Hl Hs0].
    rewrite (getitem_nth coeffs n C0) by lia. cbn [bind].
    rewrite setitem_in_range by lia.
    eexists; split; [reflexivity|]. split.
    + rewrite length_update; assumption.
    + intros j. destruct (Nat.eq_dec (n - 1) j) as [<-|Hne].
      * rewrite nth_update_eq by lia. rewrite stored_product.
        replace (n - 1 + 1)%nat with n by lia.
        destruct (Nat.ltb_spec n (Datatypes.S n)); [|lia].
        reflexivity.
      * rewrite nth_update_neq by assumption. rewrite Hs0.
        destruct (Nat.ltb_spec (j + 1) n), (Nat.ltb_spec (j + 1) (Datatypes.S n));
          try reflexivity; lia.
  - exists new. split; [exact Hrun|]. split; [exact Hlen|].
    intros j. rewrite Hnth.
    destruct (Nat.ltb_spec (j + 1) (1 + (length coeffs - 1))),
      (Nat.ltb_spec (j + 1) (length coeffs)); try reflexivity; lia.
Qed.

(** On a float array nothing is lost. *)
Lemma apply_creation_entries (coeffs : list R) :
  exists new_coeffs,
    apply_creation (map RtoC coeffs) = Ok new_coeffs /\
    length new_coeffs = length coeffs /\
    forall j, nth j new_coeffs 0 =
      if ((0 <? j) && (j <? length coeffs))%nat
      then sqrt (INR j) * nth (j - 1) coeffs 0 else 0.
Proof.
  destruct (apply_creation_entries_complex (map RtoC coeffs))
    as (new & Hrun & Hlen & Hnth).
  rewrite length_map in Hlen, Hnth.
  exists new. split; [exact Hrun|]. split; [exact Hlen|].
  intros j. rewrite Hnth, nth_map_RtoC. reflexivity.
Qed.

Lemma apply_annihilation_entries (coeffs : list R) :
  exists new_coeffs,
    apply_annihilation (map RtoC coeffs) = Ok new_coeffs /\
    length new_coeffs = length coeffs /\
    forall j, nth j new_coeffs 0 =
      if (j + 1 <? length coeffs)%nat
      then sqrt (INR (j + 1)) * nth (j + 1) coeffs 0 else 0.
Proof.
  destruct (apply_annihilation_entries_complex (map RtoC coeffs))
    as (new & Hrun & Hlen & Hnth).
  rewrite length_map in Hlen, Hnth.
  exists new. split; [exact Hrun|]. split; [exact Hlen|].
  intros j. rewrite Hnth, nth_map_RtoC. reflexivity.
Qed.

Lemma two_entries (new : list R) (a b : R) :
  length new = 2%nat -> nth 0 new 0 = a -> nth 1 new 0 = b -> new = [a; b].
Proof.
  destruct new as [|u [|v [|w new]]]; intros Hlen H0 H1; try discriminate.
  cbn in H0, H1. subst. reflexivity.
Qed.

Lemma sqrt_INR_1 : sqrt (INR 1) = 1.
Proof. change (INR 1) with 1. apply sqrt_1. Qed.



(** The spec's test vector for the vacuum: [apply_annihilation([c0, 0, ..., 0])]
    is the zero vector. *)
Lemma apply_annihilation_vacuum (c0 : C) (k : nat) :
  apply_annihilation (c0 :: np.czeros k) = Ok (np.zeros (Datatypes.S k)).
Proof.
  destruct (apply_annihilation_entries_complex (c0 :: np.czeros k))
    as (new & Hrun & Hlen & Hnth).
  rewrite Hrun. f_equal.
  apply (nth_ext _ _ 0 0).
  - rewrite Hlen. cbn [length]. unfold np.czeros. rewrite repeat_length.
    rewrite length_zeros. reflexivity.
  - intros j _. rewrite Hnth, nth_zeros.
    destruct (Nat.ltb_spec (j + 1) (length (c0 :: np.czeros k))); [|reflexivity].
    replace (j + 1)%nat with (Datatypes.S j) by lia.
    cbn [nth]. rewrite <- map_RtoC_zeros, nth_map_RtoC, nth_zeros.
    cbn [Re RtoC fst]. ring.
Qed.



(** C10.  On a vector of length at least 1, of real or complex
    coefficients, [apply_creation] returns a vector whose entry 0 is [0],
    and [apply_annihilation] one whose last entry is [0]. *)
Theorem ladder_boundary_slots (coeffs : list C) :
  (1 <= length coeffs)%nat ->
  (exists new_coeffs,
     apply_creation coeffs = Ok new_coeffs /\
     nth_error new_coeffs 0 = Some 0) /\
  (exists new_coeffs,
     apply_annihilation coeffs = Ok new_coeffs /\
     nth_error new_coeffs (length coeffs - 1) = Some 0).
Proof.
  intros Hlen. split.
  - destruct (apply_creation_entries_complex coeffs)
      as (new & Hrun & Hl & Hnth).
    exists new. split; [exact Hrun|].
    rewrite (nth_error_nth' new 0) by lia.
    rewrite Hnth. reflexivity.
  - destruct (apply_annihilation_entries_complex coeffs)
      as (new & Hrun & Hl & Hnth).
    exists new. split; [exact Hrun|].
    rewrite (nth_error_nth' new 0) by lia.
    rewrite Hnth.
    destruct (Nat.ltb_spec (length coeffs - 1 + 1) (length coeffs)); [lia|].
    reflexivity.
Qed.

Lemma ladder_boundary_slots_witness :
  (exists new_coeffs,
     apply_creation (map RtoC [1; 2; 3]) = Ok new_coeffs /\
     nth_error new_coeffs 0 = Some 0) /\
  (exists new_coeffs,
     apply_annihilation (map RtoC [1; 2; 3]) = Ok new_coeffs /\
     nth_error new_coeffs (length (map RtoC [1; 2; 3]) - 1) = Some 0).
Proof.
  apply (ladder_boundary_slots (map RtoC [1; 2; 3])). simpl. lia.
Defined.

(** *** Renormalisation *)

Lemma Rsum_sq_nonneg (coeffs : list R) :
  0 <= Rsum (map (fun c => Rabs c ^ 2) coeffs).
Proof.
  induction coeffs as [|c cs IH]; simpl; [lra|].
  pose proof (pow2_ge_0 (Rabs c)). simpl in *. lra.
Qed.

Lemma Rsum_sq_scaled (coeffs : list R) (s : R) :
  s <> 0 ->
  Rsum (map (fun c => Rabs c ^ 2) (map (fun c => c / s) coeffs)) =
  Rsum (map (fun c => Rabs c ^ 2) coeffs) / (s * s).
Proof.
  intros Hs. induction coeffs as [|c cs IH]; simpl.
  - field. assumption.
  - simpl in IH. rewrite IH.
    pose proof (pow2_abs (c / s)) as H1. pose proof (pow2_abs c) as H2.
    simpl in H1, H2. rewrite H1, H2. field. assumption.
Qed.

Lemma norm_zeros (n : nat) : norm (np.zeros n) = 0.
Proof.
  unfold norm, np.zeros.
  replace (Rsum (map (fun c => Rabs c ^ 2) (repeat 0 n))) with 0.
  - apply sqrt_0.
  - induction n as [|n IH]; simpl; [reflexivity|].
    simpl in IH. rewrite <- IH. rewrite Rabs_R0. ring.
Qed.

(** The norm the callbacks compute is the norm of the spec. *)
Lemma norm_is_l2_norm (coeffs : list R) : norm coeffs = l2_norm coeffs.
Proof. reflexivity. Qed.

(** C5.  With [norm = sqrt(sum |c_n|^2)]: when [norm > 1e-10] the
    renormalisation divides every coefficient by [norm] (a non-zero divisor)
    and [sqrt(sum |c_n|^2)] of the result is 1; otherwise the vector is
    returned unchanged.  The zero vector of any length is left unchanged,
    and so the callback maps a vacuum state to the zero vector. *)
Theorem renormalize_guarded (coeffs : list R) :
  (1e-10 < l2_norm coeffs ->
     l2_norm coeffs <> 0 /\
     renormalize coeffs = map (fun c => c / l2_norm coeffs) coeffs /\
     l2_norm (renormalize coeffs) = 1 /\
     Rsum (map (fun c => c * c) (renormalize coeffs)) = 1) /\
  (~ 1e-10 < l2_norm coeffs -> renormalize coeffs = coeffs) /\
  (forall n : nat, renormalize (np.zeros n) = np.zeros n) /\
  (forall k : nat,
     apply_annihilation_op (1 :: np.zeros k) = Ok (np.zeros (Datatypes.S k))).
Proof.
  assert (Hzero : forall n : nat, renormalize (np.zeros n) = np.zeros n).
  { intros n. unfold renormalize. rewrite norm_zeros.
    destruct (Rlt_dec 1e-10 0) as [H|H]; [lra | reflexivity]. }
  rewrite <- !norm_is_l2_norm.
  split; [|split; [|split]].
  - intros Hgt.
    assert (Hne : norm coeffs <> 0) by lra.
    split; [exact Hne|].
    assert (Hdiv : renormalize coeffs = map (fun c => c / norm coeffs) coeffs).
    { unfold renormalize.
      destruct (Rlt_dec 1e-10 (norm coeffs)); [reflexivity | contradiction]. }
    split; [exact Hdiv|].
    assert (Hsq : Rsum (map (fun c => Rabs c ^ 2) (renormalize coeffs)) = 1).
    { rewrite Hdiv, Rsum_sq_scaled by exact Hne.
      unfold norm. rewrite sqrt_sqrt by apply Rsum_sq_nonneg.
      field. intros H0. apply Hne. unfold norm. rewrite H0. apply sqrt_0. }
    split.
    + unfold l2_norm. rewrite Hsq. apply sqrt_1.
    + rewrite <- Hsq. unfold Rsum. f_equal. apply map_ext. intros c.
      rewrite pow2_abs. ring.
  - intros Hle. unfold renormalize.
    destruct (Rlt_dec 1e-10 (norm coeffs)); [contradiction | reflexivity].
  - exact Hzero.
  - intros k. unfold apply_annihilation_op.
    cbn [map]. rewrite map_RtoC_zeros, apply_annihilation_vacuum.
    cbn [bind]. rewrite Hzero. reflexivity.
Qed.

Lemma norm_3_4 : norm [3; 4] = 5.
Proof.
  unfold norm. cbn [map Rsum fold_right].
  assert (H3 : Rabs 3 = 3) by (apply Rabs_right; lra).
  assert (H4 : Rabs 4 = 4) by (apply Rabs_right; lra).
  rewrite H3, H4.
  replace (3 ^ 2 + (4 ^ 2 + 0)) with (5 * 5) by ring.
  apply sqrt_square. lra.
Qed.

Lemma renormalize_guarded_witness :
  l2_norm [3; 4] <> 0 /\
  renormalize [3; 4] = map (fun c => c / l2_norm [3; 4]) [3; 4] /\
  l2_norm (renormalize [3; 4]) = 1 /\
  Rsum (map (fun c => c * c) (renormalize [3; 4])) = 1.
Proof.
  apply (proj1 (renormalize_guarded [3; 4])).
  rewrite <- norm_is_l2_norm, norm_3_4. lra.
Defined.

End Ladder.

(** ** Complex arithmetic *)

Lemma Cplus_comm (z w : C) : Cplus z w = Cplus w z.
Proof. cx_ring. Qed.

Lemma Cplus_assoc (u v w : C) : Cplus u (Cplus v w) = Cplus (Cplus u v) w.
Proof. cx_ring. Qed.

Lemma Cplus_0_l (z : C) : Cplus C0 z = z.
Proof. cx_ring. Qed.

Lemma Cplus_0_r (z : C) : Cplus z C0 = z.
Proof. cx_ring. Qed.

Lemma Cmult_0_r (z : C) : Cmult z C0 = C0.
Proof. cx_ring. Qed.

Lemma Cmult_plus_distr_l (u v w : C) :
  Cmult u (Cplus v w) = Cplus (Cmult u v) (Cmult u w).
Proof. cx_ring. Qed.

Lemma Cmult_assoc (u v w : C) : Cmult u (Cmult v w) = Cmult (Cmult u v) w.
Proof. cx_ring. Qed.

Lemma Cmult_comm (z w : C) : Cmult z w = Cmult w z.
Proof. cx_ring. Qed.

Lemma Cdiv_2 (z : C) : Cdiv z (RtoC 2) = Cmult (RtoC (/ 2)) z.
Proof. destruct z. cx_unfold. f_equal; field. Qed.

Lemma Csum_map_plus {A : Type} (f g : A -> C) (l : list A) :
  Csum (map (fun a => Cplus (f a) (g a)) l) =
  Cplus (Csum (map f l)) (Csum (map g l)).
Proof.
  induction l as [|a l IH]; simpl.
  - symmetry. apply Cplus_0_l.
  - rewrite IH. generalize (Csum (map f l)) (Csum (map g l)) (f a) (g a).
    cx_ring.
Qed.

Lemma Csum_map_mult {A : Type} (k : C) (f : A -> C) (l : list A) :
  Csum (map (fun a => Cmult k (f a)) l) = Cmult k (Csum (map f l)).
Proof.
  induction l as [|a l IH]; simpl.
  - symmetry. apply Cmult_0_r.
  - rewrite IH. symmetry. apply Cmult_plus_distr_l.
Qed.

Lemma Csum_map_ext {A : Type} (f g : A -> C) (l : list A) :
  (forall a, In a l -> f a = g a) -> Csum (map f l) = Csum (map g l).
Proof.
  intros H. unfold Csum. f_equal. apply map_ext_in. exact H.
Qed.

(** Sums over two index ranges may be exchanged. *)
Lemma Csum_exchange {A B : Type} (f : A -> B -> C) (la : list A) (lb : list B) :
  Csum (map (fun a => Csum (map (fun b => f a b) lb)) la) =
  Csum (map (fun b => Csum (map (fun a => f a b) la)) lb).
Proof.
  induction la as [|a la IH]; simpl.
  - induction lb as [|b lb IHb]; simpl; [reflexivity|].
    rewrite <- IHb. symmetry. apply Cplus_0_l.
  - rewrite IH. symmetry. apply Csum_map_plus.
Qed.

Lemma Csum_RtoC (rs : list R) : Csum (map RtoC rs) = RtoC (Rsum rs).
Proof.
  induction rs as [|r rs IH]; simpl; [reflexivity|].
  rewrite IH. cx_unfold. f_equal; ring.
Qed.

(** ** Elementwise operations and [np.trapz] *)

Lemma length_add (a b : list C) :
  length a = length b -> length (np.add a b) = length a.
Proof.
  intros H. unfold np.add. rewrite length_map, length_combine. lia.
Qed.

Lemma nth_add (a b : list C) (j : nat) :
  length a = length b ->
  nth j (np.add a b) C0 = Cplus (nth j a C0) (nth j b C0).
Proof.
  revert b j. induction a as [|u a IH]; intros [|v b] [|j] H; simpl in *;
    try discriminate; try reflexivity;
    try (symmetry; apply Cplus_0_l).
  apply IH. lia.
Qed.

Lemma length_multiply (a b : list C) :
  length a = length b -> length (np.multiply a b) = length a.
Proof.
  intros H. unfold np.multiply. rewrite length_map, length_combine. lia.
Qed.

Lemma nth_multiply (a b : list C) (j : nat) :
  length a = length b ->
  nth j (np.multiply a b) C0 = Cmult (nth j a C0) (nth j b C0).
Proof.
  revert b j. induction a as [|u a IH]; intros [|v b] [|j] H; simpl in *;
    try discriminate; try reflexivity;
    try (symmetry; apply Cmult_0_r).
  apply IH. lia.
Qed.

Lemma nth_map_in_range {A B : Type} (f : A -> B) (l : list A) (j : nat)
  (da : A) (db : B) :
  (j < length l)%nat -> nth j (map f l) db = f (nth j l da).
Proof.
  intros Hj. rewrite (nth_indep _ db (f da)) by (rewrite length_map; exact Hj).
  apply map_nth.
Qed.

(** [np.trapz] goes through the grid one interval at a time. *)
Lemma trapz_cons (y0 y1 : C) (y : list C) (x0 x1 : R) (x : list R) :
  np.trapz (y0 :: y1 :: y) (x0 :: x1 :: x) =
  Cplus (Cdiv (Cmult (RtoC (x1 - x0)) (Cplus y1 y0)) (RtoC 2))
        (np.trapz (y1 :: y) (x1 :: x)).
Proof. reflexivity. Qed.

Lemma trapz_index (y : list C) (x : list R) :
  length y = length x ->
  np.trapz y x =
  Csum (map (fun j => Cdiv (Cmult (RtoC (nth (S j) x 0 - nth j x 0))
                              (Cplus (nth (S j) y C0) (nth j y C0)))
                        (RtoC 2))
          (seq 0 (length x - 1))).
Proof.
  revert y. induction x as [|x0 x IH]; intros [|y0 y] H; try discriminate.
  - reflexivity.
  - destruct x as [|x1 x], y as [|y1 y]; try discriminate.
    + reflexivity.
    + rewrite trapz_cons. rewrite IH by (simpl in *; lia).
      replace (length (x0 :: x1 :: x) - 1)%nat
        with (S (length (x1 :: x) - 1)) by (simpl; lia).
      rewrite <- cons_seq, <- seq_shift. rewrite map_cons, map_map.
      reflexivity.
Qed.

Lemma trapz_of_real_samples (xs : list R) (f : R -> R) :
  np.trapz (map (fun xj => RtoC (f xj)) xs) xs = RtoC (quadrature xs f).
Proof.
  rewrite trapz_index by apply length_map.
  unfold quadrature. rewrite <- Csum_RtoC, map_map.
  apply Csum_map_ext. intros j Hj. apply in_seq in Hj.
  rewrite !(nth_map_in_range _ _ _ 0) by lia.
  cx_unfold. f_equal; field.
Qed.

Lemma multiply_real_samples (f g : R -> R) (xs : list R) :
  np.multiply (map (fun xj => RtoC (f xj)) xs) (map (fun xj => RtoC (g xj)) xs) =
  map (fun xj => RtoC (f xj * g xj)) xs.
Proof.
  unfold np.multiply. induction xs as [|xj xs IH]; [reflexivity|].
  cbn [map combine fst snd]. rewrite <- IH. f_equal.
  cx_unfold. f_equal; ring.
Qed.

(** The overlap entry the code computes with [np.trapz] is the trapezoidal
    rule applied to the overlap integrand. *)
Lemma overlap_entry_quadrature (pib : ParticleInBox.t) (m n : nat) :
  ParticleInBox.overlap_entry pib m n =
  RtoC (quadrature (ParticleInBox.x pib) (overlap pib m n)).
Proof.
  unfold ParticleInBox.overlap_entry.
  rewrite multiply_real_samples. apply trapz_of_real_samples.
Qed.

(** ** The basis transforms *)

Section Transforms.

Import ParticleInBox.

Variable self : ParticleInBox.t.

(** The loop of [energy_to_position], from any accumulator aligned with
    the grid. *)
Lemma energy_to_position_loop (coefficients : list C) (ns : list nat)
  (acc : list C) :
  length acc = length (x self) ->
  let psi_x :=
    fold_left
      (fun psi_x n =>
         np.add psi_x
           (map (fun xj => Cmult (nth n coefficients C0)
                             (RtoC (position_wavefunction self n xj)))
              (x self)))
      ns acc in
  length psi_x = length (x self) /\
  forall j, (j < length (x self))%nat ->
    nth j psi_x C0 =
    Cplus (nth j acc C0)
      (Csum (map (fun n => Cmult (nth n coefficients C0)
                             (RtoC (position_wavefunction self n (nth j (x self) 0))))
               ns)).
Proof.
  revert acc. induction ns as [|n ns IH]; intros acc Hacc; simpl.
  - split; [exact Hacc|]. intros j _. symmetry. apply Cplus_0_r.
  - destruct (IH (np.add acc
                    (map (fun xj => Cmult (nth n coefficients C0)
                                      (RtoC (position_wavefunction self n xj)))
                       (x self)))) as [Hlen Hnth].
    + rewrite length_add; rewrite ?length_map; congruence.
    + split; [exact Hlen|]. intros j Hj.
      rewrite (Hnth j Hj).
      rewrite nth_add by (rewrite length_map; exact Hacc).
      rewrite (nth_map_in_range _ _ _ 0) by exact Hj.
      symmetry. apply Cplus_assoc.
Qed.

Lemma length_energy_to_position (coefficients : list C) :
  length (energy_to_position self coefficients) = length (x self).
Proof.
  unfold energy_to_position.
  apply energy_to_position_loop.
  unfold np.czeros_like, np.czeros. apply repeat_length.
Qed.

Lemma nth_czeros (n j : nat) : nth j (np.czeros n) C0 = C0.
Proof.
  unfold np.czeros. destruct (Nat.lt_ge_cases j n) as [Hj|Hj].
  - apply nth_repeat_lt; assumption.
  - apply nth_overflow. rewrite repeat_length. assumption.
Qed.

(** The sample of [energy_to_position] at grid index [j]. *)
Lemma nth_energy_to_position (coefficients : list C) (j : nat) :
  (j < length (x self))%nat ->
  nth j (energy_to_position self coefficients) C0 =
  Csum (map (fun n => Cmult (nth n coefficients C0)
                        (RtoC (position_wavefunction self n (nth j (x self) 0))))
          (seq 0 (length coefficients))).
Proof.
  intros Hj. unfold energy_to_position.
  destruct (energy_to_position_loop coefficients (seq 0 (length coefficients))
              (np.czeros_like (x self))) as [_ Hnth].
  - unfold np.czeros_like, np.czeros. apply repeat_length.
  - rewrite (Hnth j Hj). unfold np.czeros_like.
    rewrite nth_czeros. apply Cplus_0_l.
Qed.

(** The loop of [position_to_energy] fills the coefficient array from the
    left. *)
Lemma fold_update_seq {A : Type} (f : nat -> A) (k : nat) (init : list A) :
  (k <= length init)%nat ->
  fold_left (fun a n => update a n (f n)) (seq 0 k) init =
  map f (seq 0 k) ++ skipn k init.
Proof.
  induction k as [|k IH]; intros Hk.
  - reflexivity.
  - rewrite seq_S, fold_left_app, map_app. cbn [fold_left map Nat.add].
    rewrite IH by lia.
    assert (Hlen : length (map f (seq 0 k)) = k)
      by (rewrite length_map, length_seq; reflexivity).
    destruct (skipn k init) as [|u rest] eqn:Hskip.
    + apply (f_equal (@length A)) in Hskip.
      rewrite length_skipn in Hskip. simpl in Hskip. lia.
    + assert (Hrest : skipn (S k) init = rest).
      { replace (S k) with (1 + k)%nat by lia.
        rewrite <- skipn_skipn, Hskip. reflexivity. }
      rewrite Hrest. rewrite <- app_assoc. cbn [app].
      rewrite <- Hlen at 2. apply update_app_length.
Qed.

Lemma position_to_energy_map (psi_x : list C) :
  position_to_energy self psi_x =
  map (fun n =>
         np.trapz
           (np.multiply
              (map (fun xj => RtoC (position_wavefunction self n xj)) (x self))
              psi_x)
           (x self))
    (seq 0 (n_max self)).
Proof.
  unfold position_to_energy.
  rewrite (fold_update_seq
    (fun n => np.trapz
       (np.multiply
          (map (fun xj => RtoC (position_wavefunction self n xj)) (x self))
          psi_x) (x self))).
  - rewrite skipn_all2; [apply app_nil_r|].
    unfold np.czeros. rewrite repeat_length. lia.
  - unfold np.czeros. rewrite repeat_length. lia.
Qed.

(** One sample of the integrand of [position_to_energy] after
    [energy_to_position]. *)
Lemma round_trip_integrand (c : list C) (m j : nat) :
  (j < length (x self))%nat ->
  nth j (np.multiply
           (map (fun xj => RtoC (position_wavefunction self m xj)) (x self))
           (energy_to_position self c)) C0 =
  Csum (map (fun n => Cmult (nth n c C0)
                        (RtoC (overlap self m n (nth j (x self) 0))))
          (seq 0 (length c))).
Proof.
  intros Hj.
  rewrite nth_multiply
    by (rewrite length_map, length_energy_to_position; reflexivity).
  rewrite (nth_map_in_range _ _ _ 0) by exact Hj.
  rewrite nth_energy_to_position by exact Hj.
  rewrite <- Csum_map_mult.
  apply Csum_map_ext. intros n _.
  unfold overlap. generalize (nth n c C0). intros z. destruct z.
  cx_unfold. f_equal; ring.
Qed.

(** The round trip, coefficient by coefficient: the recovered coefficient
    [m] is the combination of the input coefficients weighted by the
    trapezoidal overlaps of eigenfunction [m] with the eigenfunctions. *)
Lemma round_trip_nth (c : list C) (m : nat) :
  (m < n_max self)%nat ->
  nth m (position_to_energy self (energy_to_position self c)) C0 =
  Csum (map (fun n => Cmult (nth n c C0)
                        (RtoC (quadrature (x self) (overlap self m n))))
          (seq 0 (length c))).
Proof.
  intros Hm. rewrite position_to_energy_map.
  rewrite (nth_map_in_range _ _ _ 0%nat) by (rewrite length_seq; exact Hm).
  rewrite seq_nth by exact Hm. cbn [Nat.add].
  rewrite trapz_index
    by (rewrite length_multiply;
        rewrite length_map; rewrite ?length_energy_to_position; reflexivity).
  transitivity
    (Csum (map (fun j =>
       Csum (map (fun n => Cmult (nth n c C0)
          (RtoC ((nth (S j) (x self) 0 - nth j (x self) 0)
                 * (overlap self m n (nth (S j) (x self) 0)
                    + overlap self m n (nth j (x self) 0)) / 2)))
          (seq 0 (length c))))
       (seq 0 (length (x self) - 1)))).
  - apply Csum_map_ext. intros j Hj. apply in_seq in Hj.
    rewrite !round_trip_integrand by lia.
    rewrite <- Csum_map_plus, Cdiv_2, <- !Csum_map_mult.
    apply Csum_map_ext. intros n _.
    generalize (nth n c C0). intros z. destruct z.
    cx_unfold. f_equal; field.
  - rewrite Csum_exchange.
    apply Csum_map_ext. intros n _.
    rewrite Csum_map_mult. f_equal.
    unfold quadrature. rewrite <- Csum_RtoC, map_map. reflexivity.
Qed.

End Transforms.

Lemma Csum_app (l1 l2 : list C) :
  Csum (l1 ++ l2) = Cplus (Csum l1) (Csum l2).
Proof.
  induction l1 as [|z l1 IH]; simpl.
  - symmetry. apply Cplus_0_l.
  - rewrite IH. apply Cplus_assoc.
Qed.

Section TransformClaims.

Import ParticleInBox.

(** C2.  [energy_to_position] returns, at every grid point [x_j], the sum
    over [n] of [c[n] * sqrt(2/L) * sin((n+1) * pi * x_j / L)]; it is a
    function of its arguments, and it is linear in the coefficient vector. *)
Theorem energy_to_position_correct (self : ParticleInBox.t) (c : list C) :
  length (energy_to_position self c) = length (x self) /\
  (forall j, (j < length (x self))%nat ->
     nth j (energy_to_position self c) C0 =
     Csum (map (fun n =>
                  Cmult (nth n c C0)
                    (RtoC (sqrt (2 / L self)
                           * sin (INR (n + 1) * PI * nth j (x self) 0 / L self))))
             (seq 0 (length c)))) /\
  (forall (a b : C) (d : list C),
     length d = length c ->
     energy_to_position self (np.add (map (Cmult a) c) (map (Cmult b) d)) =
     np.add (map (Cmult a) (energy_to_position self c))
            (map (Cmult b) (energy_to_position self d))).
Proof.
  split; [apply length_energy_to_position|]. split.
  - intros j Hj. rewrite nth_energy_to_position by exact Hj. reflexivity.
  - intros a b d Hd.
    apply (nth_ext _ _ C0 C0).
    + rewrite length_energy_to_position, length_add;
        rewrite !length_map, ?length_energy_to_position; reflexivity.
    + rewrite length_energy_to_position. intros j Hj.
      rewrite nth_energy_to_position by exact Hj.
      rewrite nth_add
        by (rewrite !length_map, !length_energy_to_position; reflexivity).
      rewrite !(nth_map_in_range _ _ _ C0)
        by (rewrite length_energy_to_position; exact Hj).
      rewrite !nth_energy_to_position by exact Hj.
      rewrite length_add by (rewrite !length_map; congruence).
      rewrite length_map, Hd.
      rewrite <- !Csum_map_mult, <- Csum_map_plus.
      apply Csum_map_ext. intros n Hn. apply in_seq in Hn.
      rewrite nth_add by (rewrite !length_map; congruence).
      rewrite !(nth_map_in_range _ _ _ C0) by lia.
      generalize (nth n c C0) (nth n d C0)
        (position_wavefunction self n (nth j (x self) 0)).
      intros u v r. destruct a, b, u, v. cx_unfold. f_equal; ring.
Qed.

(** C6, as stated, fails: with [n_max = 1] and the coefficient vector
    [[0, 1]], the coefficient at index 1 is not dropped. *)
Lemma energy_to_position_truncation_counterexample :
  exists self,
    __init__ 1 1 5 = Ok self /\
    energy_to_position self [C0; RtoC 1] <>
    energy_to_position self (firstn (n_max self) [C0; RtoC 1]).
Proof.
  eexists. split; [reflexivity|].
  intros H. apply (f_equal (fun l => Re (nth 1 l C0))) in H.
  rewrite !nth_energy_to_position in H by (simpl; lia).
  cbn [n_max firstn length seq map Csum fold_right nth x] in H.
  unfold position_wavefunction in H. cbn [L] in H.
  change (Z.to_nat 5) with 5%nat in H.
  cbn [seq map nth] in H.
  replace (INR (1 + 1) * PI * (INR 1 * ((1 - 0) / (5 - 1)) + 0) / 1)
    with (PI / 2) in H by (simpl; field).
  rewrite sin_PI2 in H.
  cx_unfold.
  assert (Hs : 0 < sqrt (2 / 1)) by (apply sqrt_lt_R0; lra).
  lra.
Qed.

(** C6, amended.  [energy_to_position] does not look at [n_max]: its result
    is the same whatever [n_max] the engine was configured with, and every
    coefficient of the vector, whatever its index, adds its own term to the
    sampled wavefunction.  No coefficient is dropped and nothing is raised. *)
Theorem energy_to_position_ignores_n_max (self : ParticleInBox.t) (c : list C) :
  (forall n_max' : nat,
     energy_to_position (mk (L self) n_max' (x self) (dx self)) c =
     energy_to_position self c) /\
  (forall z : C,
     energy_to_position self (c ++ [z]) =
     np.add (energy_to_position self c)
       (map (fun xj => Cmult z (RtoC (position_wavefunction self (length c) xj)))
          (x self))).
Proof.
  split; [reflexivity|].
  intros z. apply (nth_ext _ _ C0 C0).
  - rewrite length_add; rewrite !length_energy_to_position, ?length_map;
      reflexivity.
  - rewrite length_energy_to_position. intros j Hj.
    rewrite nth_add by (rewrite length_energy_to_position, length_map; reflexivity).
    rewrite !nth_energy_to_position by exact Hj.
    rewrite (nth_map_in_range _ _ _ 0) by exact Hj.
    rewrite length_app. cbn [length].
    rewrite seq_app, map_app, Csum_app. cbn [Nat.add seq map Csum fold_right].
    rewrite Cplus_0_r. rewrite nth_middle. f_equal.
    apply Csum_map_ext. intros n Hn. apply in_seq in Hn.
    rewrite app_nth1 by lia. reflexivity.
Qed.

End TransformClaims.

(** ** The two-level system *)

Section TwoLevelScript.

Import TwoLevel.

Lemma c0_sq : c0 * c0 = 1 / 2.
Proof. unfold c0, c0_squared. apply sqrt_sqrt. lra. Qed.

Lemma c1_sq : c1 * c1 = 1 / 2.
Proof.
  assert (Habs : Rabs (-1) = 1) by (rewrite Rabs_left; lra).
  unfold c1, c1_squared, alpha. rewrite Habs, sqrt_sqrt; lra.
Qed.

(** The position operator the script builds. *)
Lemma X_energy_entries (x0 x1 : R) :
  X_energy x0 x1 =
  [[RtoC ((x0 + x1) / 2); RtoC ((x0 - x1) / 2)];
   [RtoC ((x0 - x1) / 2); RtoC ((x0 + x1) / 2)]].
Proof.
  unfold X_energy. mat_compute.
  generalize c0_sq c1_sq. unfold alpha. generalize c0 c1.
  intros k0 k1 Hk0 Hk1. cx_unfold.
  assert (H0 : x0 * (k0 * k0) = x0 * (1 / 2)) by (rewrite Hk0; reflexivity).
  assert (H1 : x1 * (k1 * k1) = x1 * (1 / 2)) by (rewrite Hk1; reflexivity).
  mat_eq; try ring; nra.
Qed.

Lemma X_squared_entries (x0 x1 : R) :
  X_squared x0 x1 =
  [[RtoC ((x0 * x0 + x1 * x1) / 2); RtoC ((x0 * x0 - x1 * x1) / 2)];
   [RtoC ((x0 * x0 - x1 * x1) / 2); RtoC ((x0 * x0 + x1 * x1) / 2)]].
Proof.
  unfold X_squared. rewrite X_energy_entries. mat_compute. cx_unfold.
  mat_eq; field.
Qed.

(** The matrix the script exponentiates is diagonal, with the phases
    [-i E_k t / hbar] on its diagonal. *)
Lemma phase_entry (E t : R) :
  Cdiv (Cmult (Cmult (Copp Ci) (RtoC E)) (RtoC t)) (RtoC hbar) =
  (0, - (E * t)).
Proof. unfold hbar. cx_unfold. f_equal; field. Qed.

Lemma expm_argument_diagonal (E0 E1 t : R) :
  divide (times (scale (Copp Ci) (H_energy E0 E1)) (RtoC t)) (RtoC hbar) =
  [[(0, - (E0 * t)); C0]; [C0; (0, - (E1 * t))]].
Proof.
  mat_compute. rewrite !phase_entry. unfold C0, RtoC.
  mat_eq; try reflexivity; ring.
Qed.

Lemma U_t_entries (E0 E1 t : R) :
  U_t E0 E1 t =
  [[(cos (E0 * t), - sin (E0 * t)); C0];
   [C0; (cos (E1 * t), - sin (E1 * t))]].
Proof.
  unfold U_t. rewrite expm_argument_diagonal.
  unfold expm, entry, Cexp. cbn [nth Re Im fst snd].
  rewrite exp_0, !cos_neg, !sin_neg. unfold C0, RtoC.
  mat_eq; try reflexivity; ring.
Qed.

Lemma psi_t_entries (E0 E1 t : R) :
  psi_t E0 E1 t =
  [[(c0 * cos (E0 * t), - (c0 * sin (E0 * t)))];
   [(c0 * cos (E1 * t), - (c0 * sin (E1 * t)))]].
Proof.
  unfold psi_t. rewrite U_t_entries. mat_compute. cx_unfold.
  mat_eq; ring.
Qed.

(** The expectation value of a real symmetric matrix [[a, b], [b, a]] in
    the evolved state. *)
Lemma expectation_in_psi_t (E0 E1 t a b : R) :
  Re (entry
        (matmul
           (matmul (conjT (psi_t E0 E1 t))
              [[RtoC a; RtoC b]; [RtoC b; RtoC a]])
           (psi_t E0 E1 t)) 0 0) =
  a + b * cos (omega E0 E1 * t).
Proof.
  rewrite psi_t_entries. mat_compute. cx_unfold.
  replace (omega E0 E1 * t) with (E0 * t - E1 * t)
    by (unfold omega, hbar; field).
  rewrite cos_minus.
  pose proof (sin2_cos2 (E0 * t)) as H0.
  pose proof (sin2_cos2 (E1 * t)) as H1.
  unfold Rsqr in H0, H1.
  revert H0 H1. generalize c0_sq.
  generalize (cos (E0 * t)) (sin (E0 * t)) (cos (E1 * t)) (sin (E1 * t)) c0.
  intros u0 v0 u1 v1 k Hk H0 H1.
  transitivity
    (a * ((k * k) * (v0 * v0 + u0 * u0) + (k * k) * (v1 * v1 + u1 * u1))
     + b * (2 * (k * k) * (u0 * u1 + v0 * v1))).
  - ring.
  - rewrite Hk, H0, H1. field.
Qed.

Lemma X_expectation_closed_form (E0 E1 x0 x1 t : R) :
  X_expectation_at E0 E1 x0 x1 t =
  (x0 + x1) / 2 + (x0 - x1) / 2 * cos (omega E0 E1 * t).
Proof.
  unfold X_expectation_at. rewrite X_energy_entries.
  apply expectation_in_psi_t.
Qed.

Lemma X_squared_expectation_closed_form (E0 E1 x0 x1 t : R) :
  X_squared_expectation_at E0 E1 x0 x1 t =
  (x0 * x0 + x1 * x1) / 2 + (x0 * x0 - x1 * x1) / 2 * cos (omega E0 E1 * t).
Proof.
  unfold X_squared_expectation_at. rewrite X_squared_entries.
  apply expectation_in_psi_t.
Qed.

Lemma Cmod_nonneg (z : C) : 0 <= Cmod z.
Proof. apply sqrt_pos. Qed.

Lemma Cmod_RtoC (r : R) : Cmod (RtoC r) = Rabs r.
Proof.
  unfold Cmod, RtoC, Re, Im. simpl.
  replace (r * r + 0 * 0) with (Rsqr r) by (unfold Rsqr; ring).
  apply sqrt_Rsqr_abs.
Qed.


(** [eigvalsh] lists the roots of the characteristic polynomial of a real
    symmetric 2x2 matrix. *)
Lemma eigvalsh_characteristic (a b d lam : R) :
  (a - lam) * (d - lam) - b * b = 0 <->
  In lam (eigvalsh [[RtoC a; RtoC b]; [RtoC b; RtoC d]]).
Proof.
  unfold eigvalsh, entry. cbn [nth Re fst RtoC].
  rewrite Cmod_RtoC. rewrite pow2_abs.
  set (rad := sqrt (((a - d) / 2) ^ 2 + b ^ 2)).
  assert (Hrad : rad * rad = ((a - d) / 2) ^ 2 + b ^ 2).
  { apply sqrt_sqrt. pose proof (pow2_ge_0 ((a - d) / 2)).
    pose proof (pow2_ge_0 b). lra. }
  assert (Hfact : (a - lam) * (d - lam) - b * b =
                  (lam - ((a + d) / 2 - rad)) * (lam - ((a + d) / 2 + rad))).
  { transitivity ((lam - (a + d) / 2) * (lam - (a + d) / 2) - rad * rad).
    - rewrite Hrad. field.
    - ring. }
  rewrite Hfact. split.
  - intros H. apply Rmult_integral in H. destruct H as [H|H].
    + left. lra.
    + right. left. lra.
  - intros [H|[H|[]]]; rewrite <- H; ring.
Qed.


Lemma variance_closed_form (E0 E1 x0 x1 t : R) :
  X_squared_expectation_at E0 E1 x0 x1 t - X_expectation_at E0 E1 x0 x1 t ^ 2 =
  ((x0 - x1) / 2 * sin (omega E0 E1 * t)) ^ 2.
Proof.
  rewrite X_squared_expectation_closed_form, X_expectation_closed_form.
  pose proof (sin2_cos2 (omega E0 E1 * t)) as H. unfold Rsqr in H.
  revert H. generalize (cos (omega E0 E1 * t)) (sin (omega E0 E1 * t)).
  intros u v H.
  transitivity (((x0 - x1) / 2) ^ 2 * (v * v + u * u - u * u)).
  - rewrite H. field.
  - field.
Qed.

(** X3.  The numerical curves [<X>(t)] and [<X^2>(t)] coincide with the
    closed forms the script plots beside them, and the propagation starts
    from the position eigenvalue: [<X>(0) = x0]. *)
Theorem expectation_matches_analytical (E0 E1 x0 x1 t : R) :
  X_expectation_at E0 E1 x0 x1 t = X_analytical_at E0 E1 x0 x1 t /\
  X_squared_expectation_at E0 E1 x0 x1 t = X2_analytical_at E0 E1 x0 x1 t /\
  X_expectation_at E0 E1 x0 x1 0 = x0.
Proof.
  assert (Hc : c0 ^ 2 = 1 / 2) by (simpl; rewrite Rmult_1_r; apply c0_sq).
  split; [|split].
  - rewrite X_expectation_closed_form. unfold X_analytical_at.
    rewrite Hc. field.
  - rewrite X_squared_expectation_closed_form. unfold X2_analytical_at.
    rewrite Hc. field.
  - rewrite X_expectation_closed_form, Rmult_0_r, cos_0. field.
Qed.

End TwoLevelScript.

(** ** Construction of the engine *)

Section Construction.

Import ParticleInBox.

(** With at least two points the constructor returns an engine whose grid
    is the uniform grid of [n_points] samples over [[0, L]]. *)
Lemma init_returns (L : R) (n_max : nat) (n_points : Z) :
  (2 <= n_points)%Z ->
  exists self,
    __init__ L n_max n_points = Ok self /\
    ParticleInBox.L self = L /\
    ParticleInBox.n_max self = n_max /\
    x self = map (fun j => INR j * (L / (IZR n_points - 1)))
               (seq 0 (Z.to_nat n_points)).
Proof.
  intros Hn. unfold __init__, np.linspace.
  destruct (Z.ltb_spec n_points 0) as [Hneg|_]; [lia|].
  destruct (Z.to_nat n_points) as [|[|k]] eqn:Hk; try lia.
  cbn [seq map bind getitem nth_error].
  eexists. split; [reflexivity|]. cbn [ParticleInBox.L ParticleInBox.n_max x].
  split; [reflexivity|]. split; [reflexivity|].
  rewrite <- !seq_shift, !map_map.
  replace (L - 0) with L by ring.
  repeat (apply (f_equal2 cons); [ring|]).
  apply map_ext. intros j. ring.
Qed.

(** C7, as stated, fails: a grid of one point makes the constructor raise
    [IndexError] (from reading [self.x[1]]), not an [InvalidGridError]. *)
Lemma init_one_point_counterexample :
  __init__ 1 10 1 = Raise "IndexError" /\
  __init__ 1 10 1 <> Raise "InvalidGridError".
Proof.
  assert (H : __init__ 1 10 1 = Raise "IndexError") by reflexivity.
  split; [exact H|]. rewrite H. discriminate.
Qed.

(** C7, amended.  Constructing the engine with fewer than 2 grid points
    fails at once, and no engine is returned: with [IndexError] for 0 or 1
    points, with [ValueError] for a negative number of points. *)
Theorem init_rejects_small_grid (L : R) (n_max : nat) (n_points : Z) :
  (n_points < 2)%Z ->
  __init__ L n_max n_points =
  Raise (if (n_points <? 0)%Z then "ValueError" else "IndexError").
Proof.
  intros Hn. unfold __init__, np.linspace.
  destruct (Z.ltb_spec n_points 0) as [Hneg|Hpos]; [reflexivity|].
  assert (Hcases : n_points = 0%Z \/ n_points = 1%Z) by lia.
  destruct Hcases as [-> | ->]; reflexivity.
Qed.

Lemma init_rejects_small_grid_witness :
  __init__ 1 10 1 = Raise "IndexError".
Proof.
  apply (init_rejects_small_grid 1 10 1). lia.
Defined.

End Construction.

(** ** The overlap integrals of the analytic basis *)

Section OverlapIntegrals.

Import ParticleInBox.

(** The fundamental theorem of calculus, for an integrand given with an
    antiderivative. *)
Lemma RiemannInt_antiderivative (f F : R -> R) (a b : R)
  (pr : Riemann_integrable f a b) :
  (forall x, derivable_pt_lim F x (f x)) ->
  continuity f ->
  RiemannInt pr = F b - F a.
Proof.
  intros HF Hf.
  set (dF := fun x => exist (fun l => derivable_pt_lim F x l) (f x) (HF x)).
  exact (FTC_Riemann (mkC1 (c1 := F) (diff0 := dF) Hf) pr).
Qed.

Lemma derivable_pt_lim_sin_scaled (a x : R) :
  derivable_pt_lim (fun y => sin (a * y)) x (a * cos (a * x)).
Proof.
  replace (a * cos (a * x)) with (cos (a * x) * (a * 1)) by ring.
  apply (derivable_pt_lim_comp (mult_real_fct a id) sin).
  - apply derivable_pt_lim_scal. apply derivable_pt_lim_id.
  - apply derivable_pt_lim_sin.
Qed.

Lemma derivable_pt_lim_cos_primitive (a x : R) :
  derivable_pt_lim (cos_primitive a) x (cos (a * x)).
Proof.
  unfold cos_primitive. destruct (Req_EM_T a 0) as [->|Ha].
  - rewrite Rmult_0_l, cos_0. apply derivable_pt_lim_id.
  - replace (cos (a * x)) with (/ a * (a * cos (a * x))) by (field; exact Ha).
    apply (derivable_pt_lim_ext (fun y => / a * sin (a * y))).
    + intros z. field. exact Ha.
    + apply (derivable_pt_lim_scal (fun y => sin (a * y))).
      apply derivable_pt_lim_sin_scaled.
Qed.

Lemma cos_primitive_0 (a : R) : cos_primitive a 0 = 0.
Proof.
  unfold cos_primitive. destruct (Req_EM_T a 0); [reflexivity|].
  rewrite Rmult_0_r, sin_0. field. assumption.
Qed.

Lemma sin_nat_PI (k : Z) : sin (IZR k * PI) = 0.
Proof. apply sin_eq_0_1. exists k. reflexivity. Qed.

Section Overlap.

Variable self : ParticleInBox.t.
Hypothesis L_pos : 0 < L self.

Lemma cos_primitive_freq_L (k : Z) :
  cos_primitive (mode_frequency (L self) k) (L self) = if (k =? 0)%Z then L self else 0.
Proof.
  unfold cos_primitive, mode_frequency.
  destruct (Z.eqb_spec k 0) as [->|Hk].
  - destruct (Req_EM_T (0 * PI / L self) 0) as [_|H]; [reflexivity|].
    exfalso. apply H. unfold Rdiv. ring.
  - assert (Hne : IZR k * PI / L self <> 0).
    { pose proof PI_RGT_0. apply not_0_IZR in Hk.
      unfold Rdiv. apply Rmult_integral_contrapositive_currified.
      - apply Rmult_integral_contrapositive_currified; lra.
      - apply Rinv_neq_0_compat. lra. }
    destruct (Req_EM_T (IZR k * PI / L self) 0) as [H|_]; [contradiction|].
    replace (IZR k * PI / L self * L self) with (IZR k * PI) by (field; lra).
    rewrite sin_nat_PI. unfold Rdiv. ring.
Qed.

Lemma overlap_product_to_sum (m n : nat) (x : R) :
  overlap self m n x =
  / L self * (cos (mode_frequency (L self) (Z.of_nat (m + 1) - Z.of_nat (n + 1)) * x)
              - cos (mode_frequency (L self) (Z.of_nat (m + 1) + Z.of_nat (n + 1)) * x)).
Proof.
  unfold overlap, position_wavefunction, mode_frequency.
  rewrite minus_IZR, plus_IZR, <- !INR_IZR_INZ.
  set (u := INR (m + 1) * PI * x / L self).
  set (v := INR (n + 1) * PI * x / L self).
  replace ((INR (m + 1) - INR (n + 1)) * PI / L self * x) with (u - v)
    by (unfold u, v; field; lra).
  replace ((INR (m + 1) + INR (n + 1)) * PI / L self * x) with (u + v)
    by (unfold u, v; field; lra).
  rewrite cos_minus, cos_plus.
  assert (Hs : sqrt (2 / L self) * sqrt (2 / L self) = 2 / L self).
  { apply sqrt_sqrt. apply Rlt_le. apply Rdiv_lt_0_compat; lra. }
  transitivity (sqrt (2 / L self) * sqrt (2 / L self) * (sin u * sin v)).
  - ring.
  - rewrite Hs. field. lra.
Qed.

Lemma overlap_continuous (m n : nat) : continuity (overlap self m n).
Proof. unfold overlap, position_wavefunction. reg. Qed.

Lemma overlap_integral (m n : nat)
  (pr : Riemann_integrable (overlap self m n) 0 (L self)) :
  RiemannInt pr = delta m n.
Proof.
  set (a := mode_frequency (L self) (Z.of_nat (m + 1) - Z.of_nat (n + 1))).
  set (b := mode_frequency (L self) (Z.of_nat (m + 1) + Z.of_nat (n + 1))).
  rewrite (RiemannInt_antiderivative (overlap self m n)
             (fun x => / L self * (cos_primitive a x - cos_primitive b x))).
  - rewrite !cos_primitive_0. unfold a, b. rewrite !cos_primitive_freq_L.
    unfold delta.
    destruct (Z.eqb_spec (Z.of_nat (m + 1) + Z.of_nat (n + 1)) 0); [lia|].
    destruct (Z.eqb_spec (Z.of_nat (m + 1) - Z.of_nat (n + 1)) 0),
      (Nat.eqb_spec m n); try lia; field; lra.
  - intros x. rewrite overlap_product_to_sum. fold a b.
    apply (derivable_pt_lim_scal
             (fun y => cos_primitive a y - cos_primitive b y)).
    apply (derivable_pt_lim_minus (cos_primitive a) (cos_primitive b));
      apply derivable_pt_lim_cos_primitive.
  - apply overlap_continuous.
Qed.

End Overlap.

End OverlapIntegrals.

(** ** The round trip *)

Lemma Cmod_triangle (z w : C) : Cmod (Cplus z w) <= Cmod z + Cmod w.
Proof.
  destruct z as [a b], w as [c d]. unfold Cmod. cx_unfold.
  pose proof (sqrt_cauchy a b c d) as Hcs. unfold Rsqr in Hcs.
  set (nz := sqrt (a * a + b * b)) in *.
  set (nw := sqrt (c * c + d * d)) in *.
  assert (Hz : nz * nz = a * a + b * b) by (apply sqrt_sqrt; nra).
  assert (Hw : nw * nw = c * c + d * d) by (apply sqrt_sqrt; nra).
  assert (Hnz : 0 <= nz) by apply sqrt_pos.
  assert (Hnw : 0 <= nw) by apply sqrt_pos.
  apply Rsqr_incr_0_var; [|lra].
  rewrite Rsqr_sqrt.
  - unfold Rsqr.
    replace ((a + c) * (a + c) + (b + d) * (b + d))
      with (nz * nz + nw * nw + 2 * (a * c + b * d)) by (rewrite Hz, Hw; ring).
    replace ((nz + nw) * (nz + nw)) with (nz * nz + nw * nw + 2 * (nz * nw)) by ring.
    lra.
  - pose proof (Rle_0_sqr (a + c)). pose proof (Rle_0_sqr (b + d)).
    unfold Rsqr in *. lra.
Qed.

Lemma Cmod_C0 : Cmod C0 = 0.
Proof.
  unfold Cmod. cx_unfold. replace (0 * 0 + 0 * 0) with 0 by ring. apply sqrt_0.
Qed.

Lemma Cmod_Csum (zs : list C) : Cmod (Csum zs) <= Rsum (map Cmod zs).
Proof.
  induction zs as [|z zs IH]; simpl.
  - rewrite Cmod_C0. lra.
  - pose proof (Cmod_triangle z (Csum zs)). lra.
Qed.

Lemma Cmod_mult_real (z : C) (r : R) : Cmod (Cmult z (RtoC r)) = Cmod z * Rabs r.
Proof.
  destruct z as [a b]. unfold Cmod. cx_unfold.
  replace ((a * r - b * 0) * (a * r - b * 0) + (a * 0 + b * r) * (a * 0 + b * r))
    with ((a * a + b * b) * Rsqr r) by (unfold Rsqr; ring).
  rewrite sqrt_mult_alt by nra. rewrite sqrt_Rsqr_abs. reflexivity.
Qed.

Lemma Rsum_map_nonneg {A : Type} (f : A -> R) (l : list A) :
  (forall a, 0 <= f a) -> 0 <= Rsum (map f l).
Proof.
  intros H. induction l as [|a l IH]; simpl; [lra|]. pose proof (H a). lra.
Qed.

(** A sum with a single term that is not zero. *)
Lemma Csum_single (f : nat -> C) (len m : nat) :
  (forall n, n <> m -> f n = C0) ->
  Csum (map f (seq 0 len)) = if (m <? len)%nat then f m else C0.
Proof.
  intros Hf. induction len as [|len IH].
  - reflexivity.
  - rewrite seq_S, map_app, Csum_app, IH. cbn [Nat.add map Csum fold_right].
    rewrite Cplus_0_r.
    destruct (Nat.ltb_spec m len), (Nat.ltb_spec m (S len)); try lia.
    + rewrite (Hf len) by lia. apply Cplus_0_r.
    + replace len with m by lia. apply Cplus_0_l.
    + rewrite (Hf len) by lia. apply Cplus_0_l.
Qed.

(** A coefficient vector read through Kronecker's delta. *)
Lemma Csum_delta (c : list C) (m : nat) :
  Csum (map (fun n => Cmult (nth n c C0) (RtoC (delta m n))) (seq 0 (length c))) =
  nth m c C0.
Proof.
  rewrite (Csum_single _ _ m).
  - destruct (Nat.ltb_spec m (length c)).
    + unfold delta. rewrite Nat.eqb_refl.
      generalize (nth m c C0). intros z. destruct z. cx_unfold. f_equal; ring.
    + symmetry. apply nth_overflow. assumption.
  - intros n Hn. unfold delta.
    destruct (Nat.eqb_spec m n); [congruence|]. apply Cmult_0_r.
Qed.

Section RoundTrip.

Import ParticleInBox.

Variable self : ParticleInBox.t.

Lemma length_position_to_energy (psi_x : list C) :
  length (position_to_energy self psi_x) = n_max self.
Proof.
  rewrite position_to_energy_map, length_map, length_seq. reflexivity.
Qed.

(** The error of the round trip at coefficient [m] is the combination of
    the input coefficients weighted by the errors of the trapezoidal rule
    on the overlap integrals. *)
Lemma round_trip_error (c : list C) (m : nat)
  (pr : forall m n, Riemann_integrable (overlap self m n) 0 (L self)) :
  0 < L self ->
  (m < n_max self)%nat ->
  Cminus (nth m (position_to_energy self (energy_to_position self c)) C0)
         (nth m c C0) =
  Csum (map (fun n =>
               Cmult (nth n c C0)
                 (RtoC (quadrature (x self) (overlap self m n)
                        - RiemannInt (pr m n))))
          (seq 0 (length c))).
Proof.
  intros HL Hm.
  rewrite round_trip_nth by exact Hm.
  rewrite <- (Csum_delta c m).
  unfold Cminus.
  replace (Copp (Csum (map (fun n => Cmult (nth n c C0) (RtoC (delta m n)))
                         (seq 0 (length c)))))
    with (Csum (map (fun n => Cmult (RtoC (-1))
                                (Cmult (nth n c C0) (RtoC (delta m n))))
                  (seq 0 (length c)))).
  - rewrite <- Csum_map_plus. apply Csum_map_ext. intros n _.
    rewrite (overlap_integral self HL m n (pr m n)).
    generalize (nth n c C0). intros z. destruct z. cx_unfold. f_equal; ring.
  - rewrite Csum_map_mult.
    generalize (Csum (map (fun n => Cmult (nth n c C0) (RtoC (delta m n)))
                        (seq 0 (length c)))).
    intros z. destruct z. cx_unfold. f_equal; ring.
Qed.

(** C1.  For a box of positive length and a coefficient vector [c] of
    length at most [n_max], [position_to_energy(energy_to_position(c))] has
    length [n_max], and at every index it differs from [c] (read as zero
    past its end) by at most the sum over [n] of [|c[n]|] times the error of
    the trapezoidal rule of the grid on the overlap integral of the
    eigenfunctions [m] and [n]: the round trip is exact up to the quadrature
    error. *)
Theorem round_trip_within_quadrature_error (c : list C)
  (pr : forall m n, Riemann_integrable (overlap self m n) 0 (L self)) :
  0 < L self ->
  (length c <= n_max self)%nat ->
  length (position_to_energy self (energy_to_position self c)) = n_max self /\
  forall m,
    Cmod (Cminus (nth m (position_to_energy self (energy_to_position self c)) C0)
                 (nth m c C0))
    <= Rsum (map (fun n =>
                    Cmod (nth n c C0)
                    * Rabs (quadrature (x self) (overlap self m n)
                            - RiemannInt (pr m n)))
               (seq 0 (length c))).
Proof.
  intros HL Hlen. split; [apply length_position_to_energy|].
  intros m. destruct (Nat.lt_ge_cases m (n_max self)) as [Hm|Hm].
  - rewrite (round_trip_error c m pr HL Hm).
    eapply Rle_trans; [apply Cmod_Csum|].
    rewrite map_map. apply Req_le. f_equal.
    apply map_ext. intros n. apply Cmod_mult_real.
  - rewrite !nth_overflow
      by (rewrite ?length_position_to_energy; lia).
    replace (Cminus C0 C0) with C0 by (cx_unfold; f_equal; ring).
    rewrite Cmod_C0. apply Rsum_map_nonneg.
    intros n. apply Rmult_le_pos; [apply Cmod_nonneg | apply Rabs_pos].
Qed.

End RoundTrip.

(** ** The trapezoidal rule on the uniform grid *)

Lemma Rsum_app (l1 l2 : list R) : Rsum (l1 ++ l2) = Rsum l1 + Rsum l2.
Proof. induction l1 as [|r l1 IH]; simpl; [ring | rewrite IH; ring]. Qed.

Lemma Rsum_map_ext {A : Type} (f g : A -> R) (l : list A) :
  (forall a, In a l -> f a = g a) -> Rsum (map f l) = Rsum (map g l).
Proof. intros H. unfold Rsum. f_equal. apply map_ext_in. exact H. Qed.

Lemma Rsum_map_scal {A : Type} (k : R) (f : A -> R) (l : list A) :
  Rsum (map (fun a => k * f a) l) = k * Rsum (map f l).
Proof. induction l as [|a l IH]; simpl; [ring | rewrite IH; ring]. Qed.

Lemma Rsum_map_minus {A : Type} (f g : A -> R) (l : list A) :
  Rsum (map (fun a => f a - g a) l) = Rsum (map f l) - Rsum (map g l).
Proof. induction l as [|a l IH]; simpl; [ring | rewrite IH; ring]. Qed.

(** The trapezoidal sum of a cosine telescopes once multiplied by
    [sin (theta / 2)]. *)
Lemma cos_trapezoid_telescopes (M : nat) (theta : R) :
  sin (theta / 2) * cos_trapezoid M theta = cos (theta / 2) * sin (INR M * theta).
Proof.
  unfold cos_trapezoid. induction M as [|M IH].
  - simpl. rewrite Rmult_0_l, sin_0. ring.
  - rewrite seq_S, map_app, Rsum_app, Rmult_plus_distr_l, IH.
    cbn [Nat.add map Rsum fold_right].
    set (u := INR M * theta + theta / 2). set (v := theta / 2).
    replace (INR (S M) * theta) with (u + v)
      by (unfold u, v; rewrite S_INR; field).
    replace (INR M * theta) with (u - v) by (unfold u, v; field).
    rewrite sin_plus, sin_minus, cos_plus, cos_minus. ring.
Qed.

Lemma cos_trapezoid_0 (M : nat) : cos_trapezoid M 0 = 2 * INR M.
Proof.
  unfold cos_trapezoid. induction M as [|M IH].
  - simpl. ring.
  - rewrite seq_S, map_app, Rsum_app, IH.
    cbn [Nat.add map Rsum fold_right].
    rewrite !Rmult_0_r, cos_0, S_INR. ring.
Qed.

(** The trapezoidal sum of [cos (k pi x / L)] over a uniform grid of
    [M] intervals vanishes unless [k] is a multiple of [2 M]. *)
Lemma cos_trapezoid_harmonic (M : nat) (k : Z) :
  (0 < M)%nat -> (- 2 * Z.of_nat M < k < 2 * Z.of_nat M)%Z ->
  cos_trapezoid M (IZR k * PI / INR M) =
  if (k =? 0)%Z then 2 * INR M else 0.
Proof.
  intros HM Hk.
  assert (HMR : 0 < INR M) by (apply lt_0_INR; exact HM).
  destruct (Z.eqb_spec k 0) as [->|Hk0].
  - replace (0 * PI / INR M) with 0 by (field; lra).
    apply cos_trapezoid_0.
  - pose proof (cos_trapezoid_telescopes M (IZR k * PI / INR M)) as Htel.
    replace (INR M * (IZR k * PI / INR M)) with (IZR k * PI) in Htel
      by (field; lra).
    rewrite sin_nat_PI, Rmult_0_r in Htel.
    apply Rmult_integral in Htel. destruct Htel as [Hsin|Hsum]; [|exact Hsum].
    exfalso. pose proof PI_RGT_0 as Hpi.
    assert (HkR : - (2 * INR M) < IZR k < 2 * INR M).
    { rewrite INR_IZR_INZ. rewrite <- mult_IZR, <- opp_IZR.
      split; apply IZR_lt; lia. }
    set (y := IZR k * PI / INR M / 2) in *.
    destruct (Z.lt_total k 0) as [Hneg|[Hz|Hpos]]; [|contradiction|].
    + assert (Hy : - PI < y < 0).
      { apply IZR_lt in Hneg. unfold y. split.
        - apply Rmult_lt_reg_r with (2 * INR M); [lra|].
          replace (IZR k * PI / INR M / 2 * (2 * INR M)) with (IZR k * PI)
            by (field; lra).
          nra.
        - apply Rmult_lt_reg_r with (2 * INR M); [lra|].
          replace (IZR k * PI / INR M / 2 * (2 * INR M)) with (IZR k * PI)
            by (field; lra).
          nra. }
      pose proof (sin_lt_0_var y (proj1 Hy) (proj2 Hy)). lra.
    + assert (Hy : 0 < y < PI).
      { apply IZR_lt in Hpos. unfold y. split.
        - apply Rmult_lt_reg_r with (2 * INR M); [lra|].
          replace (IZR k * PI / INR M / 2 * (2 * INR M)) with (IZR k * PI)
            by (field; lra).
          nra.
        - apply Rmult_lt_reg_r with (2 * INR M); [lra|].
          replace (IZR k * PI / INR M / 2 * (2 * INR M)) with (IZR k * PI)
            by (field; lra).
          nra. }
      pose proof (sin_gt_0 y (proj1 Hy) (proj2 Hy)). lra.
Qed.

Section UniformGrid.

Import ParticleInBox.

Variable self : ParticleInBox.t.
Variable M : nat.
Hypothesis L_pos : 0 < L self.
Hypothesis M_pos : (0 < M)%nat.
Hypothesis grid :
  x self = map (fun j => INR j * (L self / INR M)) (seq 0 (S M)).

Lemma uniform_grid_nth (j : nat) :
  (j <= M)%nat -> nth j (x self) 0 = INR j * (L self / INR M).
Proof.
  intros Hj. rewrite grid.
  rewrite (nth_map_in_range _ _ _ 0%nat) by (rewrite length_seq; lia).
  rewrite seq_nth by lia. reflexivity.
Qed.

(** On the uniform grid the trapezoidal rule integrates the overlap of two
    eigenfunctions of quantum number below [M] exactly. *)
Lemma quadrature_overlap_uniform (m n : nat) :
  (m + 1 < M)%nat -> (n + 1 < M)%nat ->
  quadrature (x self) (overlap self m n) = delta m n.
Proof.
  intros Hm Hn.
  assert (HMR : 0 < INR M) by (apply lt_0_INR; exact M_pos).
  set (a := (Z.of_nat (m + 1) - Z.of_nat (n + 1))%Z).
  set (b := (Z.of_nat (m + 1) + Z.of_nat (n + 1))%Z).
  unfold quadrature.
  replace (length (x self) - 1)%nat with M
    by (rewrite grid, length_map, length_seq; lia).
  rewrite (Rsum_map_ext _
    (fun j => / (2 * INR M)
              * ((cos (INR (S j) * (IZR a * PI / INR M))
                  + cos (INR j * (IZR a * PI / INR M)))
                 - (cos (INR (S j) * (IZR b * PI / INR M))
                    + cos (INR j * (IZR b * PI / INR M)))))).
  - rewrite Rsum_map_scal, Rsum_map_minus.
    fold (cos_trapezoid M (IZR a * PI / INR M)).
    fold (cos_trapezoid M (IZR b * PI / INR M)).
    rewrite !cos_trapezoid_harmonic by (unfold a, b; lia).
    unfold delta, a, b.
    destruct (Z.eqb_spec (Z.of_nat (m + 1) + Z.of_nat (n + 1)) 0); [lia|].
    destruct (Z.eqb_spec (Z.of_nat (m + 1) - Z.of_nat (n + 1)) 0),
      (Nat.eqb_spec m n); try lia; field; lra.
  - intros j Hj. apply in_seq in Hj.
    rewrite !uniform_grid_nth by lia.
    rewrite !(overlap_product_to_sum self L_pos). fold a b.
    unfold mode_frequency.
    replace (IZR a * PI / L self * (INR (S j) * (L self / INR M)))
      with (INR (S j) * (IZR a * PI / INR M)) by (field; lra).
    replace (IZR a * PI / L self * (INR j * (L self / INR M)))
      with (INR j * (IZR a * PI / INR M)) by (field; lra).
    replace (IZR b * PI / L self * (INR (S j) * (L self / INR M)))
      with (INR (S j) * (IZR b * PI / INR M)) by (field; lra).
    replace (IZR b * PI / L self * (INR j * (L self / INR M)))
      with (INR j * (IZR b * PI / INR M)) by (field; lra).
    rewrite S_INR. field. lra.
Qed.

End UniformGrid.

Section ExactRoundTrip.

Import ParticleInBox.

(** The grid of a constructed engine, with [M = n_points - 1] intervals. *)
Lemma init_grid (L : R) (n_max : nat) (n_points : Z) (self : ParticleInBox.t) :
  __init__ L n_max n_points = Ok self ->
  (2 <= n_points)%Z ->
  ParticleInBox.L self = L /\
  ParticleInBox.n_max self = n_max /\
  x self = map (fun j => INR j * (ParticleInBox.L self
                                  / INR (Z.to_nat n_points - 1)))
             (seq 0 (S (Z.to_nat n_points - 1))).
Proof.
  intros Hinit Hn.
  destruct (init_returns L n_max n_points Hn) as (self' & Hinit' & HL & Hm & Hx).
  rewrite Hinit in Hinit'. injection Hinit' as <-.
  split; [exact HL|]. split; [exact Hm|].
  assert (HM : Z.to_nat n_points = S (Z.to_nat n_points - 1)) by lia.
  assert (HMR : IZR n_points - 1 = INR (Z.to_nat n_points - 1)).
  { rewrite <- (Z2Nat.id n_points) at 1 by lia.
    rewrite <- INR_IZR_INZ, HM at 1. rewrite S_INR. ring. }
  rewrite Hx, HMR, HL, <- HM. reflexivity.
Qed.

(** X2.  On the grid the constructor builds for a box of positive length,
    the overlap matrix of [demonstrate_orthonormality] is the identity, for
    all quantum numbers below the number of grid intervals. *)
Theorem overlap_matrix_is_identity (L : R) (n_max : nat) (n_points : Z)
  (pib : ParticleInBox.t) (m n : nat) :
  __init__ L n_max n_points = Ok pib ->
  0 < L ->
  (Z.of_nat m + 3 <= n_points)%Z ->
  (Z.of_nat n + 3 <= n_points)%Z ->
  overlap_entry pib m n = RtoC (delta m n).
Proof.
  intros Hinit HL Hm Hn.
  destruct (init_grid L n_max n_points pib Hinit) as (HLs & _ & Hx); [lia|].
  rewrite <- HLs in HL.
  rewrite overlap_entry_quadrature. f_equal.
  apply (quadrature_overlap_uniform pib (Z.to_nat n_points - 1) HL);
    try exact Hx; lia.
Qed.

Lemma overlap_matrix_is_identity_witness :
  exists pib,
    __init__ 1 5 1000 = Ok pib /\
    overlap_entry pib 0 0 = RtoC 1 /\
    overlap_entry pib 0 4 = RtoC 0.
Proof.
  eexists. split; [reflexivity|]. split.
  - apply (overlap_matrix_is_identity 1 5 1000);
      [reflexivity | lra | lia | lia].
  - apply (overlap_matrix_is_identity 1 5 1000);
      [reflexivity | lra | lia | lia].
Defined.

(** X1.  On the grid the constructor builds for a box of positive length,
    with fewer basis states than grid intervals, the round trip
    [position_to_energy(energy_to_position(c))] returns the coefficient
    vector [c] itself, padded with zeros to [n_max] entries: the trapezoidal
    rule makes no error on the overlaps. *)
Theorem round_trip_exact_on_fine_grid (L : R) (n_max : nat) (n_points : Z)
  (self : ParticleInBox.t) (c : list C) :
  __init__ L n_max n_points = Ok self ->
  0 < L ->
  (Z.of_nat n_max + 2 <= n_points)%Z ->
  (length c <= n_max)%nat ->
  position_to_energy self (energy_to_position self c) =
  c ++ np.czeros (n_max - length c).
Proof.
  intros Hinit HL Hfine Hlen.
  destruct (init_grid L n_max n_points self Hinit) as (HLs & Hns & Hx); [lia|].
  rewrite <- HLs in HL.
  apply (nth_ext _ _ C0 C0).
  - rewrite length_position_to_energy, length_app.
    unfold np.czeros. rewrite repeat_length. lia.
  - rewrite length_position_to_energy. intros m Hm.
    rewrite round_trip_nth by exact Hm.
    rewrite (Csum_map_ext _
      (fun n => Cmult (nth n c C0) (RtoC (delta m n)))).
    + rewrite Csum_delta.
      destruct (Nat.lt_ge_cases m (length c)) as [Hmc|Hmc].
      * rewrite app_nth1 by exact Hmc. reflexivity.
      * rewrite app_nth2 by exact Hmc. rewrite nth_czeros.
        apply nth_overflow. exact Hmc.
    + intros n Hn. apply in_seq in Hn.
      rewrite (quadrature_overlap_uniform self (Z.to_nat n_points - 1) HL)
        by (try exact Hx; lia).
      reflexivity.
Qed.

End ExactRoundTrip.

(** ** The spec's test vector [[1, 0, 0, 0, 0]] on the default grid *)

Section RoundTripExamples.

Import ParticleInBox.

Lemma overlap_integrable (self : ParticleInBox.t) (m n : nat) :
  0 <= L self -> Riemann_integrable (overlap self m n) 0 (L self).
Proof.
  intros HL. apply continuity_implies_RiemannInt; [exact HL|].
  intros x _. apply overlap_continuous.
Qed.

Lemma round_trip_exact_on_fine_grid_witness :
  exists self,
    __init__ 1 5 1000 = Ok self /\
    position_to_energy self (energy_to_position self [RtoC 1; C0; C0; C0; C0]) =
    [RtoC 1; C0; C0; C0; C0] ++ np.czeros (5 - 5).
Proof.
  eexists. split; [reflexivity|].
  apply (round_trip_exact_on_fine_grid 1 5 1000);
    [reflexivity | lra | lia | simpl; lia].
Defined.

Lemma unit_box_nonneg : 0 <= 1.
Proof. lra. Qed.

Lemma round_trip_within_quadrature_error_witness :
  exists self,
    __init__ 1 5 1000 = Ok self /\
    exists pr : forall m n, Riemann_integrable (overlap self m n) 0 (L self),
      length (position_to_energy self
                (energy_to_position self [RtoC 1; C0; C0; C0; C0])) = n_max self /\
      forall m,
        Cmod (Cminus
                (nth m (position_to_energy self
                          (energy_to_position self [RtoC 1; C0; C0; C0; C0])) C0)
                (nth m [RtoC 1; C0; C0; C0; C0] C0))
        <= Rsum (map (fun n =>
                        Cmod (nth n [RtoC 1; C0; C0; C0; C0] C0)
                        * Rabs (quadrature (x self) (overlap self m n)
                                - RiemannInt (pr m n)))
                   (seq 0 (length [RtoC 1; C0; C0; C0; C0]))).
Proof.
  eexists. split; [reflexivity|].
  match goal with
  | |- exists pr : (forall m n, Riemann_integrable (overlap ?s m n) _ _), _ =>
      exists (fun m n => overlap_integrable s m n unit_box_nonneg)
  end.
  apply round_trip_within_quadrature_error; [simpl; lra | simpl; lia].
Defined.

End RoundTripExamples.

(** ** The algebra of the ladder operators *)

Section LadderAlgebra.

Import QuantumHarmonicOscillator.

Lemma sqrt_INR_sq (n : nat) : sqrt (INR n) * sqrt (INR n) = INR n.
Proof. apply sqrt_sqrt. apply pos_INR. Qed.

Lemma Re_C0 : Re C0 = 0.
Proof. reflexivity. Qed.

Lemma creation_after_annihilation (coeffs : list C) (lowered counted : list R) :
  apply_annihilation coeffs = Ok lowered ->
  apply_creation (map RtoC lowered) = Ok counted ->
  forall n, nth n counted 0 = INR n * Re (nth n coeffs C0).
Proof.
  intros Hl Hc n.
  destruct (apply_annihilation_entries_complex coeffs)
    as (l' & Hl' & Hlen & Hnth).
  rewrite Hl in Hl'. injection Hl' as <-.
  destruct (apply_creation_entries lowered) as (c' & Hc' & Hlen' & Hnth').
  rewrite Hc in Hc'. injection Hc' as <-.
  rewrite Hnth', Hlen.
  destruct (Nat.ltb_spec 0 n) as [H0|H0].
  - destruct (Nat.ltb_spec n (length coeffs)) as [Hn|Hn]; cbn [andb].
    + rewrite Hnth. replace (n - 1 + 1)%nat with n by lia.
      destruct (Nat.ltb_spec n (length coeffs)); [|lia].
      rewrite <- Rmult_assoc, sqrt_INR_sq. reflexivity.
    + rewrite (nth_overflow coeffs) by lia. rewrite Re_C0. ring.
  - cbn [andb]. replace n with 0%nat by lia. simpl. ring.
Qed.

Lemma annihilation_after_creation (coeffs : list C) (raised restored : list R) :
  apply_creation coeffs = Ok raised ->
  apply_annihilation (map RtoC raised) = Ok restored ->
  forall n, nth n restored 0 =
            if (n + 1 <? length coeffs)%nat
            then INR (n + 1) * Re (nth n coeffs C0) else 0.
Proof.
  intros Hr Hl n.
  destruct (apply_creation_entries_complex coeffs)
    as (r' & Hr' & Hlen & Hnth).
  rewrite Hr in Hr'. injection Hr' as <-.
  destruct (apply_annihilation_entries raised) as (l' & Hl' & Hlen' & Hnth').
  rewrite Hl in Hl'. injection Hl' as <-.
  rewrite Hnth', Hlen.
  destruct (Nat.ltb_spec (n + 1) (length coeffs)); [|reflexivity].
  rewrite Hnth.
  destruct (Nat.ltb_spec 0 (n + 1)); [|lia].
  destruct (Nat.ltb_spec (n + 1) (length coeffs)); [|lia].
  cbn [andb]. replace (n + 1 - 1)%nat with n by lia.
  rewrite <- Rmult_assoc, sqrt_INR_sq. reflexivity.
Qed.

(** X4.  Annihilation followed by creation never raises and returns the
    floats [n * Re(c_n)], the top level included: on real coefficients it is
    the number operator, multiplying the coefficient of every level [n] by
    [n]; of a complex coefficient the imaginary part is lost. *)
Theorem number_operator (coeffs : list C) :
  (exists counted,
     (lowered <- apply_annihilation coeffs ;;
      apply_creation (map RtoC lowered)) = Ok counted /\
     length counted = length coeffs /\
     forall n, nth n counted 0 = INR n * Re (nth n coeffs C0)) /\
  (forall reals : list R,
     exists counted,
       (lowered <- apply_annihilation (map RtoC reals) ;;
        apply_creation (map RtoC lowered)) = Ok counted /\
       length counted = length reals /\
       forall n, nth n counted 0 = INR n * nth n reals 0).
Proof.
  assert (Hgen : forall cs : list C,
    exists counted,
      (lowered <- apply_annihilation cs ;;
       apply_creation (map RtoC lowered)) = Ok counted /\
      length counted = length cs /\
      forall n, nth n counted 0 = INR n * Re (nth n cs C0)).
  { intros cs.
    destruct (apply_annihilation_entries_complex cs)
      as (lowered & Hl & Hlen & _).
    destruct (apply_creation_entries lowered) as (counted & Hc & Hlen' & _).
    exists counted. rewrite Hl. cbn [bind]. split; [exact Hc|].
    split; [congruence|].
    apply (creation_after_annihilation cs lowered); assumption. }
  split; [apply Hgen|].
  intros reals. destruct (Hgen (map RtoC reals)) as (counted & Hrun & Hlen & Hn).
  exists counted. split; [exact Hrun|].
  split; [rewrite Hlen; apply length_map|].
  intros n. rewrite Hn, nth_map_RtoC. reflexivity.
Qed.

(** X5.  Creation followed by annihilation returns [(n + 1) * Re(c_n)] on
    every level below the top one and clears the top level.  So the
    commutator of the two operators returns [Re(c_n)] on every level but the
    top one, where the truncated basis gives [-(len - 1) * Re(c_n)]; on real
    coefficients [Re(c_n)] is [c_n], and the commutator is the identity
    below the top level. *)
Theorem truncated_commutator (coeffs : list C) :
  exists raised_lowered lowered_raised,
    (raised <- apply_creation coeffs ;;
     apply_annihilation (map RtoC raised)) = Ok raised_lowered /\
    (lowered <- apply_annihilation coeffs ;;
     apply_creation (map RtoC lowered)) = Ok lowered_raised /\
    (forall n, (n + 1 < length coeffs)%nat ->
       nth n raised_lowered 0 = INR (n + 1) * Re (nth n coeffs C0) /\
       nth n raised_lowered 0 - nth n lowered_raised 0 = Re (nth n coeffs C0)) /\
    nth (length coeffs - 1) raised_lowered 0 = 0 /\
    nth (length coeffs - 1) raised_lowered 0
      - nth (length coeffs - 1) lowered_raised 0
    = - (INR (length coeffs - 1) * Re (nth (length coeffs - 1) coeffs C0)) /\
    (forall reals : list R, coeffs = map RtoC reals ->
       forall n, Re (nth n coeffs C0) = nth n reals 0).
Proof.
  destruct (apply_annihilation_entries_complex coeffs)
    as (lowered & Hl & _ & _).
  destruct (apply_creation_entries lowered) as (lr & Hlr & _ & _).
  destruct (apply_creation_entries_complex coeffs) as (raised & Hr & _ & _).
  destruct (apply_annihilation_entries raised) as (rl & Hrl & _ & _).
  pose proof (creation_after_annihilation _ _ _ Hl Hlr) as Hcount.
  pose proof (annihilation_after_creation _ _ _ Hr Hrl) as Hback.
  exists rl, lr. rewrite Hr, Hl. cbn [bind].
  split; [exact Hrl|]. split; [exact Hlr|].
  assert (Htop : nth (length coeffs - 1) rl 0 = 0).
  { rewrite Hback.
    destruct (Nat.ltb_spec (length coeffs - 1 + 1) (length coeffs));
      [lia | reflexivity]. }
  split; [|split; [|split]].
  - intros n Hn. rewrite Hback, Hcount.
    destruct (Nat.ltb_spec (n + 1) (length coeffs)); [|lia].
    split; [reflexivity|]. rewrite plus_INR. simpl. ring.
  - exact Htop.
  - rewrite Htop, Hcount. ring.
  - intros reals -> n. rewrite nth_map_RtoC. reflexivity.
Qed.

(** *** Adjointness *)

Lemma nth_add_real (a b : list R) (j : nat) :
  length a = length b ->
  nth j (np.add_real a b) 0 = nth j a 0 + nth j b 0.
Proof.
  revert b j. induction a as [|u a IH]; intros [|v b] [|j] H; simpl in *;
    try discriminate; try ring.
  apply IH. lia.
Qed.

Lemma length_add_real (a b : list R) :
  length a = length b -> length (np.add_real a b) = length a.
Proof.
  intros H. unfold np.add_real. rewrite length_map, length_combine. lia.
Qed.

Lemma nth_scaled (k : R) (a : list R) (j : nat) :
  nth j (map (Rmult k) a) 0 = k * nth j a 0.
Proof.
  rewrite <- (Rmult_0_r k) at 1. apply (map_nth (Rmult k)).
Qed.

Lemma nth_combination (a b : R) (u v : list R) (j : nat) :
  length u = length v ->
  nth j (np.add_real (map (Rmult a) u) (map (Rmult b) v)) 0 =
  a * nth j u 0 + b * nth j v 0.
Proof.
  intros H. rewrite nth_add_real by (rewrite !length_map; exact H).
  rewrite !nth_scaled. reflexivity.
Qed.

Lemma length_combination (a b : R) (u v : list R) :
  length u = length v ->
  length (np.add_real (map (Rmult a) u) (map (Rmult b) v)) = length u.
Proof.
  intros H. rewrite length_add_real; rewrite !length_map; congruence.
Qed.

Lemma Rsum_map_ext_in {A : Type} (f g : A -> R) (l : list A) :
  (forall a, In a l -> f a = g a) -> Rsum (map f l) = Rsum (map g l).
Proof. intros H. unfold Rsum. f_equal. apply map_ext_in. exact H. Qed.

Lemma dot_index (u v : list R) :
  length u = length v ->
  np.dot u v = Rsum (map (fun n => nth n u 0 * nth n v 0) (seq 0 (length u))).
Proof.
  unfold np.dot. revert v. induction u as [|a u IH]; intros [|b v] H;
    try discriminate; [reflexivity|].
  cbn [combine map length Rsum fold_right fst snd].
  rewrite <- cons_seq, <- seq_shift, map_cons, map_map.
  cbn [Rsum fold_right nth]. f_equal. apply IH. simpl in H. lia.
Qed.

(** X7.  Creation is the adjoint of annihilation, also in the truncated
    basis: [u . (a+ v) = (a u) . v] for vectors of real coefficients of one
    length. *)
Theorem creation_adjoint_of_annihilation (u v : list R) :
  length u = length v ->
  exists au cv,
    apply_annihilation (map RtoC u) = Ok au /\
    apply_creation (map RtoC v) = Ok cv /\
    np.dot u cv = np.dot au v.
Proof.
  intros Huv.
  destruct (apply_annihilation_entries u) as (au & Hau & Hla & Hna).
  destruct (apply_creation_entries v) as (cv & Hcv & Hlc & Hnc).
  exists au, cv. split; [exact Hau|]. split; [exact Hcv|].
  rewrite !dot_index by congruence. rewrite Hla.
  destruct (length u) as [|k] eqn:Hk; [reflexivity|].
  rewrite <- cons_seq at 1. rewrite <- seq_shift, map_cons, map_map.
  rewrite seq_S, map_app. cbn [Nat.add map].
  assert (Happ : forall l r, Rsum (l ++ [r]) = Rsum l + r).
  { intros l r. induction l as [|z l IHl]; simpl; [ring | rewrite IHl; ring]. }
  rewrite Happ. cbn [Rsum fold_right].
  fold (Rsum (map (fun n => nth (S n) u 0 * nth (S n) cv 0) (seq 0 k))).
  rewrite Hnc, (Hna k), <- Huv.
  destruct (Nat.ltb_spec (k + 1) (S k)); [lia|].
  cbn [Nat.ltb Nat.leb andb].
  rewrite Rmult_0_r, Rmult_0_l, Rplus_0_l, Rplus_0_r.
  apply Rsum_map_ext_in. intros n Hn. apply in_seq in Hn.
  rewrite Hnc, Hna, <- Huv.
  destruct (Nat.ltb_spec 0 (S n)); [|lia].
  destruct (Nat.ltb_spec (S n) (S k)); [|lia].
  destruct (Nat.ltb_spec (n + 1) (S k)); [|lia].
  cbn [andb]. replace (S n - 1)%nat with n by lia.
  replace (n + 1)%nat with (S n) by lia. ring.
Qed.

Lemma creation_adjoint_of_annihilation_witness :
  exists au cv,
    apply_annihilation (map RtoC [1; 2; 3]) = Ok au /\
    apply_creation (map RtoC [4; 5; 6]) = Ok cv /\
    np.dot [1; 2; 3] cv = np.dot au [4; 5; 6].
Proof.
  apply (creation_adjoint_of_annihilation [1; 2; 3] [4; 5; 6]). reflexivity.
Defined.

End LadderAlgebra.

(** ** The button callbacks on basis states *)

Section Callbacks.

Import QuantumHarmonicOscillator.

Lemma nth_basis_state (k n j : nat) :
  (n < k)%nat ->
  nth j (update (np.zeros k) n 1) 0 = if (j =? n)%nat then 1 else 0.
Proof.
  intros Hn. destruct (Nat.eqb_spec j n) as [->|Hne].
  - apply nth_update_eq. rewrite length_zeros. exact Hn.
  - rewrite nth_update_neq by congruence. apply nth_zeros.
Qed.

Lemma reset_state_in_range (k n : nat) :
  (n < k)%nat -> reset_state k n = Ok (update (np.zeros k) n 1).
Proof.
  intros Hn. unfold reset_state. apply setitem_in_range.
  rewrite length_zeros. exact Hn.
Qed.

Lemma Rsum_sq_zeros (k : nat) :
  Rsum (map (fun c => Rabs c ^ 2) (repeat 0 k)) = 0.
Proof.
  induction k as [|k IH]; [reflexivity|].
  cbn [repeat map Rsum fold_right].
  change (fold_right Rplus 0 (map (fun c => Rabs c ^ 2) (repeat 0 k)))
    with (Rsum (map (fun c => Rabs c ^ 2) (repeat 0 k))).
  rewrite IH, Rabs_R0. ring.
Qed.

Lemma Rsum_sq_basis_state (k n : nat) :
  (n < k)%nat ->
  Rsum (map (fun c => Rabs c ^ 2) (update (np.zeros k) n 1)) = 1.
Proof.
  unfold np.zeros. revert n. induction k as [|k IH]; intros n Hn; [lia|].
  destruct n as [|n]; cbn [repeat update map Rsum fold_right].
  - change (fold_right Rplus 0 (map (fun c => Rabs c ^ 2) (repeat 0 k)))
      with (Rsum (map (fun c => Rabs c ^ 2) (repeat 0 k))).
    rewrite Rsum_sq_zeros, Rabs_R1. ring.
  - change (fold_right Rplus 0
              (map (fun c => Rabs c ^ 2) (update (repeat 0 k) n 1)))
      with (Rsum (map (fun c => Rabs c ^ 2) (update (repeat 0 k) n 1))).
    rewrite IH by lia. rewrite Rabs_R0. ring.
Qed.

Lemma norm_scaled_basis_state (s : R) (k n : nat) :
  (n < k)%nat ->
  norm (map (Rmult s) (update (np.zeros k) n 1)) = Rabs s.
Proof.
  intros Hn. unfold norm.
  replace (Rsum (map (fun c => Rabs c ^ 2)
                   (map (Rmult s) (update (np.zeros k) n 1))))
    with (Rsqr s * Rsum (map (fun c => Rabs c ^ 2) (update (np.zeros k) n 1))).
  - rewrite Rsum_sq_basis_state by exact Hn. rewrite Rmult_1_r.
    apply sqrt_Rsqr_abs.
  - generalize (update (np.zeros k) n 1). intros l.
    induction l as [|c l IH]; cbn [map Rsum fold_right].
    + ring.
    + change (fold_right Rplus 0
                (map (fun c0 => Rabs c0 ^ 2) (map (Rmult s) l)))
        with (Rsum (map (fun c0 => Rabs c0 ^ 2) (map (Rmult s) l))).
      change (fold_right Rplus 0 (map (fun c0 => Rabs c0 ^ 2) l))
        with (Rsum (map (fun c0 => Rabs c0 ^ 2) l)).
      rewrite <- IH. rewrite Rabs_mult.
      pose proof (pow2_abs s) as Hs. unfold Rsqr.
      replace ((Rabs s * Rabs c) ^ 2) with (Rabs s ^ 2 * Rabs c ^ 2) by ring.
      rewrite Hs. ring.
Qed.

(** Renormalising a basis state scaled by a factor of at least 1 gives the
    basis state back. *)
Lemma renormalize_scaled_basis_state (s : R) (k n : nat) :
  (n < k)%nat -> 1 <= s ->
  renormalize (map (Rmult s) (update (np.zeros k) n 1)) =
  update (np.zeros k) n 1.
Proof.
  intros Hn Hs. unfold renormalize.
  rewrite norm_scaled_basis_state by exact Hn.
  rewrite Rabs_right by lra.
  destruct (Rlt_dec 1e-10 s) as [_|H]; [|lra].
  rewrite map_map. rewrite <- (map_id (update (np.zeros k) n 1)) at 2.
  apply map_ext. intros c. field. lra.
Qed.

Lemma sqrt_INR_ge_1 (n : nat) : 1 <= sqrt (INR (n + 1)).
Proof.
  rewrite <- sqrt_1. apply sqrt_le_1_alt.
  rewrite plus_INR. pose proof (pos_INR n). simpl. lra.
Qed.

Lemma apply_creation_basis_state (k n : nat) :
  (n + 1 < k)%nat ->
  apply_creation (map RtoC (update (np.zeros k) n 1)) =
  Ok (map (Rmult (sqrt (INR (n + 1)))) (update (np.zeros k) (n + 1) 1)).
Proof.
  intros Hn.
  destruct (apply_creation_entries (update (np.zeros k) n 1))
    as (new & Hrun & Hlen & Hnth).
  rewrite Hrun. f_equal.
  rewrite length_update, length_zeros in Hlen, Hnth.
  apply (nth_ext _ _ 0 0).
  - rewrite length_map, length_update, length_zeros. exact Hlen.
  - intros j _. rewrite Hnth, nth_scaled, !nth_basis_state by lia.
    destruct (Nat.ltb_spec 0 j), (Nat.ltb_spec j k),
      (Nat.eqb_spec (j - 1) n), (Nat.eqb_spec j (n + 1));
      cbn [andb]; try lia; try ring.
    subst j. ring.
Qed.

Lemma apply_annihilation_basis_state (k n : nat) :
  (n + 1 < k)%nat ->
  apply_annihilation (map RtoC (update (np.zeros k) (n + 1) 1)) =
  Ok (map (Rmult (sqrt (INR (n + 1)))) (update (np.zeros k) n 1)).
Proof.
  intros Hn.
  destruct (apply_annihilation_entries (update (np.zeros k) (n + 1) 1))
    as (new & Hrun & Hlen & Hnth).
  rewrite Hrun. f_equal.
  rewrite length_update, length_zeros in Hlen, Hnth.
  apply (nth_ext _ _ 0 0).
  - rewrite length_map, length_update, length_zeros. exact Hlen.
  - intros j _. rewrite Hnth, nth_scaled, !nth_basis_state by lia.
    destruct (Nat.ltb_spec (j + 1) k),
      (Nat.eqb_spec (j + 1) (n + 1)), (Nat.eqb_spec j n);
      try lia; try ring.
    subst j. ring.
Qed.

(** X8.  On the basis states below the top level the two button callbacks
    are exact inverses: the creation button takes [|n>] to the normalised
    [|n+1>] and the annihilation button takes it back. *)
Theorem callbacks_shift_basis_states (n_max n : nat) :
  (n + 1 < n_max)%nat ->
  exists lower upper,
    reset_state n_max n = Ok lower /\
    reset_state n_max (n + 1) = Ok upper /\
    apply_creation_op lower = Ok upper /\
    apply_annihilation_op upper = Ok lower.
Proof.
  intros Hn.
  exists (update (np.zeros n_max) n 1), (update (np.zeros n_max) (n + 1) 1).
  split; [apply reset_state_in_range; lia|].
  split; [apply reset_state_in_range; lia|].
  split.
  - unfold apply_creation_op.
    rewrite apply_creation_basis_state by exact Hn. cbn [bind]. f_equal.
    apply renormalize_scaled_basis_state; [lia | apply sqrt_INR_ge_1].
  - unfold apply_annihilation_op.
    rewrite apply_annihilation_basis_state by exact Hn. cbn [bind]. f_equal.
    apply renormalize_scaled_basis_state; [lia | apply sqrt_INR_ge_1].
Qed.

Lemma callbacks_shift_basis_states_witness :
  exists lower upper,
    reset_state 10 2 = Ok lower /\
    reset_state 10 (2 + 1) = Ok upper /\
    apply_creation_op lower = Ok upper /\
    apply_annihilation_op upper = Ok lower.
Proof.
  apply (callbacks_shift_basis_states 10 2). lia.
Defined.

Lemma apply_creation_zeros (k : nat) :
  apply_creation (map RtoC (np.zeros k)) = Ok (np.zeros k).
Proof.
  destruct (apply_creation_entries (np.zeros k)) as (new & Hrun & Hlen & Hnth).
  rewrite Hrun. f_equal. rewrite length_zeros in Hlen, Hnth.
  apply (nth_ext _ _ 0 0); [rewrite length_zeros; exact Hlen|].
  intros j _. rewrite Hnth, !nth_zeros.
  destruct ((0 <? j) && (j <? k))%nat; ring.
Qed.

Lemma apply_annihilation_zeros (k : nat) :
  apply_annihilation (map RtoC (np.zeros k)) = Ok (np.zeros k).
Proof.
  destruct (apply_annihilation_entries (np.zeros k))
    as (new & Hrun & Hlen & Hnth).
  rewrite Hrun. f_equal. rewrite length_zeros in Hlen, Hnth.
  apply (nth_ext _ _ 0 0); [rewrite length_zeros; exact Hlen|].
  intros j _. rewrite Hnth, !nth_zeros.
  destruct (j + 1 <? k)%nat; ring.
Qed.

Lemma apply_creation_top_state (k : nat) :
  (1 <= k)%nat ->
  apply_creation (map RtoC (update (np.zeros k) (k - 1) 1)) = Ok (np.zeros k).
Proof.
  intros Hk.
  destruct (apply_creation_entries (update (np.zeros k) (k - 1) 1))
    as (new & Hrun & Hlen & Hnth).
  rewrite Hrun. f_equal.
  rewrite length_update, length_zeros in Hlen, Hnth.
  apply (nth_ext _ _ 0 0); [rewrite length_zeros; exact Hlen|].
  intros j _. rewrite Hnth, nth_zeros, nth_basis_state by lia.
  destruct (Nat.ltb_spec 0 j), (Nat.ltb_spec j k), (Nat.eqb_spec (j - 1) (k - 1));
    cbn [andb]; try lia; ring.
Qed.

(** X9.  The creation button pressed on the top basis state loses the
    state: the result is the zero vector, which both buttons leave
    unchanged, so that only a reset brings a state back.  A reset to a
    level outside the basis raises [IndexError]. *)
Theorem zero_state_is_absorbing (n_max : nat) :
  apply_creation_op (np.zeros n_max) = Ok (np.zeros n_max) /\
  apply_annihilation_op (np.zeros n_max) = Ok (np.zeros n_max) /\
  ((1 <= n_max)%nat ->
     exists top,
       reset_state n_max (n_max - 1) = Ok top /\
       apply_creation_op top = Ok (np.zeros n_max)) /\
  (forall n, (n_max <= n)%nat -> reset_state n_max n = Raise "IndexError").
Proof.
  assert (Hrenorm : renormalize (np.zeros n_max) = np.zeros n_max).
  { unfold renormalize. rewrite norm_zeros.
    destruct (Rlt_dec 1e-10 0); [lra | reflexivity]. }
  split; [|split; [|split]].
  - unfold apply_creation_op. rewrite apply_creation_zeros. cbn [bind].
    rewrite Hrenorm. reflexivity.
  - unfold apply_annihilation_op. rewrite apply_annihilation_zeros.
    cbn [bind]. rewrite Hrenorm. reflexivity.
  - intros Hk. exists (update (np.zeros n_max) (n_max - 1) 1).
    split; [apply reset_state_in_range; lia|].
    unfold apply_creation_op. rewrite apply_creation_top_state by exact Hk.
    cbn [bind]. rewrite Hrenorm. reflexivity.
  - intros n Hn. unfold reset_state, setitem. rewrite length_zeros.
    destruct (Nat.ltb_spec n n_max); [lia | reflexivity].
Qed.

Lemma zero_state_is_absorbing_witness :
  exists top,
    reset_state 10 (10 - 1) = Ok top /\
    apply_creation_op top = Ok (np.zeros 10).
Proof.
  apply (proj1 (proj2 (proj2 (zero_state_is_absorbing 10)))). lia.
Defined.

End Callbacks.

(** ** Wavefunctions of the oscillator *)

Section OscillatorWavefunctions.

Import QuantumHarmonicOscillator.

Variable self : QuantumHarmonicOscillator.t.

Lemma Rsum_cons (r : R) (rs : list R) : Rsum (r :: rs) = r + Rsum rs.
Proof. reflexivity. Qed.

Lemma state_to_wavefunction_loop (x : list R) (ncs : list (nat * R))
  (acc : list R) :
  length acc = length x ->
  let psi :=
    fold_left
      (fun psi nc =>
         let n := fst nc in
         let c_n := snd nc in
         if Rlt_dec 1e-10 (Rabs c_n)
         then np.add_real psi (map (fun xj => c_n * psi_n self xj n) x)
         else psi)
      ncs acc in
  length psi = length x /\
  forall j, (j < length x)%nat ->
    nth j psi 0 =
    nth j acc 0
    + Rsum (map (fun nc => contribution self (snd nc) (fst nc) (nth j x 0))
              ncs).
Proof.
  cbv zeta. revert acc. induction ncs as [|[n c] ncs IH]; intros acc Hacc;
    cbn [fold_left].
  - split; [exact Hacc|]. intros j _. cbn [map]. unfold Rsum at 1.
    cbn [fold_right]. ring.
  - cbn [fst snd].
    destruct (Rlt_dec 1e-10 (Rabs c)) as [Hc|Hc].
    + destruct (IH (np.add_real acc (map (fun xj => c * psi_n self xj n) x)))
        as [Hlen Hnth].
      { rewrite length_add_real; rewrite ?length_map; congruence. }
      split; [exact Hlen|]. intros j Hj. rewrite (Hnth j Hj).
      rewrite nth_add_real by (rewrite length_map; exact Hacc).
      rewrite (nth_map_in_range _ _ _ 0) by exact Hj.
      rewrite map_cons, Rsum_cons. cbn [fst snd]. unfold contribution at 2.
      destruct (Rlt_dec 1e-10 (Rabs c)); [ring | contradiction].
    + destruct (IH acc Hacc) as [Hlen Hnth].
      split; [exact Hlen|]. intros j Hj. rewrite (Hnth j Hj).
      rewrite map_cons, Rsum_cons. cbn [fst snd]. unfold contribution at 2.
      destruct (Rlt_dec 1e-10 (Rabs c)); [contradiction | ring].
Qed.

Lemma combine_seq_nth (coeffs : list R) :
  combine (seq 0 (length coeffs)) coeffs =
  map (fun n => (n, nth n coeffs 0)) (seq 0 (length coeffs)).
Proof.
  apply (nth_ext _ _ (0%nat, 0) (0%nat, 0)).
  - rewrite length_combine, length_map, length_seq. lia.
  - rewrite length_combine, length_seq, Nat.min_id. intros j Hj.
    rewrite combine_nth by (rewrite length_seq; reflexivity).
    rewrite (nth_map_in_range _ _ _ 0%nat) by (rewrite length_seq; exact Hj).
    rewrite seq_nth by exact Hj. reflexivity.
Qed.

Lemma state_to_wavefunction_nth (x coeffs : list R) (j : nat) :
  (j < length x)%nat ->
  nth j (state_to_wavefunction self x coeffs) 0 =
  Rsum (map (fun n => contribution self (nth n coeffs 0) n (nth j x 0))
          (seq 0 (length coeffs))).
Proof.
  intros Hj. unfold state_to_wavefunction.
  destruct (state_to_wavefunction_loop x
              (combine (seq 0 (length coeffs)) coeffs)
              (np.zeros (length x))) as [_ Hnth].
  - apply length_zeros.
  - cbv zeta in Hnth. rewrite (Hnth j Hj), nth_zeros, Rplus_0_l.
    rewrite combine_seq_nth, map_map. reflexivity.
Qed.

Lemma length_state_to_wavefunction (x coeffs : list R) :
  length (state_to_wavefunction self x coeffs) = length x.
Proof.
  unfold state_to_wavefunction.
  apply (state_to_wavefunction_loop x
           (combine (seq 0 (length coeffs)) coeffs) (np.zeros (length x))).
  apply length_zeros.
Qed.

Lemma Rsum_single (f : nat -> R) (len m : nat) :
  (forall n, n <> m -> f n = 0) ->
  Rsum (map f (seq 0 len)) = if (m <? len)%nat then f m else 0.
Proof.
  intros Hf. induction len as [|len IH].
  - reflexivity.
  - rewrite seq_S, map_app, Rsum_app, IH. cbn [Nat.add map].
    rewrite Rsum_cons. unfold Rsum at 1. cbn [fold_right].
    destruct (Nat.ltb_spec m len), (Nat.ltb_spec m (S len)); try lia.
    + rewrite (Hf len) by lia. ring.
    + replace len with m by lia. ring.
    + rewrite (Hf len) by lia. ring.
Qed.

(** X10.  [state_to_wavefunction] returns one sample per grid point, the
    sum over the levels of [c_n * psi_n(x_j)] taken over the coefficients
    of magnitude above [1e-10]; on a basis state [|n>] it returns the
    sampled eigenfunction [psi_n]. *)
Theorem state_to_wavefunction_samples (x coeffs : list R) :
  length (state_to_wavefunction self x coeffs) = length x /\
  (forall j, (j < length x)%nat ->
     nth j (state_to_wavefunction self x coeffs) 0 =
     Rsum (map (fun n =>
                  if Rlt_dec 1e-10 (Rabs (nth n coeffs 0))
                  then nth n coeffs 0 * psi_n self (nth j x 0) n else 0)
             (seq 0 (length coeffs)))) /\
  (forall n_max n basis,
     reset_state n_max n = Ok basis ->
     state_to_wavefunction self x basis = map (fun xj => psi_n self xj n) x).
Proof.
  split; [apply length_state_to_wavefunction|]. split.
  - intros j Hj. apply state_to_wavefunction_nth. exact Hj.
  - intros n_max n basis Hreset.
    assert (Hn : (n < n_max)%nat).
    { unfold reset_state, setitem in Hreset. rewrite length_zeros in Hreset.
      destruct (Nat.ltb_spec n n_max); [assumption | discriminate]. }
    rewrite reset_state_in_range in Hreset by exact Hn.
    injection Hreset as <-.
    apply (nth_ext _ _ 0 0).
    + rewrite length_state_to_wavefunction, length_map. reflexivity.
    + rewrite length_state_to_wavefunction. intros j Hj.
      rewrite state_to_wavefunction_nth by exact Hj.
      rewrite (nth_map_in_range _ _ _ 0) by exact Hj.
      rewrite length_update, length_zeros.
      rewrite (Rsum_single _ _ n).
      * destruct (Nat.ltb_spec n n_max); [|lia].
        rewrite nth_basis_state by exact Hn. rewrite Nat.eqb_refl.
        unfold contribution. rewrite Rabs_R1.
        destruct (Rlt_dec 1e-10 1); [ring | lra].
      * intros n' Hn'. rewrite nth_basis_state by exact Hn.
        destruct (Nat.eqb_spec n' n); [contradiction|].
        unfold contribution. rewrite Rabs_R0.
        destruct (Rlt_dec 1e-10 0); [lra | reflexivity].
Qed.

(** X11.  A state all of whose coefficients have magnitude at most
    [1e-10] is drawn as the zero wavefunction: [state_to_wavefunction]
    skips every term and returns zeros.  In particular this is what the
    zero vector left by annihilating the vacuum gives. *)
Theorem negligible_state_renders_zero (x coeffs : list R) :
  (forall c, In c coeffs -> Rabs c <= 1e-10) ->
  state_to_wavefunction self x coeffs = np.zeros (length x).
Proof.
  intros Hsmall. apply (nth_ext _ _ 0 0).
  - rewrite length_state_to_wavefunction, length_zeros. reflexivity.
  - rewrite length_state_to_wavefunction. intros j Hj.
    rewrite state_to_wavefunction_nth by exact Hj. rewrite nth_zeros.
    rewrite (Rsum_map_ext_in _ (fun _ => 0)).
    + clear. induction (seq 0 (length coeffs)) as [|n l IH];
        [reflexivity | rewrite map_cons, Rsum_cons, IH; ring].
    + intros n Hn. apply in_seq in Hn. unfold contribution.
      destruct (Rlt_dec 1e-10 (Rabs (nth n coeffs 0))) as [Hbig|_];
        [|reflexivity].
      exfalso. assert (Rabs (nth n coeffs 0) <= 1e-10).
      { apply Hsmall. apply nth_In. lia. }
      lra.
Qed.

End OscillatorWavefunctions.

Lemma negligible_state_renders_zero_witness :
  QuantumHarmonicOscillator.state_to_wavefunction
    (QuantumHarmonicOscillator.__init__ 1 1 1) [-1; 0; 1] [1e-10; 0; -1e-11] =
  np.zeros (length [-1; 0; 1]).
Proof.
  apply negligible_state_renders_zero.
  intros c [<-|[<-|[<-|[]]]].
  - rewrite Rabs_right; lra.
  - rewrite Rabs_R0. lra.
  - rewrite Rabs_left; lra.
Defined.

(** ** The eigenfunctions of the oscillator *)

Section OscillatorEigenfunctions.

Import QuantumHarmonicOscillator.

Lemma hermite_pair_parity (n : nat) (x : R) :
  fst (scipy.hermite_pair n (- x)) = (-1) ^ n * fst (scipy.hermite_pair n x) /\
  snd (scipy.hermite_pair n (- x)) = (-1) ^ S n * snd (scipy.hermite_pair n x).
Proof.
  induction n as [|n [IH1 IH2]].
  - simpl. split; ring.
  - cbn [scipy.hermite_pair fst snd]. split.
    + exact IH2.
    + rewrite IH1, IH2. simpl. ring.
Qed.

Lemma hermite_recurrence (n : nat) (x : R) :
  scipy.hermite (S (S n)) x =
  2 * x * scipy.hermite (S n) x - 2 * INR (S n) * scipy.hermite n x.
Proof. reflexivity. Qed.

(** The square root under the normalisation constant of level [n]. *)
Lemma level_norm_pos (n : nat) : 0 < sqrt (2 ^ n * scipy.factorial n).
Proof.
  apply sqrt_lt_R0. apply Rmult_lt_0_compat.
  - apply pow_lt. lra.
  - unfold scipy.factorial. apply lt_0_INR. apply lt_O_fact.
Qed.

Lemma level_norm_succ (n : nat) :
  sqrt (2 ^ S n * scipy.factorial (S n)) =
  sqrt 2 * sqrt (INR (S n)) * sqrt (2 ^ n * scipy.factorial n).
Proof.
  unfold scipy.factorial.
  replace (2 ^ S n * INR (fact (S n)))
    with (2 * INR (S n) * (2 ^ n * INR (fact n))).
  - assert (H2n : 0 <= 2 * INR (S n)).
    { pose proof (pos_INR (S n)). lra. }
    rewrite sqrt_mult_alt by exact H2n.
    rewrite sqrt_mult_alt by lra. reflexivity.
  - change (fact (S n)) with (S n * fact n)%nat.
    rewrite mult_INR. simpl pow. ring.
Qed.

(** X12.  The eigenfunctions have the parity of their level,
    [psi_n(-x) = (-1)^n psi_n(x)], and obey the ladder recurrence
    [sqrt(n+1) psi_(n+1)(x) + sqrt(n) psi_(n-1)(x) = sqrt(2) (x/x0) psi_n(x)],
    with the same factors [sqrt(n+1)] and [sqrt(n)] the creation and
    annihilation operators put on the coefficients. *)
Theorem psi_n_parity_and_ladder (m omega hbar x : R) (n : nat) :
  0 < m -> 0 < omega -> 0 < hbar ->
  psi_n (__init__ m omega hbar) (- x) n =
    (-1) ^ n * psi_n (__init__ m omega hbar) x n /\
  sqrt (INR (n + 1)) * psi_n (__init__ m omega hbar) x (n + 1)
  + sqrt (INR n) * psi_n (__init__ m omega hbar) x (n - 1)
  = sqrt 2 * (x / x0 (__init__ m omega hbar))
    * psi_n (__init__ m omega hbar) x n.
Proof.
  intros _ _ _. unfold psi_n, __init__.
  cbn [QuantumHarmonicOscillator.m QuantumHarmonicOscillator.omega
       QuantumHarmonicOscillator.hbar QuantumHarmonicOscillator.x0].
  set (amp := Rpower (m * omega / (PI * hbar)) (1 / 4)).
  set (xi := x / sqrt (hbar / (m * omega))).
  split.
  - replace (- x / sqrt (hbar / (m * omega))) with (- xi)
      by (unfold xi, Rdiv; ring).
    unfold scipy.hermite. rewrite (proj1 (hermite_pair_parity n xi)).
    replace ((- xi) ^ 2) with (xi ^ 2) by ring. ring.
  - set (gauss := exp (- xi ^ 2 / 2)).
    assert (Hs2 : sqrt 2 * sqrt 2 = 2) by (apply sqrt_sqrt; lra).
    assert (Hs2pos : 0 < sqrt 2) by (apply sqrt_lt_R0; lra).
    destruct n as [|n].
    + cbn [Nat.add Nat.sub]. rewrite level_norm_succ.
      pose proof (level_norm_pos 0) as Hpos.
      set (s0 := sqrt (2 ^ 0 * scipy.factorial 0)) in *.
      unfold scipy.hermite. cbn [scipy.hermite_pair fst snd].
      change (INR 0) with 0. rewrite sqrt_0.
      change (INR 1) with 1. rewrite sqrt_1.
      revert Hs2 Hs2pos. generalize (sqrt 2). intros r Hr Hrpos.
      rewrite <- Hr. field. split; lra.
    + replace (S n + 1)%nat with (S (S n)) by lia.
      replace (S n - 1)%nat with n by lia.
      rewrite hermite_recurrence.
      rewrite (level_norm_succ (S n)), (level_norm_succ n).
      pose proof (level_norm_pos n) as Hpos.
      set (s := sqrt (2 ^ n * scipy.factorial n)) in *.
      assert (Hk1 : 0 < sqrt (INR (S n))).
      { apply sqrt_lt_R0. apply lt_0_INR. lia. }
      assert (Hk2 : 0 < sqrt (INR (S (S n)))).
      { apply sqrt_lt_R0. apply lt_0_INR. lia. }
      assert (Hsq1 : sqrt (INR (S n)) * sqrt (INR (S n)) = INR (S n)).
      { apply sqrt_sqrt. apply pos_INR. }
      set (h1 := scipy.hermite (S n) xi). set (h0 := scipy.hermite n xi).
      set (k1 := sqrt (INR (S n))) in *. set (k2 := sqrt (INR (S (S n)))) in *.
      rewrite <- Hsq1.
      revert Hs2 Hs2pos. generalize (sqrt 2). intros r Hr Hrpos.
      rewrite <- Hr. field. repeat split; lra.
Qed.

Lemma psi_n_parity_and_ladder_witness :
  psi_n (__init__ 1 1 1) (- 2) 3 = (-1) ^ 3 * psi_n (__init__ 1 1 1) 2 3 /\
  sqrt (INR (3 + 1)) * psi_n (__init__ 1 1 1) 2 (3 + 1)
  + sqrt (INR 3) * psi_n (__init__ 1 1 1) 2 (3 - 1)
  = sqrt 2 * (2 / x0 (__init__ 1 1 1)) * psi_n (__init__ 1 1 1) 2 3.
Proof.
  apply (psi_n_parity_and_ladder 1 1 1 2 3); lra.
Defined.

End OscillatorEigenfunctions.

(** ** The grid of the engine and the walls of the box *)

Section GridAndWalls.

Import ParticleInBox.

Lemma points_minus_one (n_points : Z) :
  (2 <= n_points)%Z -> IZR n_points - 1 = INR (Z.to_nat n_points - 1).
Proof.
  intros Hn. rewrite INR_IZR_INZ.
  replace (Z.of_nat (Z.to_nat n_points - 1)) with (n_points - 1)%Z by lia.
  rewrite minus_IZR. reflexivity.
Qed.

Lemma init_ok_points (L : R) (n_max : nat) (n_points : Z)
  (self : ParticleInBox.t) :
  __init__ L n_max n_points = Ok self -> (2 <= n_points)%Z.
Proof.
  intros Hinit. unfold __init__, np.linspace in Hinit.
  destruct (Z.ltb_spec n_points 0) as [Hneg|Hpos]; [discriminate|].
  destruct (Z_lt_le_dec n_points 2) as [Hsmall|Hok]; [|exact Hok].
  assert (Hcases : n_points = 0%Z \/ n_points = 1%Z) by lia.
  destruct Hcases as [-> | ->]; discriminate.
Qed.

Lemma init_dx (L : R) (n_max : nat) (n_points : Z) (self : ParticleInBox.t) :
  __init__ L n_max n_points = Ok self ->
  dx self = L / INR (Z.to_nat n_points - 1).
Proof.
  intros Hinit. pose proof (init_ok_points _ _ _ _ Hinit) as Hn.
  rewrite <- (points_minus_one n_points Hn).
  unfold __init__, np.linspace in Hinit.
  destruct (Z.ltb_spec n_points 0) as [Hneg|_]; [lia|].
  destruct (Z.to_nat n_points) as [|[|k]] eqn:Hk; try lia.
  cbn [seq map bind getitem nth_error] in Hinit.
  injection Hinit as <-. cbn [dx]. simpl INR. unfold Rdiv. ring.
Qed.

Lemma grid_endpoints (L : R) (n_max : nat) (n_points : Z)
  (self : ParticleInBox.t) :
  __init__ L n_max n_points = Ok self ->
  0 < L ->
  ParticleInBox.L self = L /\
  length (x self) = Z.to_nat n_points /\
  (forall j, (j < length (x self))%nat ->
     nth j (x self) 0 = INR j * (L / INR (Z.to_nat n_points - 1))) /\
  nth 0 (x self) 0 = 0 /\
  nth (length (x self) - 1) (x self) 0 = L.
Proof.
  intros Hinit HL.
  pose proof (init_ok_points _ _ _ _ Hinit) as Hn.
  destruct (init_grid L n_max n_points self Hinit Hn) as (HLs & _ & Hx).
  set (M := (Z.to_nat n_points - 1)%nat) in *.
  assert (HMR : 0 < INR M) by (apply lt_0_INR; unfold M; lia).
  assert (Hlen : length (x self) = S M)
    by (rewrite Hx, length_map, length_seq; reflexivity).
  assert (Hnth : forall j, (j < length (x self))%nat ->
            nth j (x self) 0 = INR j * (L / INR M)).
  { intros j Hj. rewrite Hlen in Hj. rewrite Hx.
    rewrite (nth_map_in_range _ _ _ 0%nat) by (rewrite length_seq; lia).
    rewrite seq_nth by lia. rewrite HLs. reflexivity. }
  split; [exact HLs|]. split; [rewrite Hlen; unfold M; lia|].
  split; [exact Hnth|]. split.
  - rewrite Hnth by lia. simpl. ring.
  - rewrite Hnth by lia. rewrite Hlen.
    replace (S M - 1)%nat with M by lia. field. lra.
Qed.

(** X13.  The grid of a constructed engine over a box of positive length
    has [n_points] samples, starts at [0], ends at [L], and is uniform and
    increasing: consecutive samples differ by [dx = L / (n_points - 1) > 0]. *)
Theorem init_grid_uniform (L : R) (n_max : nat) (n_points : Z)
  (self : ParticleInBox.t) :
  __init__ L n_max n_points = Ok self ->
  0 < L ->
  (2 <= n_points)%Z /\
  length (x self) = Z.to_nat n_points /\
  nth 0 (x self) 0 = 0 /\
  nth (length (x self) - 1) (x self) 0 = L /\
  0 < dx self /\
  dx self * (IZR n_points - 1) = L /\
  forall j, (j + 1 < length (x self))%nat ->
    nth (j + 1) (x self) 0 - nth j (x self) 0 = dx self.
Proof.
  intros Hinit HL.
  pose proof (init_ok_points _ _ _ _ Hinit) as Hn.
  destruct (grid_endpoints L n_max n_points self Hinit HL)
    as (_ & Hlen & Hnth & H0 & Hlast).
  pose proof (init_dx L n_max n_points self Hinit) as Hdx.
  pose proof (points_minus_one n_points Hn) as Hpm.
  assert (HMR : 0 < INR (Z.to_nat n_points - 1)) by (apply lt_0_INR; lia).
  split; [exact Hn|]. split; [exact Hlen|]. split; [exact H0|].
  split; [exact Hlast|].
  split; [rewrite Hdx; apply Rdiv_lt_0_compat; assumption|].
  split.
  - rewrite Hdx, Hpm. field. lra.
  - intros j Hj. rewrite !Hnth by lia. rewrite Hdx, plus_INR. simpl.
    field. lra.
Qed.

Lemma init_grid_uniform_witness :
  exists self,
    __init__ 1 5 1000 = Ok self /\
    (2 <= 1000)%Z /\
    length (x self) = Z.to_nat 1000 /\
    nth 0 (x self) 0 = 0 /\
    nth (length (x self) - 1) (x self) 0 = 1 /\
    0 < dx self /\
    dx self * (IZR 1000 - 1) = 1 /\
    forall j, (j + 1 < length (x self))%nat ->
      nth (j + 1) (x self) 0 - nth j (x self) 0 = dx self.
Proof.
  eexists. split; [reflexivity|].
  apply (init_grid_uniform 1 5 1000); [reflexivity | lra].
Defined.

Lemma Csum_all_zero {A : Type} (f : A -> C) (l : list A) :
  (forall a, In a l -> f a = C0) -> Csum (map f l) = C0.
Proof.
  intros H. induction l as [|a l IH]; [reflexivity|].
  cbn [map Csum fold_right]. fold (Csum (map f l)).
  rewrite IH by (intros b Hb; apply H; right; exact Hb).
  rewrite (H a) by (left; reflexivity). apply Cplus_0_l.
Qed.

Lemma position_wavefunction_at_walls (self : ParticleInBox.t) (n : nat) :
  ParticleInBox.L self <> 0 ->
  position_wavefunction self n 0 = 0 /\
  position_wavefunction self n (ParticleInBox.L self) = 0.
Proof.
  intros HL. unfold position_wavefunction. split.
  - replace (INR (n + 1) * PI * 0 / ParticleInBox.L self) with 0
      by (unfold Rdiv; ring).
    rewrite sin_0. ring.
  - replace (INR (n + 1) * PI * ParticleInBox.L self / ParticleInBox.L self)
      with (IZR (Z.of_nat (n + 1)) * PI)
      by (rewrite <- INR_IZR_INZ; field; exact HL).
    rewrite sin_nat_PI. ring.
Qed.

(** X14.  Whatever the coefficients, the wavefunction [energy_to_position]
    samples on the grid of a constructed engine vanishes at both walls of
    the box: its first and its last sample are zero. *)
Theorem energy_to_position_vanishes_at_walls (L : R) (n_max : nat)
  (n_points : Z) (self : ParticleInBox.t) (c : list C) :
  __init__ L n_max n_points = Ok self ->
  0 < L ->
  nth 0 (energy_to_position self c) C0 = C0 /\
  nth (length (energy_to_position self c) - 1) (energy_to_position self c) C0
    = C0.
Proof.
  intros Hinit HL.
  pose proof (init_ok_points _ _ _ _ Hinit) as Hn.
  destruct (grid_endpoints L n_max n_points self Hinit HL)
    as (HLs & Hlen & _ & H0 & Hlast).
  assert (HLne : ParticleInBox.L self <> 0) by (rewrite HLs; lra).
  rewrite length_energy_to_position. split.
  - rewrite nth_energy_to_position by lia. rewrite H0.
    apply Csum_all_zero. intros n _.
    rewrite (proj1 (position_wavefunction_at_walls self n HLne)).
    apply Cmult_0_r.
  - rewrite nth_energy_to_position by lia. rewrite Hlast, <- HLs.
    apply Csum_all_zero. intros n _.
    rewrite (proj2 (position_wavefunction_at_walls self n HLne)).
    apply Cmult_0_r.
Qed.

Lemma energy_to_position_vanishes_at_walls_witness :
  exists self,
    __init__ 1 5 1000 = Ok self /\
    nth 0 (energy_to_position self [RtoC 1; RtoC 1]) C0 = C0 /\
    nth (length (energy_to_position self [RtoC 1; RtoC 1]) - 1)
      (energy_to_position self [RtoC 1; RtoC 1]) C0 = C0.
Proof.
  eexists. split; [reflexivity|].
  apply (energy_to_position_vanishes_at_walls 1 5 1000);
    [reflexivity | lra].
Defined.

Lemma length_czeros (k : nat) : length (np.czeros k) = k.
Proof. apply repeat_length. Qed.

(** X15.  On a unit coefficient vector, as [show_individual_states] builds
    them, [energy_to_position] returns the sampled eigenfunction of that
    level. *)
Theorem energy_to_position_of_basis_vector (self : ParticleInBox.t)
  (k n : nat) :
  (n < k)%nat ->
  energy_to_position self (update (np.czeros k) n (RtoC 1)) =
  map (fun xj => RtoC (position_wavefunction self n xj)) (x self).
Proof.
  intros Hn. apply (nth_ext _ _ C0 C0).
  - rewrite length_energy_to_position, length_map. reflexivity.
  - rewrite length_energy_to_position. intros j Hj.
    rewrite nth_energy_to_position by exact Hj.
    rewrite (nth_map_in_range _ _ _ 0) by exact Hj.
    rewrite length_update, length_czeros.
    rewrite (Csum_single _ _ n).
    + destruct (Nat.ltb_spec n k); [|lia].
      rewrite nth_update_eq by (rewrite length_czeros; exact Hn).
      cx_unfold. f_equal; ring.
    + intros n' Hn'. rewrite nth_update_neq by congruence.
      rewrite nth_czeros. cx_unfold. f_equal; ring.
Qed.

Lemma energy_to_position_of_basis_vector_witness :
  energy_to_position (mk 1 5 [0; 1 / 2; 1] (1 / 2))
    (update (np.czeros 5) 2 (RtoC 1)) =
  map (fun xj => RtoC (position_wavefunction (mk 1 5 [0; 1 / 2; 1] (1 / 2)) 2 xj))
    (x (mk 1 5 [0; 1 / 2; 1] (1 / 2))).
Proof.
  apply (energy_to_position_of_basis_vector (mk 1 5 [0; 1 / 2; 1] (1 / 2)) 5 2).
  lia.
Defined.

End GridAndWalls.

(** ** [position_to_energy] as a linear projection *)

Section Projection.

Import ParticleInBox.

Lemma nth_scaled_complex (k : C) (a : list C) (j : nat) :
  nth j (map (Cmult k) a) C0 = Cmult k (nth j a C0).
Proof.
  rewrite <- (Cmult_0_r k) at 1. apply (map_nth (Cmult k)).
Qed.

Lemma nth_complex_combination (a b : C) (u v : list C) (j : nat) :
  length u = length v ->
  nth j (np.add (map (Cmult a) u) (map (Cmult b) v)) C0 =
  Cplus (Cmult a (nth j u C0)) (Cmult b (nth j v C0)).
Proof.
  intros H. rewrite nth_add by (rewrite !length_map; exact H).
  rewrite !nth_scaled_complex. reflexivity.
Qed.

Lemma length_complex_combination (a b : C) (u v : list C) :
  length u = length v ->
  length (np.add (map (Cmult a) u) (map (Cmult b) v)) = length u.
Proof.
  intros H. rewrite length_add; rewrite !length_map; congruence.
Qed.

(** [np.trapz] is linear in the integrand. *)
Lemma trapz_linear (a b : C) (y z : list C) (xs : list R) :
  length y = length xs -> length z = length xs ->
  np.trapz (np.add (map (Cmult a) y) (map (Cmult b) z)) xs =
  Cplus (Cmult a (np.trapz y xs)) (Cmult b (np.trapz z xs)).
Proof.
  intros Hy Hz.
  rewrite !trapz_index
    by (rewrite ?length_complex_combination; congruence).
  rewrite <- !Csum_map_mult, <- Csum_map_plus.
  apply Csum_map_ext. intros j _.
  rewrite !nth_complex_combination by congruence.
  generalize (nth (S j) xs 0 - nth j xs 0) (nth (S j) y C0) (nth j y C0)
    (nth (S j) z C0) (nth j z C0).
  intros d y1 y0 z1 z0. destruct a, b, y1, y0, z1, z0.
  cx_unfold. f_equal; field.
Qed.

Lemma multiply_linear (w : list C) (a b : C) (y z : list C) :
  length y = length w -> length z = length w ->
  np.multiply w (np.add (map (Cmult a) y) (map (Cmult b) z)) =
  np.add (map (Cmult a) (np.multiply w y)) (map (Cmult b) (np.multiply w z)).
Proof.
  intros Hy Hz. apply (nth_ext _ _ C0 C0).
  - rewrite length_multiply
      by (rewrite length_complex_combination; congruence).
    rewrite length_complex_combination
      by (rewrite !length_multiply; congruence).
    rewrite length_multiply; congruence.
  - intros j _.
    rewrite nth_multiply by (rewrite length_complex_combination; congruence).
    rewrite !nth_complex_combination
      by (rewrite ?length_multiply; congruence).
    rewrite !nth_multiply by congruence.
    generalize (nth j w C0) (nth j y C0) (nth j z C0).
    intros w0 y0 z0. destruct a, b, w0, y0, z0. cx_unfold. f_equal; ring.
Qed.

(** X16.  [position_to_energy] always returns [n_max] coefficients, and on
    samples aligned with the grid it is linear. *)
Theorem position_to_energy_linear (self : ParticleInBox.t) (a b : C)
  (psi phi : list C) :
  length psi = length (x self) ->
  length phi = length (x self) ->
  length (position_to_energy self psi) = n_max self /\
  position_to_energy self (np.add (map (Cmult a) psi) (map (Cmult b) phi)) =
  np.add (map (Cmult a) (position_to_energy self psi))
         (map (Cmult b) (position_to_energy self phi)).
Proof.
  intros Hpsi Hphi. split; [apply length_position_to_energy|].
  apply (nth_ext _ _ C0 C0).
  - rewrite length_complex_combination
      by (rewrite !length_position_to_energy; reflexivity).
    rewrite !length_position_to_energy. reflexivity.
  - rewrite length_position_to_energy. intros n Hn.
    rewrite nth_complex_combination
      by (rewrite !length_position_to_energy; reflexivity).
    rewrite !position_to_energy_map.
    rewrite !(nth_map_in_range _ _ _ 0%nat) by (rewrite length_seq; exact Hn).
    rewrite seq_nth by exact Hn. cbn [Nat.add].
    rewrite multiply_linear by (rewrite length_map; assumption).
    apply trapz_linear; rewrite length_multiply; rewrite length_map; congruence.
Qed.

Lemma position_to_energy_linear_witness :
  length (position_to_energy (mk 1 2 [0; 1 / 2; 1] (1 / 2))
            [C0; RtoC 1; C0]) = 2%nat /\
  position_to_energy (mk 1 2 [0; 1 / 2; 1] (1 / 2))
    (np.add (map (Cmult Ci) [C0; RtoC 1; C0])
            (map (Cmult (RtoC 2)) [C0; Ci; C0])) =
  np.add (map (Cmult Ci)
            (position_to_energy (mk 1 2 [0; 1 / 2; 1] (1 / 2)) [C0; RtoC 1; C0]))
         (map (Cmult (RtoC 2))
            (position_to_energy (mk 1 2 [0; 1 / 2; 1] (1 / 2)) [C0; Ci; C0])).
Proof.
  apply (position_to_energy_linear (mk 1 2 [0; 1 / 2; 1] (1 / 2)));
    reflexivity.
Defined.

(** X17.  Decomposing, reconstructing and decomposing again changes
    nothing: on the grid of a constructed engine with fewer basis states
    than grid intervals, the coefficients of the wavefunction reconstructed
    from samples aligned with the grid are the coefficients it was
    reconstructed from. *)
Theorem reconstruction_keeps_coefficients (L : R) (n_max : nat)
  (n_points : Z) (self : ParticleInBox.t) (psi : list C) :
  __init__ L n_max n_points = Ok self ->
  0 < L ->
  (Z.of_nat n_max + 2 <= n_points)%Z ->
  length psi = length (x self) ->
  position_to_energy self
    (energy_to_position self (position_to_energy self psi)) =
  position_to_energy self psi.
Proof.
  intros Hinit HL Hfine _.
  pose proof (init_ok_points _ _ _ _ Hinit) as Hn.
  destruct (init_grid L n_max n_points self Hinit Hn) as (HLs & Hns & Hx).
  rewrite <- HLs in HL.
  apply (nth_ext _ _ C0 C0).
  - rewrite !length_position_to_energy. reflexivity.
  - rewrite length_position_to_energy. intros m Hm.
    rewrite round_trip_nth by exact Hm.
    rewrite (Csum_map_ext _
      (fun n => Cmult (nth n (position_to_energy self psi) C0)
                  (RtoC (delta m n)))).
    + apply Csum_delta.
    + intros n Hin. apply in_seq in Hin.
      rewrite length_position_to_energy in Hin.
      rewrite (quadrature_overlap_uniform self (Z.to_nat n_points - 1) HL)
        by (try exact Hx; lia).
      reflexivity.
Qed.

Lemma reconstruction_keeps_coefficients_witness :
  exists self,
    __init__ 1 5 1000 = Ok self /\
    position_to_energy self
      (energy_to_position self
         (position_to_energy self (map (fun xj => RtoC (xj * (1 - xj))) (x self)))) =
    position_to_energy self (map (fun xj => RtoC (xj * (1 - xj))) (x self)).
Proof.
  eexists. split; [reflexivity|].
  apply (reconstruction_keeps_coefficients 1 5 1000);
    [reflexivity | lra | lia | apply length_map].
Defined.

End Projection.

(** ** Linearity of the ladder operators *)

Section LadderLinearity.

Import QuantumHarmonicOscillator.

Lemma Re_real_combination (a b : R) (z w : C) :
  Re (Cplus (Cmult (RtoC a) z) (Cmult (RtoC b) w)) = a * Re z + b * Re w.
Proof. destruct z, w. cx_unfold. ring. Qed.

(** X6.  Both ladder operators are linear over the reals: applied to a
    combination [a u + b v], with real [a] and [b], of two vectors of real
    or complex coefficients of one length, each returns the same combination
    of its results on [u] and [v].  They are not linear over the complex
    numbers: [apply_creation] sends [1j * [1, 0]] to the zero vector and
    [[1, 0]] to [[0, 1]]. *)
Theorem ladder_operators_linear (a b : R) (u v : list C) :
  length u = length v ->
  (exists cu cv,
     apply_creation u = Ok cu /\ apply_creation v = Ok cv /\
     apply_creation (np.add (map (Cmult (RtoC a)) u) (map (Cmult (RtoC b)) v)) =
     Ok (np.add_real (map (Rmult a) cu) (map (Rmult b) cv))) /\
  (exists au av,
     apply_annihilation u = Ok au /\ apply_annihilation v = Ok av /\
     apply_annihilation
       (np.add (map (Cmult (RtoC a)) u) (map (Cmult (RtoC b)) v)) =
     Ok (np.add_real (map (Rmult a) au) (map (Rmult b) av))) /\
  (apply_creation (map (Cmult Ci) [RtoC 1; C0]) = Ok [0; 0] /\
   apply_creation [RtoC 1; C0] = Ok [0; 1]).
Proof.
  intros Huv. split; [|split].
  - destruct (apply_creation_entries_complex u) as (cu & Hcu & Hlu & Hnu).
    destruct (apply_creation_entries_complex v) as (cv & Hcv & Hlv & Hnv).
    destruct (apply_creation_entries_complex
                (np.add (map (Cmult (RtoC a)) u) (map (Cmult (RtoC b)) v)))
      as (cw & Hcw & Hlw & Hnw).
    exists cu, cv. split; [exact Hcu|]. split; [exact Hcv|].
    rewrite Hcw. f_equal.
    rewrite length_complex_combination in Hlw, Hnw by exact Huv.
    apply (nth_ext _ _ 0 0).
    + rewrite length_combination by congruence. congruence.
    + intros j _. rewrite Hnw, nth_complex_combination by exact Huv.
      rewrite nth_combination by congruence.
      rewrite Re_real_combination, Hnu, Hnv, <- Huv.
      destruct ((0 <? j) && (j <? length u))%nat; ring.
  - destruct (apply_annihilation_entries_complex u) as (au & Hau & Hlu & Hnu).
    destruct (apply_annihilation_entries_complex v) as (av & Hav & Hlv & Hnv).
    destruct (apply_annihilation_entries_complex
                (np.add (map (Cmult (RtoC a)) u) (map (Cmult (RtoC b)) v)))
      as (aw & Haw & Hlw & Hnw).
    exists au, av. split; [exact Hau|]. split; [exact Hav|].
    rewrite Haw. f_equal.
    rewrite length_complex_combination in Hlw, Hnw by exact Huv.
    apply (nth_ext _ _ 0 0).
    + rewrite length_combination by congruence. congruence.
    + intros j _. rewrite Hnw, nth_complex_combination by exact Huv.
      rewrite nth_combination by congruence.
      rewrite Re_real_combination, Hnu, Hnv, <- Huv.
      destruct (j + 1 <? length u)%nat; ring.
  - split.
    + destruct (apply_creation_entries_complex (map (Cmult Ci) [RtoC 1; C0]))
        as (new & Hrun & Hlen & Hnth).
      rewrite Hrun. f_equal. apply two_entries; [exact Hlen| |].
      * rewrite Hnth. reflexivity.
      * rewrite Hnth. cbn [map length Nat.ltb Nat.leb andb Nat.sub nth].
        cx_unfold. ring.
    + destruct (apply_creation_entries_complex [RtoC 1; C0])
        as (new & Hrun & Hlen & Hnth).
      rewrite Hrun. f_equal. apply two_entries; [exact Hlen| |].
      * rewrite Hnth. reflexivity.
      * rewrite Hnth. cbn [length Nat.ltb Nat.leb andb Nat.sub nth].
        rewrite sqrt_INR_1. cbn [Re RtoC fst]. ring.
Qed.

Lemma ladder_operators_linear_witness :
  (exists cu cv,
     apply_creation [Ci; RtoC 1; C0] = Ok cu /\
     apply_creation [C0; RtoC 1; C0] = Ok cv /\
     apply_creation (np.add (map (Cmult (RtoC 2)) [Ci; RtoC 1; C0])
                            (map (Cmult (RtoC 3)) [C0; RtoC 1; C0])) =
     Ok (np.add_real (map (Rmult 2) cu) (map (Rmult 3) cv))) /\
  (exists au av,
     apply_annihilation [Ci; RtoC 1; C0] = Ok au /\
     apply_annihilation [C0; RtoC 1; C0] = Ok av /\
     apply_annihilation
       (np.add (map (Cmult (RtoC 2)) [Ci; RtoC 1; C0])
               (map (Cmult (RtoC 3)) [C0; RtoC 1; C0])) =
     Ok (np.add_real (map (Rmult 2) au) (map (Rmult 3) av))) /\
  (apply_creation (map (Cmult Ci) [RtoC 1; C0]) = Ok [0; 0] /\
   apply_creation [RtoC 1; C0] = Ok [0; 1]).
Proof.
  apply (ladder_operators_linear 2 3 [Ci; RtoC 1; C0] [C0; RtoC 1; C0]).
  reflexivity.
Defined.

End LadderLinearity.

(** ** Unitary propagation of the two-level system *)

Section Propagation.

Import TwoLevel.

Lemma expectation_values_analytical (E0 E1 x0 x1 t : R) :
  X_squared_expectation_at E0 E1 x0 x1 t = X2_analytical_at E0 E1 x0 x1 t /\
  X_expectation_at E0 E1 x0 x1 t = X_analytical_at E0 E1 x0 x1 t.
Proof.
  assert (Hc : c0 ^ 2 = 1 / 2) by (simpl; rewrite Rmult_1_r; apply c0_sq).
  split.
  - rewrite X_squared_expectation_closed_form. unfold X2_analytical_at.
    rewrite Hc. field.
  - rewrite X_expectation_closed_form. unfold X_analytical_at.
    rewrite Hc. field.
Qed.

(** X18.  The propagator [U(t) = expm(-i H t / hbar)] of the script is
    unitary and composes additively in time, so that propagating a state
    by [t] and then by [-t] gives the initial state back. *)
Theorem propagator_unitary (E0 E1 s t : R) :
  matmul (conjT (U_t E0 E1 t)) (U_t E0 E1 t) = identity /\
  matmul (U_t E0 E1 s) (U_t E0 E1 t) = U_t E0 E1 (s + t) /\
  matmul (U_t E0 E1 (- t)) (psi_t E0 E1 t) = psi_0.
Proof.
  assert (Hcompose : forall a b,
            matmul (U_t E0 E1 a) (U_t E0 E1 b) = U_t E0 E1 (a + b)).
  { intros a b. rewrite !U_t_entries. mat_compute. cx_unfold.
    rewrite !Rmult_plus_distr_l, !cos_plus, !sin_plus.
    mat_eq; ring. }
  assert (Hzero : U_t E0 E1 0 = identity).
  { rewrite U_t_entries. rewrite !Rmult_0_r, cos_0, sin_0.
    unfold identity, C0, RtoC. mat_eq; ring. }
  split; [|split].
  - rewrite U_t_entries. unfold identity. mat_compute. cx_unfold.
    pose proof (sin2_cos2 (E0 * t)) as H0.
    pose proof (sin2_cos2 (E1 * t)) as H1. unfold Rsqr in H0, H1.
    mat_eq; try ring.
    + rewrite <- H0. ring.
    + rewrite <- H1. ring.
  - apply Hcompose.
  - unfold psi_t.
    replace (matmul (U_t E0 E1 (- t)) (matmul (U_t E0 E1 t) psi_0))
      with (matmul (matmul (U_t E0 E1 (- t)) (U_t E0 E1 t)) psi_0).
    + rewrite Hcompose. replace (- t + t) with 0 by ring. rewrite Hzero.
      unfold identity, psi_0. mat_compute. cx_unfold. mat_eq; ring.
    + rewrite !U_t_entries. unfold psi_0. mat_compute. cx_unfold.
      mat_eq; ring.
Qed.

(** X19.  The evolved state keeps norm 1 at every time. *)
Theorem propagation_preserves_norm (E0 E1 t : R) :
  matmul (conjT (psi_t E0 E1 t)) (psi_t E0 E1 t) = [[RtoC 1]] /\
  matmul (conjT psi_0) psi_0 = [[RtoC 1]].
Proof.
  assert (Hpsi0 : psi_0 = psi_t E0 E1 0).
  { rewrite psi_t_entries. rewrite !Rmult_0_r, cos_0, sin_0.
    unfold psi_0. mat_compute. cx_unfold. mat_eq; ring. }
  assert (Hnorm : forall u,
            matmul (conjT (psi_t E0 E1 u)) (psi_t E0 E1 u) = [[RtoC 1]]).
  { intros u. rewrite psi_t_entries. mat_compute. cx_unfold.
    pose proof (sin2_cos2 (E0 * u)) as H0.
    pose proof (sin2_cos2 (E1 * u)) as H1. unfold Rsqr in H0, H1.
    revert H0 H1. generalize c0_sq.
    generalize (cos (E0 * u)) (sin (E0 * u)) (cos (E1 * u)) (sin (E1 * u)) c0.
    intros u0 v0 u1 v1 k Hk H0 H1.
    mat_eq; try ring.
    transitivity ((k * k) * (v0 * v0 + u0 * u0) + (k * k) * (v1 * v1 + u1 * u1)).
    - ring.
    - rewrite Hk, H0, H1. field. }
  split; [apply Hnorm|]. rewrite Hpsi0. apply Hnorm.
Qed.

(** X20.  The expectation value of the position stays between the two
    position eigenvalues at every time. *)
Theorem expectation_between_eigenvalues (E0 E1 x0 x1 t : R) :
  Rmin x0 x1 <= X_expectation_at E0 E1 x0 x1 t <= Rmax x0 x1.
Proof.
  rewrite X_expectation_closed_form.
  pose proof (COS_bound (omega E0 E1 * t)) as [Hlo Hhi].
  revert Hlo Hhi. generalize (cos (omega E0 E1 * t)). intros u Hlo Hhi.
  unfold Rmin, Rmax. destruct (Rle_dec x0 x1); split; nra.
Qed.

(** X21.  When the two energies differ, the expectation value of the
    position and its standard deviation are periodic in time with period
    [2 pi / omega]. *)
Theorem expectation_periodic (E0 E1 x0 x1 t : R) :
  E0 <> E1 ->
  X_expectation_at E0 E1 x0 x1 (t + 2 * PI / omega E0 E1) =
    X_expectation_at E0 E1 x0 x1 t /\
  sigma_x_at E0 E1 x0 x1 (t + 2 * PI / omega E0 E1) =
    sigma_x_at E0 E1 x0 x1 t.
Proof.
  intros HE.
  assert (Hom : omega E0 E1 <> 0).
  { unfold omega, hbar. intros H. apply HE. lra. }
  assert (Hcos : cos (omega E0 E1 * (t + 2 * PI / omega E0 E1)) =
                 cos (omega E0 E1 * t)).
  { replace (omega E0 E1 * (t + 2 * PI / omega E0 E1))
      with (omega E0 E1 * t + 2 * PI) by (field; exact Hom).
    rewrite cos_plus, cos_2PI, sin_2PI. ring. }
  assert (HX : X_expectation_at E0 E1 x0 x1 (t + 2 * PI / omega E0 E1) =
               X_expectation_at E0 E1 x0 x1 t).
  { rewrite !X_expectation_closed_form, Hcos. reflexivity. }
  split; [exact HX|].
  unfold sigma_x_at. rewrite HX.
  rewrite !X_squared_expectation_closed_form, Hcos. reflexivity.
Qed.

Lemma expectation_periodic_witness :
  X_expectation_at 1 0 1 (-1) (3 + 2 * PI / omega 1 0) =
    X_expectation_at 1 0 1 (-1) 3 /\
  sigma_x_at 1 0 1 (-1) (3 + 2 * PI / omega 1 0) = sigma_x_at 1 0 1 (-1) 3.
Proof.
  apply (expectation_periodic 1 0 1 (-1) 3). lra.
Defined.

(** X22.  In exact arithmetic the variance under the square root of line
    158, [<X^2> - <X>^2], is [((x0 - x1)/2 * sin(omega t))^2] at every time:
    it is the radicand [X2_analytical - X_analytical^2] of line 168, lies
    between [0] and [((x0 - x1)/2)^2], and is [0] at [t = 0], where the state
    is the position eigenstate [|x0>].  Whenever line 158 yields a number,
    that number is [|x0 - x1|/2 * |sin(omega t)|].  (Whether [np.sqrt]
    yields [nan] on a radicand that rounding has pushed below zero is not
    part of the statement.) *)
Theorem variance_of_position (E0 E1 x0 x1 t : R) :
  X_squared_expectation_at E0 E1 x0 x1 t - X_expectation_at E0 E1 x0 x1 t ^ 2 =
    ((x0 - x1) / 2 * sin (omega E0 E1 * t)) ^ 2 /\
  X_squared_expectation_at E0 E1 x0 x1 t - X_expectation_at E0 E1 x0 x1 t ^ 2 =
    X2_analytical_at E0 E1 x0 x1 t - X_analytical_at E0 E1 x0 x1 t ^ 2 /\
  0 <= X_squared_expectation_at E0 E1 x0 x1 t
       - X_expectation_at E0 E1 x0 x1 t ^ 2 <= ((x0 - x1) / 2) ^ 2 /\
  X_squared_expectation_at E0 E1 x0 x1 0 - X_expectation_at E0 E1 x0 x1 0 ^ 2 = 0 /\
  (forall s : R,
     sigma_x_at E0 E1 x0 x1 t = Ok (Some s) ->
     s = Rabs ((x0 - x1) / 2) * Rabs (sin (omega E0 E1 * t))).
Proof.
  split; [apply variance_closed_form|]. split; [|split; [|split]].
  - destruct (expectation_values_analytical E0 E1 x0 x1 t) as [H1 H2].
    rewrite H1, H2. reflexivity.
  - rewrite variance_closed_form.
    pose proof (SIN_bound (omega E0 E1 * t)) as [Hlo Hhi].
    revert Hlo Hhi. generalize (sin (omega E0 E1 * t)). intros u Hlo Hhi.
    generalize ((x0 - x1) / 2). intros d.
    assert (Hu : 0 <= u * u <= 1) by nra.
    replace ((d * u) ^ 2) with (d * d * (u * u)) by ring.
    replace (d ^ 2) with (d * d) by ring.
    pose proof (Rle_0_sqr d) as Hd. unfold Rsqr in Hd. nra.
  - rewrite variance_closed_form, Rmult_0_r, sin_0. ring.
  - intros s Hs. unfold sigma_x_at, standard_deviation, np.sqrt in Hs.
    rewrite variance_closed_form in Hs.
    destruct (Rlt_dec _ 0) as [Hneg|_]; [discriminate|].
    injection Hs as <-.
    rewrite <- Rabs_mult, <- sqrt_Rsqr_abs. f_equal. unfold Rsqr. ring.
Qed.

End Propagation.

(** ** The superposition scripts *)

Section SuperpositionScripts.

Import Superposition.

Lemma superposition_grid :
  Superposition.x = map (fun j => INR j / 999) (seq 0 1000).
Proof.
  unfold Superposition.x, np.linspace.
  destruct (Z.ltb_spec 1000 0) as [H|_]; [lia|].
  replace (Z.to_nat 1000) with 1000%nat by lia.
  apply map_ext. intros j. unfold Superposition.L. field.
Qed.

Lemma superposition_grid_nth (j : nat) :
  (j < 1000)%nat -> nth j Superposition.x 0 = INR j / 999.
Proof.
  intros Hj. rewrite superposition_grid.
  rewrite (nth_map_in_range _ _ _ 0%nat) by (rewrite length_seq; exact Hj).
  rewrite seq_nth by exact Hj. reflexivity.
Qed.

Lemma superposition_grid_length : length Superposition.x = 1000%nat.
Proof. rewrite superposition_grid, length_map, length_seq. reflexivity. Qed.

Lemma add_real_map {A : Type} (f g : A -> R) (l : list A) :
  np.add_real (map f l) (map g l) = map (fun v => f v + g v) l.
Proof.
  unfold np.add_real. induction l as [|v l IH]; [reflexivity|].
  cbn [map combine fst snd]. f_equal. exact IH.
Qed.

(** The samples of the three scripts' arrays. *)
Lemma psi_1_nth (j : nat) :
  (j < 1000)%nat -> nth j psi_1 0 = sqrt 2 * sin (PI * (INR j / 999)).
Proof.
  intros Hj. unfold psi_1.
  rewrite (nth_map_in_range _ _ _ 0)
    by (rewrite superposition_grid_length; exact Hj).
  rewrite superposition_grid_nth by exact Hj. unfold Superposition.L.
  do 2 f_equal. field.
Qed.

Lemma psi_2_nth (j : nat) :
  (j < 1000)%nat -> nth j psi_2 0 = sqrt 2 * sin (2 * PI * (INR j / 999)).
Proof.
  intros Hj. unfold psi_2.
  rewrite (nth_map_in_range _ _ _ 0)
    by (rewrite superposition_grid_length; exact Hj).
  rewrite superposition_grid_nth by exact Hj. unfold Superposition.L.
  do 2 f_equal. field.
Qed.

Lemma frame_psi_super_nth (alpha : R) (j : nat) :
  ~ alpha < 0.01 -> (j < 1000)%nat ->
  nth j (frame_psi_super alpha) 0 =
  1 / sqrt (1 + alpha ^ 2) * nth j psi_1 0
  + alpha / sqrt (1 + alpha ^ 2) * nth j psi_2 0.
Proof.
  intros Ha Hj. unfold frame_psi_super.
  destruct (Rlt_dec alpha 0.01) as [H|_]; [contradiction|].
  cbv zeta. unfold psi_1, psi_2. rewrite !map_map, add_real_map.
  rewrite !(nth_map_in_range _ _ _ 0)
    by (rewrite superposition_grid_length; exact Hj).
  reflexivity.
Qed.

Lemma psi_super_nth (j : nat) :
  (j < 1000)%nat ->
  nth j psi_super 0 = (nth j psi_1 0 + nth j psi_2 0) / sqrt 2.
Proof.
  intros Hj. unfold psi_super, psi_1, psi_2.
  rewrite add_real_map, map_map.
  rewrite !(nth_map_in_range _ _ _ 0)
    by (rewrite superposition_grid_length; exact Hj).
  reflexivity.
Qed.

Lemma sqrt2_pos : 0 < sqrt 2.
Proof. apply sqrt_lt_R0. lra. Qed.

(** Reflection of the grid about the middle of the box. *)
Lemma mirror_samples (j : nat) :
  (1 <= j <= 499)%nat ->
  0 < nth j psi_1 0 /\
  0 < nth j psi_2 0 /\
  nth (999 - j) psi_1 0 = nth j psi_1 0 /\
  nth (999 - j) psi_2 0 = - nth j psi_2 0.
Proof.
  intros Hj.
  rewrite !psi_1_nth, !psi_2_nth by lia.
  assert (Hu : 0 < INR j / 999 < 1 / 2).
  { rewrite INR_IZR_INZ.
    assert (H1 : 1 <= IZR (Z.of_nat j)) by (apply IZR_le; lia).
    assert (H2 : IZR (Z.of_nat j) <= 499) by (apply IZR_le; lia).
    lra. }
  assert (Hm : INR (999 - j) / 999 = 1 - INR j / 999).
  { rewrite minus_INR by lia. rewrite (INR_IZR_INZ 999).
    change (Z.of_nat 999) with 999%Z. field. }
  rewrite Hm. generalize dependent (INR j / 999). intros u Hu _.
  pose proof PI_RGT_0 as Hpi. pose proof sqrt2_pos as Hs.
  assert (H1 : 0 < sin (PI * u)).
  { apply sin_gt_0; nra. }
  assert (H2 : 0 < sin (2 * PI * u)).
  { apply sin_gt_0; nra. }
  split; [nra|]. split; [nra|]. split.
  - replace (PI * (1 - u)) with (PI - PI * u) by ring.
    rewrite sin_PI_x. reflexivity.
  - replace (2 * PI * (1 - u)) with (2 * PI - 2 * PI * u) by ring.
    rewrite sin_minus, sin_2PI, cos_2PI. ring.
Qed.

(** X23.  On the left half of the box both eigenfunctions are positive; the
    sample mirrored about the middle has the same [psi_1] and the opposite
    [psi_2]: the two add up on the left and cancel on the right, as the
    scripts' annotations say. *)
Theorem interference_left_and_right (j : nat) :
  (1 <= j <= 499)%nat ->
  0 < nth j psi_1 0 /\
  0 < nth j psi_2 0 /\
  nth (999 - j) psi_1 0 = nth j psi_1 0 /\
  nth (999 - j) psi_2 0 = - nth j psi_2 0 /\
  Rabs (nth (999 - j) psi_super 0) < Rabs (nth j psi_super 0).
Proof.
  intros Hj.
  destruct (mirror_samples j Hj) as (H1 & H2 & H3 & H4).
  repeat (split; [assumption|]).
  rewrite !psi_super_nth by lia. rewrite H3, H4.
  pose proof sqrt2_pos as Hs.
  unfold Rdiv. rewrite !Rabs_mult.
  apply Rmult_lt_compat_r.
  - apply Rabs_pos_lt. apply Rinv_neq_0_compat. lra.
  - rewrite (Rabs_right (_ + nth j psi_2 0)) by lra.
    apply Rabs_def1; lra.
Qed.

Lemma interference_left_and_right_witness :
  0 < nth 250 psi_1 0 /\
  0 < nth 250 psi_2 0 /\
  nth (999 - 250) psi_1 0 = nth 250 psi_1 0 /\
  nth (999 - 250) psi_2 0 = - nth 250 psi_2 0 /\
  Rabs (nth (999 - 250) psi_super 0) < Rabs (nth 250 psi_super 0).
Proof.
  apply (interference_left_and_right 250). lia.
Defined.

(** X24.  The density is larger on the left: in every frame that mixes in
    [psi_2] (the branch of [alpha >= 0.01]) and in the plot of
    [asymmetry_explanation.py], each sample of the left half exceeds its
    mirror image, while the density of the frame without [psi_2] is
    symmetric. *)
Theorem density_left_exceeds_right (alpha : R) (j : nat) :
  (1 <= j <= 499)%nat ->
  (0.01 <= alpha ->
   nth (999 - j) (frame_prob_super alpha) 0 < nth j (frame_prob_super alpha) 0) /\
  (alpha < 0.01 ->
   nth (999 - j) (frame_prob_super alpha) 0 = nth j (frame_prob_super alpha) 0) /\
  nth (999 - j) prob_super 0 < nth j prob_super 0.
Proof.
  intros Hj.
  destruct (mirror_samples j Hj) as (H1 & H2 & H3 & H4).
  pose proof sqrt2_pos as Hs.
  assert (Hlen : forall a, length (frame_psi_super a) = 1000%nat).
  { intros a. unfold frame_psi_super.
    destruct (Rlt_dec a 0.01).
    - unfold psi_1. rewrite length_map. apply superposition_grid_length.
    - cbv zeta. unfold psi_1, psi_2.
      rewrite !map_map, add_real_map, length_map.
      apply superposition_grid_length. }
  split; [|split].
  - intros Ha. unfold frame_prob_super.
    rewrite !(nth_map_in_range _ _ _ 0) by (rewrite Hlen; lia).
    rewrite !frame_psi_super_nth by (try lra; lia).
    rewrite H3, H4.
    assert (Hr : 0 < sqrt (1 + alpha ^ 2)) by (apply sqrt_lt_R0; nra).
    assert (Hw1 : 0 < 1 / sqrt (1 + alpha ^ 2))
      by (apply Rdiv_lt_0_compat; lra).
    assert (Hw2 : 0 < alpha / sqrt (1 + alpha ^ 2))
      by (apply Rdiv_lt_0_compat; lra).
    revert Hw1 Hw2.
    generalize (1 / sqrt (1 + alpha ^ 2)) (alpha / sqrt (1 + alpha ^ 2)).
    intros w1 w2 Hw1 Hw2.
    assert (Hp : 0 < w1 * nth j psi_1 0) by (apply Rmult_lt_0_compat; lra).
    assert (Hq : 0 < w2 * nth j psi_2 0) by (apply Rmult_lt_0_compat; lra).
    nra.
  - intros Ha. unfold frame_prob_super.
    rewrite !(nth_map_in_range _ _ _ 0) by (rewrite Hlen; lia).
    unfold frame_psi_super. destruct (Rlt_dec alpha 0.01) as [_|H]; [|lra].
    rewrite H3. reflexivity.
  - unfold prob_super.
    assert (Hl : length psi_super = 1000%nat).
    { unfold psi_super, psi_1, psi_2.
      rewrite add_real_map, !length_map. apply superposition_grid_length. }
    rewrite !(nth_map_in_range _ _ _ 0) by (rewrite Hl; lia).
    rewrite !psi_super_nth by lia. rewrite H3, H4.
    assert (Hi : 0 < / sqrt 2) by (apply Rinv_0_lt_compat; lra).
    unfold Rdiv. revert Hi. generalize (/ sqrt 2). intros k Hk.
    assert (Hp : 0 < k * nth j psi_1 0) by (apply Rmult_lt_0_compat; lra).
    assert (Hq : 0 < k * nth j psi_2 0) by (apply Rmult_lt_0_compat; lra).
    nra.
Qed.

Lemma density_left_exceeds_right_witness :
  (0.01 <= 1 ->
   nth (999 - 250) (frame_prob_super 1) 0 < nth 250 (frame_prob_super 1) 0) /\
  (1 < 0.01 ->
   nth (999 - 250) (frame_prob_super 1) 0 = nth 250 (frame_prob_super 1) 0) /\
  nth (999 - 250) prob_super 0 < nth 250 prob_super 0.
Proof.
  apply (density_left_exceeds_right 1 250). lia.
Defined.

Lemma alphas_nth (i : nat) :
  (i < 30)%nat -> nth i alphas 0 = INR i / 29.
Proof.
  intros Hi. unfold alphas, np.linspace, n_frames.
  destruct (Z.ltb_spec 30 0) as [H|_]; [lia|].
  replace (Z.to_nat 30) with 30%nat by lia.
  rewrite (nth_map_in_range _ _ _ 0%nat) by (rewrite length_seq; exact Hi).
  rewrite seq_nth by exact Hi. cbn [Nat.add]. field.
Qed.

(** X25.  Every frame is the normalised combination
    [weight_1 * psi_1 + weight_2 * psi_2]: the special case of
    [alpha < 0.01] is met by the first frame only, where [alpha = 0] and the
    combination is [psi_1] itself.  The weights always satisfy
    [weight_1^2 + weight_2^2 = 1], and the last frame, [alpha = 1], is the
    superposition [(psi_1 + psi_2) / sqrt 2] of [asymmetry_explanation.py]. *)
Theorem frames_are_normalised_combinations (i : nat) :
  (i < 30)%nat ->
  let alpha := nth i alphas 0 in
  let weight_1 := 1 / sqrt (1 + alpha ^ 2) in
  let weight_2 := alpha / sqrt (1 + alpha ^ 2) in
  frame_psi_super alpha =
    np.add_real (map (Rmult weight_1) psi_1) (map (Rmult weight_2) psi_2) /\
  weight_1 ^ 2 + weight_2 ^ 2 = 1 /\
  (alpha < 0.01 <-> i = 0%nat) /\
  (i = 29%nat -> frame_psi_super alpha = psi_super).
Proof.
  intros Hi alpha weight_1 weight_2.
  assert (Ha : alpha = INR i / 29) by (apply alphas_nth; exact Hi).
  assert (Hr : 0 < sqrt (1 + alpha ^ 2)) by (apply sqrt_lt_R0; nra).
  assert (Hrr : sqrt (1 + alpha ^ 2) * sqrt (1 + alpha ^ 2) = 1 + alpha ^ 2)
    by (apply sqrt_sqrt; nra).
  assert (Hbranch : alpha < 0.01 <-> i = 0%nat).
  { split.
    - intros Hlt. destruct i as [|i]; [reflexivity|exfalso].
      assert (H1 : 1 <= INR (S i)) by (apply (le_INR 1); lia).
      rewrite Ha in Hlt.
      assert (1 / 29 <= INR (S i) / 29) by (unfold Rdiv; nra).
      lra.
    - intros ->. rewrite Ha. simpl. lra. }
  split; [|split; [|split; [exact Hbranch|]]].
  - unfold frame_psi_super.
    destruct (Rlt_dec alpha 0.01) as [Hlt|_]; [|reflexivity].
    apply Hbranch in Hlt. subst i.
    assert (H0 : alpha = 0) by (rewrite Ha; simpl; lra).
    subst weight_1 weight_2. rewrite H0.
    replace (1 + 0 ^ 2) with 1 by ring. rewrite sqrt_1.
    unfold psi_1, psi_2. rewrite !map_map, add_real_map.
    apply map_ext. intros v. field.
  - subst weight_1 weight_2. revert Hr Hrr.
    generalize (sqrt (1 + alpha ^ 2)). intros r Hr Hrr.
    replace ((1 / r) ^ 2 + (alpha / r) ^ 2) with ((1 + alpha ^ 2) / (r * r))
      by (field; lra).
    rewrite Hrr. field. nra.
  - intros ->.
    assert (H1 : alpha = 1) by (rewrite Ha; simpl; lra).
    rewrite H1. unfold frame_psi_super.
    destruct (Rlt_dec 1 0.01) as [H|_]; [lra|]. cbv zeta.
    replace (1 + 1 ^ 2) with 2 by ring.
    unfold psi_super, psi_1, psi_2. rewrite !map_map, !add_real_map, map_map.
    apply map_ext. intros v. pose proof sqrt2_pos. field. lra.
Qed.

Lemma frames_are_normalised_combinations_witness :
  let alpha := nth 29 alphas 0 in
  let weight_1 := 1 / sqrt (1 + alpha ^ 2) in
  let weight_2 := alpha / sqrt (1 + alpha ^ 2) in
  frame_psi_super alpha =
    np.add_real (map (Rmult weight_1) psi_1) (map (Rmult weight_2) psi_2) /\
  weight_1 ^ 2 + weight_2 ^ 2 = 1 /\
  (alpha < 0.01 <-> 29%nat = 0%nat) /\
  (29%nat = 29%nat -> frame_psi_super alpha = psi_super).
Proof.
  apply (frames_are_normalised_combinations 29). lia.
Defined.

End SuperpositionScripts.

(** ** Bessel's inequality for [position_to_energy] *)

Lemma Rsum_map_nonneg_in {A : Type} (f : A -> R) (l : list A) :
  (forall a, In a l -> 0 <= f a) -> 0 <= Rsum (map f l).
Proof.
  intros H. induction l as [|a l IH]; simpl; [lra|].
  pose proof (H a (or_introl eq_refl)).
  assert (0 <= Rsum (map f l)) by (apply IH; intros b Hb; apply H; right; exact Hb).
  lra.
Qed.

Lemma Rsum_map_plus {A : Type} (f g : A -> R) (l : list A) :
  Rsum (map (fun a => f a + g a) l) = Rsum (map f l) + Rsum (map g l).
Proof. induction l as [|a l IH]; simpl; [ring | rewrite IH; ring]. Qed.

Section Trapezoid.

Variable xs : list R.

Lemma trapezoid_ext (F G : nat -> R) :
  (forall j, (j < length xs)%nat -> F j = G j) ->
  trapezoid xs F = trapezoid xs G.
Proof.
  intros H. unfold trapezoid. apply Rsum_map_ext.
  intros j Hj. apply in_seq in Hj. rewrite !H by lia. reflexivity.
Qed.

Lemma trapezoid_plus (F G : nat -> R) :
  trapezoid xs (fun j => F j + G j) = trapezoid xs F + trapezoid xs G.
Proof.
  unfold trapezoid. rewrite <- Rsum_map_plus. apply Rsum_map_ext.
  intros j _. field.
Qed.

Lemma trapezoid_scal (k : R) (F : nat -> R) :
  trapezoid xs (fun j => k * F j) = k * trapezoid xs F.
Proof.
  unfold trapezoid. rewrite <- Rsum_map_scal. apply Rsum_map_ext.
  intros j _. field.
Qed.

Lemma trapezoid_minus_scal (k : R) (F G : nat -> R) :
  trapezoid xs (fun j => F j - k * G j) =
  trapezoid xs F - k * trapezoid xs G.
Proof.
  rewrite <- trapezoid_scal.
  replace (trapezoid xs F - trapezoid xs (fun j => k * G j))
    with (trapezoid xs F + (-1) * trapezoid xs (fun j => k * G j)) by ring.
  rewrite <- trapezoid_scal, <- trapezoid_plus.
  apply trapezoid_ext. intros j _. ring.
Qed.

Hypothesis increasing :
  forall j, (S j < length xs)%nat -> nth j xs 0 <= nth (S j) xs 0.

Lemma trapezoid_nonneg (F : nat -> R) :
  (forall j, 0 <= F j) -> 0 <= trapezoid xs F.
Proof.
  intros HF. unfold trapezoid. apply Rsum_map_nonneg_in.
  intros j Hj. apply in_seq in Hj.
  pose proof (increasing j ltac:(lia)). pose proof (HF j). pose proof (HF (S j)).
  nra.
Qed.

Variable phi : nat -> nat -> R.
Variable N : nat.

Hypothesis orthonormal :
  forall m n, (m < N)%nat -> (n < N)%nat ->
  trapezoid xs (fun j => phi m j * phi n j) = delta m n.

Variable F : nat -> R.

Lemma residual_projection (K n : nat) :
  (K <= n)%nat -> (n < N)%nat ->
  trapezoid xs (fun j => residual xs phi F K j * phi n j) =
  projection xs phi F n.
Proof.
  intros HK Hn. induction K as [|K IH].
  - unfold projection. apply trapezoid_ext. intros j _. simpl. ring.
  - rewrite (trapezoid_ext _
      (fun j => residual xs phi F K j * phi n j
                - projection xs phi F K * (phi K j * phi n j)))
      by (intros j _; simpl; ring).
    rewrite trapezoid_minus_scal, IH by lia.
    rewrite orthonormal by lia. unfold delta.
    destruct (Nat.eqb_spec K n); [lia|]. ring.
Qed.

Lemma residual_norm (K : nat) :
  (K <= N)%nat ->
  trapezoid xs (fun j => residual xs phi F K j ^ 2) =
  trapezoid xs (fun j => F j ^ 2)
  - Rsum (map (fun n => projection xs phi F n ^ 2) (seq 0 K)).
Proof.
  intros HK. induction K as [|K IH].
  - simpl. ring.
  - rewrite (trapezoid_ext _
      (fun j => residual xs phi F K j ^ 2
                - projection xs phi F K
                  * (2 * (residual xs phi F K j * phi K j)
                     - projection xs phi F K * (phi K j * phi K j))))
      by (intros j _; simpl; ring).
    rewrite trapezoid_minus_scal, trapezoid_minus_scal, trapezoid_scal.
    rewrite residual_projection, orthonormal, IH by lia.
    rewrite seq_S, map_app, Rsum_app. unfold delta. rewrite Nat.eqb_refl.
    simpl. ring.
Qed.

Lemma bessel :
  Rsum (map (fun n => projection xs phi F n ^ 2) (seq 0 N))
  <= trapezoid xs (fun j => F j ^ 2).
Proof.
  pose proof (residual_norm N (le_n N)) as Hnorm.
  assert (0 <= trapezoid xs (fun j => residual xs phi F N j ^ 2))
    by (apply trapezoid_nonneg; intros j; apply pow2_ge_0).
  lra.
Qed.

End Trapezoid.

(** [np.trapz] on real arrays. *)
Lemma trapz_real (a : list R) (xs : list R) :
  length a = length xs ->
  np.trapz (map RtoC a) xs = RtoC (trapezoid xs (fun j => nth j a 0)).
Proof.
  intros Hlen. rewrite trapz_index by (rewrite length_map; exact Hlen).
  unfold trapezoid. rewrite <- Csum_RtoC, map_map.
  apply Csum_map_ext. intros j Hj. apply in_seq in Hj.
  rewrite !(nth_map_in_range _ _ _ 0) by lia.
  cx_unfold. f_equal; field.
Qed.

Lemma multiply_real (a b : list R) :
  np.multiply (map RtoC a) (map RtoC b) =
  map RtoC (map (fun p => fst p * snd p) (combine a b)).
Proof.
  unfold np.multiply. revert b.
  induction a as [|u a IH]; intros [|v b]; try reflexivity.
  cbn [map combine fst snd]. rewrite IH. f_equal. cx_unfold. f_equal; ring.
Qed.

Lemma nth_product (a b : list R) (j : nat) :
  length a = length b ->
  nth j (map (fun p => fst p * snd p) (combine a b)) 0 = nth j a 0 * nth j b 0.
Proof.
  revert b j. induction a as [|u a IH]; intros [|v b] [|j] H; simpl in *;
    try discriminate; try ring.
  apply IH. lia.
Qed.

Section BesselForTheEngine.

Import ParticleInBox.

(** The coefficients of real samples are their projections on the sampled
    eigenfunctions. *)
Lemma position_to_energy_projection (self : ParticleInBox.t) (psi : list R) :
  length psi = length (x self) ->
  position_to_energy self (map RtoC psi) =
  map (fun n => RtoC (projection (x self)
                        (fun n j => position_wavefunction self n (nth j (x self) 0))
                        (fun j => nth j psi 0) n))
    (seq 0 (n_max self)).
Proof.
  intros Hlen. rewrite position_to_energy_map. apply map_ext. intros n.
  rewrite <- (map_map (position_wavefunction self n) RtoC).
  rewrite multiply_real, trapz_real
    by (rewrite length_map, length_combine, length_map, Hlen; lia).
  f_equal. unfold projection. apply trapezoid_ext. intros j Hj.
  rewrite nth_product by (rewrite length_map; symmetry; exact Hlen).
  rewrite (nth_map_in_range _ _ _ 0) by exact Hj. reflexivity.
Qed.

Lemma norm_squared_trapezoid (self : ParticleInBox.t) (psi : list R) :
  length psi = length (x self) ->
  LocalizedPacket.norm_squared self psi =
  trapezoid (x self) (fun j => nth j psi 0 ^ 2).
Proof.
  intros Hlen. unfold LocalizedPacket.norm_squared.
  rewrite <- (map_map (fun v => Rabs v ^ 2) RtoC).
  rewrite trapz_real by (rewrite length_map; exact Hlen).
  unfold Re, RtoC. cbn [fst].
  apply trapezoid_ext. intros j Hj.
  rewrite (nth_map_in_range _ _ _ 0) by (rewrite Hlen; exact Hj).
  apply pow2_abs.
Qed.

Lemma bessel_for_engine (L : R) (n_max : nat) (n_points : Z)
  (self : ParticleInBox.t) (psi : list R) :
  __init__ L n_max n_points = Ok self ->
  0 < L ->
  (Z.of_nat n_max + 2 <= n_points)%Z ->
  length psi = length (x self) ->
  LocalizedPacket.sum_of_probabilities (position_to_energy self (map RtoC psi))
  <= LocalizedPacket.norm_squared self psi.
Proof.
  intros Hinit HL Hfine Hlen.
  pose proof (init_ok_points _ _ _ _ Hinit) as Hpts.
  destruct (init_grid L n_max n_points self Hinit Hpts) as (HLs & Hns & Hx).
  destruct (grid_endpoints L n_max n_points self Hinit HL)
    as (_ & Hlx & Hnth & _ & _).
  rewrite norm_squared_trapezoid by exact Hlen.
  rewrite position_to_energy_projection by exact Hlen.
  unfold LocalizedPacket.sum_of_probabilities. rewrite map_map.
  rewrite (Rsum_map_ext _
    (fun n => projection (x self)
                (fun n j => position_wavefunction self n (nth j (x self) 0))
                (fun j => nth j psi 0) n ^ 2))
    by (intros n _; rewrite Cmod_RtoC; apply pow2_abs).
  apply bessel.
  - intros j Hj. rewrite !Hnth by lia. rewrite S_INR.
    assert (0 < INR (Z.to_nat n_points - 1)) by (apply lt_0_INR; lia).
    assert (0 < L / INR (Z.to_nat n_points - 1))
      by (apply Rdiv_lt_0_compat; assumption).
    nra.
  - intros m n Hm Hn. rewrite <- HLs in HL.
    apply (quadrature_overlap_uniform self (Z.to_nat n_points - 1) HL);
      try exact Hx; lia.
Qed.

(** X26.  Bessel's inequality: for real samples on the grid of an engine
    with fewer basis states than grid intervals, the probabilities
    [|c_n|^2] of the coefficients [position_to_energy] returns never add up
    to more than the squared norm [np.trapz(|psi|^2, x)] of the wave
    function. *)
Theorem coefficients_obey_bessel (L : R) (n_max : nat) (n_points : Z)
  (self : ParticleInBox.t) (psi : list R) :
  __init__ L n_max n_points = Ok self ->
  0 < L ->
  (Z.of_nat n_max + 2 <= n_points)%Z ->
  length psi = length (x self) ->
  Rsum (map (fun z => Cmod z ^ 2) (position_to_energy self (map RtoC psi)))
  <= Re (np.trapz (map (fun v => RtoC (Rabs v ^ 2)) psi) (x self)).
Proof.
  intros Hinit HL Hfine Hlen.
  change (LocalizedPacket.sum_of_probabilities
            (position_to_energy self (map RtoC psi))
          <= LocalizedPacket.norm_squared self psi).
  apply (bessel_for_engine L n_max n_points); assumption.
Qed.

End BesselForTheEngine.

Lemma coefficients_obey_bessel_witness :
  exists self,
    ParticleInBox.__init__ 1 2 4 = Ok self /\
    Rsum (map (fun z => Cmod z ^ 2)
            (ParticleInBox.position_to_energy self (map RtoC [0; 1; 1; 0])))
    <= Re (np.trapz (map (fun v => RtoC (Rabs v ^ 2)) [0; 1; 1; 0])
             (ParticleInBox.x self)).
Proof.
  eexists. split; [reflexivity|].
  apply (coefficients_obey_bessel 1 2 4);
    [reflexivity | lra | lia | reflexivity].
Defined.

(** ** The localized packet of [example_localized_packet] *)

Section LocalizedPacketExample.

Import ParticleInBox.
Import LocalizedPacket.

Lemma length_assign_where (cond : R -> bool) (xs a : list R) (v : R) :
  length a = length xs -> length (assign_where cond xs a v) = length xs.
Proof.
  intros H. unfold assign_where. rewrite length_map, length_combine. lia.
Qed.

Lemma nth_assign_where (cond : R -> bool) (xs a : list R) (v : R) (j : nat) :
  length a = length xs -> (j < length xs)%nat ->
  nth j (assign_where cond xs a v) 0 =
  if cond (nth j xs 0) then v else nth j a 0.
Proof.
  intros H Hj. unfold assign_where.
  rewrite (nth_map_in_range _ _ _ (0, 0)) by (rewrite length_combine; lia).
  rewrite combine_nth by (symmetry; exact H). reflexivity.
Qed.

Lemma length_gaussian_packet (pib : ParticleInBox.t) (x0 sigma : R) :
  length (gaussian_packet pib x0 sigma) = length (x pib).
Proof.
  unfold gaussian_packet. cbv zeta.
  rewrite length_assign_where; [reflexivity|].
  rewrite length_assign_where; [reflexivity|]. apply length_map.
Qed.

Lemma nth_gaussian_packet (pib : ParticleInBox.t) (x0 sigma : R) (j : nat) :
  (j < length (x pib))%nat ->
  nth j (gaussian_packet pib x0 sigma) 0 =
  if Rge_dec (nth j (x pib) 0) (L pib) then 0
  else if Rle_dec (nth j (x pib) 0) 0 then 0
       else exp (- (nth j (x pib) 0 - x0) ^ 2 / (2 * sigma ^ 2)).
Proof.
  intros Hj. unfold gaussian_packet. cbv zeta.
  rewrite nth_assign_where;
    [|rewrite length_assign_where; [reflexivity|apply length_map]|exact Hj].
  destruct (Rge_dec _ _); [reflexivity|].
  rewrite nth_assign_where; [|apply length_map|exact Hj].
  destruct (Rle_dec _ _); [reflexivity|].
  rewrite (nth_map_in_range _ _ _ 0) by exact Hj. reflexivity.
Qed.

(** X27.  The packet of [example_localized_packet] and its normalisation, in
    exact arithmetic, on the grid of an engine of positive length with fewer
    basis states than grid intervals.  For any centre and width the packet
    of lines 155-159 has one sample per grid point and vanishes at both
    walls.  The normalisation of lines 162-163, on any float array aligned
    with the grid, divides by zero exactly when [np.trapz(|psi|^2, x)] is
    zero (as it is when every sample is zero); when the norm is not zero the
    normalised array keeps its zeros, has [np.trapz(|psi|^2, x) = 1], and the
    printed sum of probabilities [np.sum(|c_n|^2)] of its coefficients is at
    most 1. *)
Theorem localized_packet_normalised (L : R) (n_max : nat) (n_points : Z)
  (self : ParticleInBox.t) (x0 sigma : R) (psi : list R) :
  __init__ L n_max n_points = Ok self ->
  0 < L ->
  (Z.of_nat n_max + 2 <= n_points)%Z ->
  length psi = length (x self) ->
  (length (gaussian_packet self x0 sigma) = length (x self) /\
   nth 0 (gaussian_packet self x0 sigma) 0 = 0 /\
   nth (length (x self) - 1) (gaussian_packet self x0 sigma) 0 = 0) /\
  (normalize self psi = None <-> norm_squared self psi = 0) /\
  (forall normalised,
     normalize self psi = Some normalised ->
     length normalised = length psi /\
     (forall j, nth j psi 0 = 0 -> nth j normalised 0 = 0) /\
     norm_squared self normalised = 1 /\
     sum_of_probabilities (position_to_energy self (map RtoC normalised)) <= 1).
Proof.
  intros Hinit HL Hfine Hlen.
  destruct (grid_endpoints L n_max n_points self Hinit HL)
    as (HLs & Hlx & Hnth & Hx0 & HxM).
  pose proof (init_ok_points _ _ _ _ Hinit) as Hpts.
  assert (HMR : 0 < INR (Z.to_nat n_points - 1)) by (apply lt_0_INR; lia).
  assert (Hstep : 0 < L / INR (Z.to_nat n_points - 1))
    by (apply Rdiv_lt_0_compat; assumption).
  assert (Hinc : forall j, (S j < length (x self))%nat ->
                   nth j (x self) 0 <= nth (S j) (x self) 0).
  { intros j Hj. rewrite !Hnth by lia. rewrite S_INR. nra. }
  assert (Hpos : 0 <= norm_squared self psi).
  { rewrite norm_squared_trapezoid by exact Hlen.
    apply trapezoid_nonneg; [exact Hinc|]. intros j. apply pow2_ge_0. }
  split; [|split].
  - split; [apply length_gaussian_packet|]. split.
    + rewrite nth_gaussian_packet by lia. rewrite Hx0.
      destruct (Rge_dec 0 (ParticleInBox.L self)); [reflexivity|].
      destruct (Rle_dec 0 0); [reflexivity|lra].
    + rewrite nth_gaussian_packet by lia. rewrite HxM, HLs.
      destruct (Rge_dec L L); [reflexivity|lra].
  - unfold normalize, np.sqrt.
    destruct (Rlt_dec (norm_squared self psi) 0) as [Hneg|_]; [lra|].
    destruct (Req_EM_T (sqrt (norm_squared self psi)) 0) as [H0|H0].
    + split; [intros _|reflexivity]. apply sqrt_eq_0; assumption.
    + split; [discriminate|]. intros Hz. exfalso. apply H0.
      rewrite Hz. apply sqrt_0.
  - intros normalised Hsome. unfold normalize, np.sqrt in Hsome.
    destruct (Rlt_dec (norm_squared self psi) 0) as [Hneg|_]; [lra|].
    set (norm := sqrt (norm_squared self psi)) in *.
    destruct (Req_EM_T norm 0) as [H0|H0]; [discriminate|].
    injection Hsome as <-.
    assert (Hnn : norm * norm = norm_squared self psi)
      by (apply sqrt_sqrt; exact Hpos).
    assert (Hl : length (map (fun v => v / norm) psi) = length (x self))
      by (rewrite length_map; exact Hlen).
    assert (Hunit : norm_squared self (map (fun v => v / norm) psi) = 1).
    { rewrite norm_squared_trapezoid by exact Hl.
      rewrite (trapezoid_ext _ _ (fun j => / (norm * norm) * nth j psi 0 ^ 2)).
      - rewrite trapezoid_scal, <- norm_squared_trapezoid by exact Hlen.
        rewrite Hnn. field. rewrite <- Hnn. nra.
      - intros j Hj.
        rewrite (nth_map_in_range _ _ _ 0) by (rewrite Hlen; exact Hj).
        field. exact H0. }
    split; [apply length_map|]. split; [|split; [exact Hunit|]].
    + intros j Hj. destruct (Nat.lt_ge_cases j (length psi)) as [Hin|Hout].
      * rewrite (nth_map_in_range _ _ _ 0) by exact Hin.
        rewrite Hj. field. exact H0.
      * apply nth_overflow. rewrite length_map. exact Hout.
    + rewrite <- Hunit.
      apply (bessel_for_engine L n_max n_points); assumption.
Qed.

Lemma localized_packet_normalised_witness :
  exists self,
    __init__ 1 30 1000 = Ok self /\
    (length (gaussian_packet self 0.3 0.1) = length (x self) /\
     nth 0 (gaussian_packet self 0.3 0.1) 0 = 0 /\
     nth (length (x self) - 1) (gaussian_packet self 0.3 0.1) 0 = 0) /\
    (normalize self (gaussian_packet self 0.3 0.1) = None <->
     norm_squared self (gaussian_packet self 0.3 0.1) = 0) /\
    (forall normalised,
       normalize self (gaussian_packet self 0.3 0.1) = Some normalised ->
       length normalised = length (gaussian_packet self 0.3 0.1) /\
       (forall j, nth j (gaussian_packet self 0.3 0.1) 0 = 0 ->
                  nth j normalised 0 = 0) /\
       norm_squared self normalised = 1 /\
       sum_of_probabilities
         (position_to_energy self (map RtoC normalised)) <= 1).
Proof.
  eexists. split; [reflexivity|].
  apply (localized_packet_normalised 1 30 1000);
    [reflexivity | lra | simpl; lia | apply length_gaussian_packet].
Defined.

End LocalizedPacketExample.

(** ** The superposition scripts and the engine *)

Section FramesAndEngine.

Import ParticleInBox.
Import Superposition.

Lemma default_grid (n_max : nat) (pib : ParticleInBox.t) :
  __init__ 1 n_max 1000 = Ok pib ->
  ParticleInBox.L pib = 1 /\ ParticleInBox.x pib = Superposition.x.
Proof.
  intros Hinit.
  destruct (init_returns 1 n_max 1000 ltac:(lia)) as (self & Hs & HL & _ & Hx).
  rewrite Hinit in Hs. injection Hs as <-.
  split; [exact HL|]. rewrite Hx, superposition_grid.
  replace (Z.to_nat 1000) with 1000%nat by lia.
  apply map_ext. intros j. field.
Qed.

Lemma psi_samples_are_eigenfunctions (pib : ParticleInBox.t) (j : nat) :
  ParticleInBox.L pib = 1 -> ParticleInBox.x pib = Superposition.x ->
  (j < 1000)%nat ->
  nth j psi_1 0 = position_wavefunction pib 0 (nth j (ParticleInBox.x pib) 0) /\
  nth j psi_2 0 = position_wavefunction pib 1 (nth j (ParticleInBox.x pib) 0).
Proof.
  intros HL Hx Hj. unfold psi_1, psi_2.
  rewrite !(nth_map_in_range _ _ _ 0)
    by (rewrite superposition_grid_length; exact Hj).
  rewrite Hx. unfold position_wavefunction. cbv zeta. rewrite HL.
  unfold Superposition.L. replace (2 / 1) with 2 by field.
  split; f_equal; f_equal; simpl; field.
Qed.

(** X28.  On the default grid of 1000 points of a box of length 1, the
    arrays of the superposition scripts are what the engine computes: every
    frame that mixes in [psi_2] is [energy_to_position] of the coefficient
    vector [(weight_1, weight_2)], the superposition of
    [asymmetry_explanation.py] is the [psi_x] of [example_superposition],
    and [psi_1] is the [psi_x] of [example_ground_state]. *)
Theorem frames_are_position_representations (n_max : nat)
  (pib : ParticleInBox.t) (alpha : R) :
  __init__ 1 n_max 1000 = Ok pib ->
  (0.01 <= alpha ->
   energy_to_position pib
     [RtoC (1 / sqrt (1 + alpha ^ 2)); RtoC (alpha / sqrt (1 + alpha ^ 2))] =
   map RtoC (frame_psi_super alpha)) /\
  energy_to_position pib (map (fun v => RtoC (v / sqrt 2)) [1; 1; 0; 0; 0]) =
    map RtoC psi_super /\
  energy_to_position pib (map RtoC [1; 0; 0; 0; 0]) = map RtoC psi_1.
Proof.
  intros Hinit. destruct (default_grid n_max pib Hinit) as [HL Hx].
  assert (Hlx : length (ParticleInBox.x pib) = 1000%nat)
    by (rewrite Hx; apply superposition_grid_length).
  assert (Hl1 : length psi_1 = 1000%nat)
    by (unfold psi_1; rewrite length_map; apply superposition_grid_length).
  pose proof sqrt2_pos as Hs2.
  split; [|split].
  - intros Ha. apply (nth_ext _ _ C0 C0).
    + rewrite length_energy_to_position, length_map, Hlx.
      unfold frame_psi_super. destruct (Rlt_dec alpha 0.01); [lra|].
      cbv zeta. unfold psi_1, psi_2.
      rewrite !map_map, add_real_map, length_map.
      symmetry. apply superposition_grid_length.
    + rewrite length_energy_to_position, Hlx. intros j Hj.
      rewrite nth_energy_to_position by (rewrite Hlx; exact Hj).
      destruct (psi_samples_are_eigenfunctions pib j HL Hx Hj) as [H1 H2].
      cbn [length seq map Csum fold_right nth]. rewrite <- H1, <- H2.
      rewrite (nth_map_in_range _ _ _ 0).
      * rewrite frame_psi_super_nth by (try lra; exact Hj).
        clear H1 H2. generalize (nth j psi_1 0) (nth j psi_2 0). intros p1 p2.
        generalize (sqrt (1 + alpha ^ 2)). intros r.
        cx_unfold. f_equal; ring.
      * unfold frame_psi_super. destruct (Rlt_dec alpha 0.01); [lra|].
        cbv zeta. unfold psi_1, psi_2.
        rewrite !map_map, add_real_map, length_map, superposition_grid_length.
        exact Hj.
  - apply (nth_ext _ _ C0 C0).
    + rewrite length_energy_to_position, length_map, Hlx.
      unfold psi_super, psi_1, psi_2.
      rewrite add_real_map, !length_map.
      symmetry. apply superposition_grid_length.
    + rewrite length_energy_to_position, Hlx. intros j Hj.
      rewrite nth_energy_to_position by (rewrite Hlx; exact Hj).
      destruct (psi_samples_are_eigenfunctions pib j HL Hx Hj) as [H1 H2].
      cbn [length seq map Csum fold_right nth]. rewrite <- H1, <- H2.
      rewrite (nth_map_in_range _ _ _ 0).
      * rewrite psi_super_nth by exact Hj.
        clear H1 H2. generalize (nth j psi_1 0) (nth j psi_2 0). intros p1 p2.
        cx_unfold. f_equal; field; lra.
      * unfold psi_super, psi_1, psi_2.
        rewrite add_real_map, !length_map, superposition_grid_length.
        exact Hj.
  - apply (nth_ext _ _ C0 C0).
    + rewrite length_energy_to_position, length_map, Hlx, Hl1. reflexivity.
    + rewrite length_energy_to_position, Hlx. intros j Hj.
      rewrite nth_energy_to_position by (rewrite Hlx; exact Hj).
      destruct (psi_samples_are_eigenfunctions pib j HL Hx Hj) as [H1 H2].
      cbn [length seq map Csum fold_right nth]. rewrite <- H1, <- H2.
      rewrite (nth_map_in_range _ _ _ 0) by (rewrite Hl1; exact Hj).
      clear H1 H2. generalize (nth j psi_1 0) (nth j psi_2 0). intros p1 p2.
      cx_unfold. f_equal; ring.
Qed.

Lemma frames_are_position_representations_witness :
  exists pib,
    __init__ 1 5 1000 = Ok pib /\
    (0.01 <= 1 ->
     energy_to_position pib
       [RtoC (1 / sqrt (1 + 1 ^ 2)); RtoC (1 / sqrt (1 + 1 ^ 2))] =
     map RtoC (frame_psi_super 1)) /\
    energy_to_position pib (map (fun v => RtoC (v / sqrt 2)) [1; 1; 0; 0; 0]) =
      map RtoC psi_super /\
    energy_to_position pib (map RtoC [1; 0; 0; 0; 0]) = map RtoC psi_1.
Proof.
  eexists. split; [reflexivity|].
  apply (frames_are_position_representations 5 _ 1). reflexivity.
Defined.

End FramesAndEngine.
